(** * Noxy compiler: a shallow embedding of [compiler.py]

    The development follows the stages of the compiler:
    - [Lexer]: the character scanner ([Lexer] class);
    - [Ast]: the Noxy types and the AST node classes;
    - [Resolver]: [ModuleManager] and the import handling of [NoxyCompiler];
    - [ir]: the fragment of the llvmlite IR the generator emits;
    - [CodeGen]: struct processing, global declaration, allocation
      tracking and the lowering of binary operations and casts
      ([LLVMCodeGenerator]).

    Python exceptions are modelled by the [Raise] outcome of [result];
    [while] loops and recursive methods take a fuel argument and the
    outcome [OutOfFuel] only says that the fuel given was too small. *)

From Stdlib Require Import String Ascii List ZArith Lia Bool.
From stdpp Require Import gmap strings list fin_maps pretty.

Set Default Proof Using "Type".
Set Warnings "-register-all".
Set Warnings "-at-level-200-changed".
Set Warnings "-clear-no-such-hyp".
Open Scope string_scope.
Open Scope list_scope.

(* ===================================================================== *)
(** * Outcomes of the compiler's methods                                   *)
(* ===================================================================== *)

(** The exception classes the modelled code raises. *)
Inductive exn : Type :=
| NoxySyntaxError (message : string) (line column : nat)
| NoxySemanticError (message : string)
| NoxyError (message : string)
| TypeError (message : string)
| ValueError (message : string)
| NameError (message : string)
| KeyError (key : string)
| NotImplementedError (message : string)
| AttributeError (message : string)
| DuplicatedNameError (name : string).

Inductive result (A : Type) : Type :=
| Ok (a : A)
| Raise (e : exn)
| OutOfFuel.
Arguments Ok {A} a.
Arguments Raise {A} e.
Arguments OutOfFuel {A}.

Definition rbind {A B} (m : result A) (k : A -> result B) : result B :=
  match m with
  | Ok a => k a
  | Raise e => Raise e
  | OutOfFuel => OutOfFuel
  end.

Global Instance result_bind : MBind result := fun A B k m => rbind m k.
Global Instance result_ret : MRet result := fun A a => Ok a.

(* ===================================================================== *)
(** * Lexer                                                                *)
(* ===================================================================== *)

Inductive TokenType : Type :=
| NUMBER | FLOAT | STRING | FSTRING | IDENTIFIER | TRUE | FALSE | NULL
| LET | GLOBAL | IF | THEN | ELSE | END | WHILE | DO | PRINT | FUNC | RETURN
| STRUCT | REF | BREAK | USE | SELECT
| INT | FLOAT_TYPE | STRING_TYPE | STR_TYPE | VOID | BOOL
| PLUS | MINUS | MULTIPLY | DIVIDE | MODULO | ASSIGN | GT | LT | GTE | LTE
| EQ | NEQ | ARROW | CONCAT | AND | OR | NOT
| LPAREN | RPAREN | LBRACKET | RBRACKET | LBRACE | RBRACE | COMMA | COLON
| SEMICOLON | DOT
| ZEROS
| EOF.

Global Instance TokenType_eq_dec : EqDecision TokenType.
Proof. solve_decision. Defined.

(** One part of an f-string token: literal text, [('EXPR', text)] or
    [('EXPR_FORMAT', text, spec)]. *)
Inductive fstring_part : Type :=
| Text (text : string)
| EXPR (expr_content : string)
| EXPR_FORMAT (expr_content format_spec : string).

(** The [value] of a token.  A float literal keeps its numeral: the
    conversion [float(number_str)] is not computed. *)
Inductive token_value : Type :=
| VStr (s : string)
| VInt (n : Z)
| VFloat (numeral : string)
| VParts (parts : list fstring_part).

Module Token.
Record t : Type := mk {
  type : TokenType;
  value : token_value;
  line : nat;
  column : nat
}.
End Token.

(** Characters are code points below 256; the classification functions
    are Python's [str.isspace], [str.isdigit], [str.isalpha] and
    [str.isalnum] on that range. *)
Module Char.
Definition code (c : ascii) : nat := nat_of_ascii c.

Definition between (lo hi : nat) (c : ascii) : bool :=
  (lo <=? code c)%nat && (code c <=? hi)%nat.

Definition isspace (c : ascii) : bool :=
  between 9 13 c || between 28 32 c || (code c =? 133)%nat || (code c =? 160)%nat.

Definition isdecimal (c : ascii) : bool := between 48 57 c.

Definition isdigit (c : ascii) : bool :=
  isdecimal c || (code c =? 178)%nat || (code c =? 179)%nat || (code c =? 185)%nat.

Definition isalpha (c : ascii) : bool :=
  between 65 90 c || between 97 122 c
  || (code c =? 170)%nat || (code c =? 181)%nat || (code c =? 186)%nat
  || between 192 214 c || between 216 246 c || between 248 255 c.

Definition isalnum (c : ascii) : bool :=
  isalpha c || isdigit c || between 188 190 c.

Definition quote : ascii := "034"%char.
Definition newline : ascii := "010"%char.
Definition tab : ascii := "009"%char.
Definition backslash : ascii := "092"%char.
Definition nul : ascii := "000"%char.

Definition eqb_opt (o : option ascii) (c : ascii) : bool :=
  match o with
  | Some d => Ascii.eqb d c
  | None => false
  end.
End Char.

(** Python string helpers used by the lexer. *)
Module PyStr.
Fixpoint lstrip (s : string) : string :=
  match s with
  | String c rest => if Char.isspace c then lstrip rest else s
  | EmptyString => EmptyString
  end.

Fixpoint rev_acc (s acc : string) : string :=
  match s with
  | String c rest => rev_acc rest (String c acc)
  | EmptyString => acc
  end.

Definition rev (s : string) : string := rev_acc s EmptyString.

Definition rstrip (s : string) : string := rev (lstrip (rev s)).

(** [s.strip()] *)
Definition strip (s : string) : string := rstrip (lstrip s).

(** [c in s] *)
Fixpoint contains (c : ascii) (s : string) : bool :=
  match s with
  | String d rest => Ascii.eqb d c || contains c rest
  | EmptyString => false
  end.

(** [s.split(c, 1)] when [c in s]: the text before the first [c] and
    the text after it. *)
Fixpoint split_first (c : ascii) (s : string) : string * string :=
  match s with
  | String d rest =>
      if Ascii.eqb d c then (EmptyString, rest)
      else let '(a, b) := split_first c rest in (String d a, b)
  | EmptyString => (EmptyString, EmptyString)
  end.

(** [s[i:i+2]] *)
Definition slice2 (s : string) (i : nat) : string := String.substring i 2 s.

Definition snoc (s : string) (c : ascii) : string := s +:+ String c EmptyString.

Definition is_empty (s : string) : bool :=
  match s with EmptyString => true | _ => false end.

(** [int(s)] for a string of [isdigit] characters: the decimal value,
    or [None] (a [ValueError]) when a character is no ASCII digit. *)
Fixpoint int_acc (s : string) (acc : Z) : option Z :=
  match s with
  | EmptyString => Some acc
  | String c rest =>
      if Char.isdecimal c
      then int_acc rest (10 * acc + Z.of_nat (Char.code c - 48))%Z
      else None
  end.

Definition int (s : string) : option Z :=
  match s with
  | EmptyString => None
  | _ => int_acc s 0%Z
  end.

(** Whether [float(s)] accepts a numeral made of [isdigit] characters
    and at most one dot, starting with a digit. *)
Fixpoint float_ok (s : string) : bool :=
  match s with
  | EmptyString => true
  | String c rest => (Char.isdecimal c || Ascii.eqb c ".") && float_ok rest
  end.
End PyStr.

Module Lexer.

Record t : Type := mk {
  source : string;
  position : nat;
  line : nat;
  column : nat;
  tokens : list Token.t
}.

Definition init (src : string) : t := mk src 0 1 1 [].

Definition len (s : t) : nat := String.length (source s).

Definition _current_char (s : t) : option ascii :=
  String.get (position s) (source s).

Definition _peek_char (s : t) : option ascii :=
  String.get (position s + 1) (source s).

Definition _advance (s : t) : t :=
  if Char.eqb_opt (_current_char s) Char.newline
  then mk (source s) (position s + 1) (line s + 1) 1 (tokens s)
  else mk (source s) (position s + 1) (line s) (column s + 1) (tokens s).

Definition append_token (s : t) (tok : Token.t) : t :=
  mk (source s) (position s) (line s) (column s) (tokens s ++ [tok]).

(** The inner loop of a [//] comment: advance up to the line end. *)
Fixpoint skip_comment (fuel : nat) (s : t) : result t :=
  match fuel with
  | O => OutOfFuel
  | S fuel' =>
      if (position s <? len s)%nat && negb (Char.eqb_opt (_current_char s) Char.newline)
      then skip_comment fuel' (_advance s)
      else Ok s
  end.

Fixpoint _skip_whitespace_and_comments (fuel : nat) (s : t) : result t :=
  match fuel with
  | O => OutOfFuel
  | S fuel' =>
      if (position s <? len s)%nat then
        match _current_char s with
        | Some c =>
            if Char.isspace c then _skip_whitespace_and_comments fuel' (_advance s)
            else if (position s + 1 <? len s)%nat
                    && String.eqb (PyStr.slice2 (source s) (position s)) "//"
            then s' ← skip_comment (S (len s)) s;
                 _skip_whitespace_and_comments fuel' s'
            else Ok s
        | None => Ok s
        end
      else Ok s
  end.

(** The character an escape sequence stands for. *)
Definition unescape (escape_char : ascii) : ascii :=
  if Ascii.eqb escape_char "n" then Char.newline
  else if Ascii.eqb escape_char "t" then Char.tab
  else if Ascii.eqb escape_char Char.quote then Char.quote
  else if Ascii.eqb escape_char Char.backslash then Char.backslash
  else if Ascii.eqb escape_char "0" then Char.nul
  else escape_char.

(** The body loop of [_read_string]: returns the state at the closing
    quote (or at the end of the source) and the string read. *)
Fixpoint read_string_loop (fuel : nat) (s : t) (string_value : string)
  : result (t * string) :=
  match fuel with
  | O => OutOfFuel
  | S fuel' =>
      match _current_char s with
      | Some c =>
          if Ascii.eqb c Char.quote then Ok (s, string_value)
          else if Ascii.eqb c Char.backslash then
            let s1 := _advance s in
            match _current_char s1 with
            | Some escape_char =>
                read_string_loop fuel' (_advance s1)
                  (PyStr.snoc string_value (unescape escape_char))
            | None => read_string_loop fuel' s1 string_value
            end
          else read_string_loop fuel' (_advance s) (PyStr.snoc string_value c)
      | None => Ok (s, string_value)
      end
  end.

Definition _read_string (s : t) : result t :=
  let start_column := column s in
  let s := _advance s in
  '(s, string_value) ← read_string_loop (S (len s)) s EmptyString;
  if (position s <? len s)%nat then
    let s := _advance s in
    Ok (append_token s (Token.mk STRING (VStr string_value) (line s) start_column))
  else
    Raise (NoxySyntaxError "String nao terminada" (line s) (column s)).

(** The scan of one embedded expression, after its opening brace:
    returns the state, the text read and the final brace count. *)
Fixpoint read_braces (fuel : nat) (s : t) (expr_text : string) (brace_count : nat)
  : result (t * string * nat) :=
  match fuel with
  | O => OutOfFuel
  | S fuel' =>
      if (position s <? len s)%nat && (0 <? brace_count)%nat then
        let brace_count :=
          if Char.eqb_opt (_current_char s) "{" then brace_count + 1
          else if Char.eqb_opt (_current_char s) "}" then brace_count - 1
          else brace_count in
        let expr_text :=
          if (0 <? brace_count)%nat then
            match _current_char s with
            | Some c => PyStr.snoc expr_text c
            | None => expr_text
            end
          else expr_text in
        read_braces fuel' (_advance s) expr_text brace_count
      else Ok (s, expr_text, brace_count)
  end.

(** Lines 328-341 of [_read_fstring]: the part recorded for the text
    of an embedded expression. *)
Definition expr_part (expr_text : string) : fstring_part :=
  let expr_content := PyStr.strip expr_text in
  if PyStr.contains ":" expr_content then
    let '(expr_part, format_part) := PyStr.split_first ":" expr_content in
    let expr_content := PyStr.strip expr_part in
    let format_spec := PyStr.strip format_part in
    if PyStr.is_empty format_spec then EXPR expr_content
    else EXPR_FORMAT expr_content format_spec
  else EXPR expr_content.

Definition flush_text (parts : list fstring_part) (current_text : string)
  : list fstring_part :=
  if PyStr.is_empty current_text then parts else parts ++ [Text current_text].

Fixpoint read_fstring_loop (fuel : nat) (s : t) (parts : list fstring_part)
    (current_text : string) : result (t * list fstring_part * string) :=
  match fuel with
  | O => OutOfFuel
  | S fuel' =>
      match _current_char s with
      | Some c =>
          if Ascii.eqb c Char.quote then Ok (s, parts, current_text)
          else if Ascii.eqb c "{" then
            let parts := flush_text parts current_text in
            let s1 := _advance s in
            '(s2, expr_text, brace_count) ←
              read_braces (S (len s1)) s1 EmptyString 1;
            if (0 <? brace_count)%nat then
              Raise (NoxySyntaxError "F-string nao terminada - esperado '}'"
                       (line s2) (column s2))
            else
              read_fstring_loop fuel' s2 (parts ++ [expr_part expr_text]) EmptyString
          else if Ascii.eqb c Char.backslash then
            let s1 := _advance s in
            match _current_char s1 with
            | Some escape_char =>
                read_fstring_loop fuel' (_advance s1) parts
                  (PyStr.snoc current_text (unescape escape_char))
            | None => read_fstring_loop fuel' s1 parts current_text
            end
          else read_fstring_loop fuel' (_advance s) parts (PyStr.snoc current_text c)
      | None => Ok (s, parts, current_text)
      end
  end.

Definition _read_fstring (s : t) : result t :=
  let start_column := column s in
  let s := _advance (_advance s) in
  '(s, parts, current_text) ←
    read_fstring_loop (S (len s)) s [] EmptyString;
  let parts := flush_text parts current_text in
  if (position s <? len s)%nat then
    let s := _advance s in
    Ok (append_token s (Token.mk FSTRING (VParts parts) (line s) start_column))
  else
    Raise (NoxySyntaxError "F-string nao terminada" (line s) (column s)).

Fixpoint read_number_loop (fuel : nat) (s : t) (number_str : string) (has_dot : bool)
  : result (t * string * bool) :=
  match fuel with
  | O => OutOfFuel
  | S fuel' =>
      match _current_char s with
      | Some c =>
          if Char.isdigit c || Ascii.eqb c "." then
            if Ascii.eqb c "." && has_dot then Ok (s, number_str, has_dot)
            else read_number_loop fuel' (_advance s) (PyStr.snoc number_str c)
                   (has_dot || Ascii.eqb c ".")
          else Ok (s, number_str, has_dot)
      | None => Ok (s, number_str, has_dot)
      end
  end.

Definition _read_number (s : t) : result t :=
  let start_column := column s in
  '(s, number_str, has_dot) ←
    read_number_loop (S (len s)) s EmptyString false;
  if (has_dot : bool) then
    if PyStr.float_ok number_str
    then Ok (append_token s (Token.mk FLOAT (VFloat number_str) (line s) start_column))
    else Raise (ValueError number_str)
  else
    match PyStr.int number_str with
    | Some value =>
        Ok (append_token s (Token.mk NUMBER (VInt value) (line s) start_column))
    | None => Raise (ValueError number_str)
    end.

Definition keywords : list (string * TokenType) :=
  [ ("let", LET); ("global", GLOBAL); ("if", IF); ("then", THEN);
    ("else", ELSE); ("end", END); ("while", WHILE); ("do", DO);
    ("print", PRINT); ("func", FUNC); ("return", RETURN); ("int", INT);
    ("float", FLOAT_TYPE); ("string", STRING_TYPE); ("str", STR_TYPE);
    ("void", VOID); ("bool", BOOL); ("true", TRUE); ("false", FALSE);
    ("null", NULL); ("struct", STRUCT); ("ref", REF); ("zeros", ZEROS);
    ("break", BREAK); ("use", USE); ("select", SELECT) ].

Fixpoint table_get {V} (table : list (string * V)) (key : string) : option V :=
  match table with
  | [] => None
  | (k, v) :: rest => if String.eqb k key then Some v else table_get rest key
  end.

Fixpoint read_identifier_loop (fuel : nat) (s : t) (identifier : string)
  : result (t * string) :=
  match fuel with
  | O => OutOfFuel
  | S fuel' =>
      match _current_char s with
      | Some c =>
          if Char.isalnum c || Ascii.eqb c "_"
          then read_identifier_loop fuel' (_advance s) (PyStr.snoc identifier c)
          else Ok (s, identifier)
      | None => Ok (s, identifier)
      end
  end.

Definition _read_identifier (s : t) : result t :=
  let start_column := column s in
  '(s, identifier) ← read_identifier_loop (S (len s)) s EmptyString;
  let token_type := default IDENTIFIER (table_get keywords identifier) in
  Ok (append_token s (Token.mk token_type (VStr identifier) (line s) start_column)).

Definition two_char_ops : list (string * TokenType) :=
  [ (">=", GTE); ("<=", LTE); ("==", EQ); ("!=", NEQ); ("->", ARROW); ("++", CONCAT) ].

Definition operators : list (string * TokenType) :=
  [ ("+", PLUS); ("-", MINUS); ("*", MULTIPLY); ("/", DIVIDE); ("%", MODULO);
    ("=", ASSIGN); (">", GT); ("<", LT); ("(", LPAREN); (")", RPAREN);
    ("[", LBRACKET); ("]", RBRACKET); ("{", LBRACE); ("}", RBRACE);
    (",", COMMA); (":", COLON); (";", SEMICOLON); (".", DOT);
    ("&", AND); ("|", OR); ("!", NOT) ].

Definition char_str (o : option ascii) : string :=
  match o with
  | Some c => String c EmptyString
  | None => EmptyString
  end.

Definition _read_operator (s : t) : result t :=
  let start_column := column s in
  let char := char_str (_current_char s) in
  let next_char := char_str (_peek_char s) in
  let two_char := char +:+ next_char in
  match table_get two_char_ops two_char with
  | Some ty =>
      let s := append_token s (Token.mk ty (VStr two_char) (line s) start_column) in
      Ok (_advance (_advance s))
  | None =>
      match table_get operators char with
      | Some ty =>
          let s := append_token s (Token.mk ty (VStr char) (line s) start_column) in
          Ok (_advance s)
      | None =>
          Raise (NoxySyntaxError ("Caractere invalido '" +:+ char +:+ "'")
                   (line s) (column s))
      end
  end.

Fixpoint tokenize_loop (fuel : nat) (s : t) : result t :=
  match fuel with
  | O => OutOfFuel
  | S fuel' =>
      if (position s <? len s)%nat then
        s ← _skip_whitespace_and_comments (S (len s)) s;
        match _current_char s with
        | None => Ok s
        | Some c =>
            s ←
              if Ascii.eqb c "f" && Char.eqb_opt (_peek_char s) Char.quote
              then _read_fstring s
              else if Ascii.eqb c Char.quote then _read_string s
              else if Char.isdigit c then _read_number s
              else if Char.isalpha c || Ascii.eqb c "_" then _read_identifier s
              else _read_operator s;
            tokenize_loop fuel' s
        end
      else Ok s
  end.

Definition tokenize (src : string) : result (list Token.t) :=
  s ← tokenize_loop (S (String.length src)) (init src);
  Ok (tokens s ++ [Token.mk EOF (VStr EmptyString) (line s) (column s)]).

(** The line and column of the character at offset [n] of a source:
    the position counters after [n] calls of [_advance]. *)
Fixpoint advance_n (n : nat) (s : t) : t :=
  match n with
  | O => s
  | S n' => advance_n n' (_advance s)
  end.

Definition location_of_offset (src : string) (offset : nat) : nat * nat :=
  let s := advance_n offset (init src) in (line s, column s).

End Lexer.

(** Test sources are written with an apostrophe where the Noxy text has
    a double quote. *)
Fixpoint dq (s : string) : string :=
  match s with
  | EmptyString => EmptyString
  | String c rest => String (if Ascii.eqb c "'" then Char.quote else c) (dq rest)
  end.


(* ===================================================================== *)
(** * Types and AST nodes                                                  *)
(* ===================================================================== *)

Module Ast.

(** The [Type] dataclasses.  A [StructType] carries its name and the
    field dictionary it was built with. *)
Inductive Ty : Type :=
| IntType
| FloatType
| StringType
| StrType
| ArrayType (element_type : Ty) (size : option Z)
| VoidType
| FunctionType (param_types : list Ty) (return_type : Ty)
| BoolType
| NullType
| StructType (name : string) (fields : list (string * Ty))
| ReferenceType (target_type : Ty) (is_mutable : bool).

(** The AST node classes.  [StrPart] stands for a plain [str] item of
    [FStringNode.parts]; a float literal keeps its numeral. *)
Inductive node : Type :=
| NumberNode (value : Z)
| FloatNode (value : string)
| StringNode (value : string)
| StrPart (text : string)
| FStringNode (parts : list node)
| ArrayNode (elements : list node) (element_type : Ty)
| ZerosNode (size : Z) (element_type : Ty)
| ArrayAccessNode (array_name : string) (index : node)
| IdentifierNode (name : string)
| BinaryOpNode (left : node) (operator : TokenType) (right : node)
| CastNode (expression : node) (target_type : Ty)
| ConcatNode (left right : node)
| AssignmentNode (identifier : string) (var_type : option Ty) (value : node)
    (is_global : bool)
| ArrayAssignmentNode (array_name : string) (index value : node)
| PrintNode (expression : node)
| IfNode (condition : node) (then_branch : list node)
    (else_branch : option (list node))
| WhileNode (condition : node) (body : list node)
| FunctionNode (name : string) (params : list (string * Ty)) (return_type : Ty)
    (body : list node)
| ReturnNode (value : option node)
| CallNode (function_name : string) (arguments : list node)
| StructDefinitionNode (name : string) (fields : list (string * Ty))
| StructAccessNode (struct_name field_name : string)
| StructAccessFromArrayNode (base_access : node) (field_path : string)
| StructAssignmentNode (struct_name field_name : string) (value : node)
| NestedStructAssignmentNode (struct_name : string) (field_path : list string)
    (value : node)
| ArrayFieldAssignmentNode (array_name : string) (index : node)
    (field_path : list string) (value : node)
| StructConstructorNode (struct_name : string) (arguments : list node)
| ProgramNode (statements : list node)
| BooleanNode (value : bool)
| NullNode
| UnaryOpNode (operator : TokenType) (operand : node)
| ReferenceNode (expression : node)
| BreakNode
| StringCharAccessNode (string_ : string) (index : node)
| UseNode (module_name : string) (selected_symbols : option (list string))
    (import_all : bool).

End Ast.

(** Python enumerates a [set] in an order the language leaves open.
    The code that iterates over a set is modelled for every enumeration
    function; [elements] is one of them. *)
Class SetIteration : Type := {
  iter : gset string -> list string;
  iter_perm : forall s, iter s ≡ₚ elements s
}.

Definition elements_iteration : SetIteration :=
  {| iter := elements; iter_perm := fun s => reflexivity (elements s) |}.

(* ===================================================================== *)
(** * Module resolver                                                      *)
(* ===================================================================== *)

Module Resolver.
Import Ast.

(** An entry of a module's export dictionary: the ['type'] tag with
    the attributes of the ['node'] it refers to. *)
Inductive symbol_info : Type :=
| function (name : string) (params : list (string * Ty)) (return_type : Ty)
    (body : list node)
| variable (identifier : string) (var_type : option Ty) (value : node)
| struct (name : string) (fields : list (string * Ty)).

(** [symbol_info['node']] *)
Definition symbol_node (info : symbol_info) : node :=
  match info with
  | function name params return_type body => FunctionNode name params return_type body
  | variable identifier var_type value => AssignmentNode identifier var_type value true
  | struct name fields => StructDefinitionNode name fields
  end.

(** [ModuleManager._extract_exported_symbols] *)
Definition export_stmt (symbols : gmap string symbol_info) (stmt : node)
  : gmap string symbol_info :=
  match stmt with
  | FunctionNode name params return_type body =>
      <[name := function name params return_type body]> symbols
  | AssignmentNode identifier var_type value true =>
      <[identifier := variable identifier var_type value]> symbols
  | StructDefinitionNode name fields =>
      <[name := struct name fields]> symbols
  | _ => symbols
  end.

Definition _extract_exported_symbols (statements : list node)
  : gmap string symbol_info :=
  foldl export_stmt ∅ statements.

(** What locating, reading and parsing the file of a module gives. *)
Inductive file_outcome : Type :=
| NotFound
| LoadFails (message : string)
| Parsed (statements : list node).

(** [NoxyCompiler._analyze_function_dependencies]: the names
    [visit_node] adds to [dependencies].  Attribute values that are
    not AST nodes (names, types, operator tags, numbers) add nothing. *)
Fixpoint visit_node (n : node) : gset string :=
  let visit_all := fix visit_all (l : list node) : gset string :=
    match l with
    | [] => ∅
    | item :: rest => visit_node item ∪ visit_all rest
    end in
  match n with
  | IdentifierNode name => {[ name ]}
  | CallNode function_name arguments => {[ function_name ]} ∪ visit_all arguments
  | StructConstructorNode struct_name arguments =>
      {[ struct_name ]} ∪ visit_all arguments
  | AssignmentNode _ _ value _ => visit_node value
  | BinaryOpNode lhs _ rhs => visit_node lhs ∪ visit_node rhs
  | ArrayAccessNode array_name index => {[ array_name ]} ∪ visit_node index
  | IfNode condition then_branch else_branch =>
      visit_node condition ∪ visit_all then_branch
      ∪ match else_branch with
        | Some stmts => visit_all stmts
        | None => ∅
        end
  | WhileNode condition body => visit_node condition ∪ visit_all body
  | ReturnNode value =>
      match value with
      | Some v => visit_node v
      | None => ∅
      end
  (* the remaining classes: every attribute is visited *)
  | NumberNode _ | FloatNode _ | StringNode _ | StrPart _ | BooleanNode _
  | NullNode | BreakNode | ZerosNode _ _ | StructAccessNode _ _
  | StructDefinitionNode _ _ | UseNode _ _ _ => ∅
  | FStringNode parts => visit_all parts
  | ArrayNode elements _ => visit_all elements
  | CastNode expression _ => visit_node expression
  | ConcatNode lhs rhs => visit_node lhs ∪ visit_node rhs
  | ArrayAssignmentNode _ index value => visit_node index ∪ visit_node value
  | PrintNode expression => visit_node expression
  | FunctionNode _ _ _ body => visit_all body
  | StructAccessFromArrayNode base_access _ => visit_node base_access
  | StructAssignmentNode _ _ value => visit_node value
  | NestedStructAssignmentNode _ _ value => visit_node value
  | ArrayFieldAssignmentNode _ index _ value => visit_node index ∪ visit_node value
  | ProgramNode statements => visit_all statements
  | UnaryOpNode _ operand => visit_node operand
  | ReferenceNode expression => visit_node expression
  | StringCharAccessNode _ index => visit_node index
  end.

Definition visit_body (body : list node) : gset string :=
  ⋃ (visit_node <$> body).

Definition builtin_functions : gset string :=
  list_to_set [ "printf"; "malloc"; "free"; "strlen"; "strcpy"; "strcat";
                "to_str"; "array_to_str"; "to_int"; "to_float"; "ord";
                "length"; "print"; "to_str" ].

Definition param_names (params : list (string * Ty)) : gset string :=
  list_to_set (fst <$> params).

Definition _analyze_function_dependencies
    (params : list (string * Ty)) (body : list node) : gset string :=
  visit_body body ∖ builtin_functions ∖ param_names params.

Section Collect.
Context {SI : SetIteration}.

(** [NoxyCompiler._collect_dependencies] *)
Fixpoint _collect_dependencies (fuel : nat) (symbol_name : string)
    (module_symbols : gmap string symbol_info) (collected : gset string)
  : result (gset string) :=
  match fuel with
  | O => OutOfFuel
  | S fuel' =>
      if decide (symbol_name ∈ collected) then Ok collected
      else
        match module_symbols !! symbol_name with
        | None => Ok collected
        | Some symbol_info =>
            let collected := {[ symbol_name ]} ∪ collected in
            match symbol_info with
            | function _ params _ body =>
                let dependencies := _analyze_function_dependencies params body in
                (fix each (deps : list string) (collected : gset string)
                   : result (gset string) :=
                   match deps with
                   | [] => Ok collected
                   | dep :: rest =>
                       collected ←
                         (if decide (dep ∈ dom module_symbols ∧ dep ∉ collected)
                          then _collect_dependencies fuel' dep module_symbols collected
                          else Ok collected);
                       each rest collected
                   end) (iter dependencies) collected
            | _ => Ok collected
            end
        end
  end.

(** The loop over [use_node.selected_symbols]. *)
Fixpoint collect_selected (module_name : string) (selected_symbols : list string)
    (module_symbols : gmap string symbol_info) (symbols_to_import : gset string)
  : result (gset string) :=
  match selected_symbols with
  | [] => Ok symbols_to_import
  | symbol_name :: rest =>
      if decide (symbol_name ∈ dom module_symbols) then
        symbols_to_import ←
          _collect_dependencies (S (size module_symbols)) symbol_name
            module_symbols symbols_to_import;
        collect_selected module_name rest module_symbols symbols_to_import
      else
        Raise (NoxyError ("Simbolo '" +:+ symbol_name +:+ "' nao encontrado no modulo '"
                          +:+ module_name +:+ "'"))
  end.

(** [imported_symbols[symbol_name] = module_symbols[symbol_name]]
    for every name of a list. *)
Fixpoint import_names (names : list string)
    (module_symbols imported_symbols : gmap string symbol_info)
  : result (gmap string symbol_info) :=
  match names with
  | [] => Ok imported_symbols
  | symbol_name :: rest =>
      match module_symbols !! symbol_name with
      | Some info =>
          import_names rest module_symbols (<[symbol_name := info]> imported_symbols)
      | None => Raise (KeyError symbol_name)
      end
  end.

(** The state of a [NoxyCompiler] the imports use:
    [module_manager.loaded_modules] and [imported_symbols]. *)
Record t : Type := mk {
  loaded_modules : gmap string (gmap string symbol_info);
  imported_symbols : gmap string symbol_info
}.

Section Files.
(** The source files: what [_find_module_file], [open], the lexer
    and the parser give for a module name. *)
Variable module_files : string -> file_outcome.

(** [ModuleManager.load_module] *)
Definition load_module (st : t) (module_name : string)
  : result (t * gmap string symbol_info) :=
  match loaded_modules st !! module_name with
  | Some exported_symbols => Ok (st, exported_symbols)
  | None =>
      match module_files module_name with
      | NotFound =>
          Raise (NoxyError ("Modulo '" +:+ module_name +:+ "' nao encontrado"))
      | LoadFails message =>
          Raise (NoxyError ("Erro ao carregar modulo '" +:+ module_name +:+ "': "
                            +:+ message))
      | Parsed statements =>
          let exported_symbols := _extract_exported_symbols statements in
          Ok (mk (<[module_name := exported_symbols]> (loaded_modules st))
                 (imported_symbols st),
              exported_symbols)
      end
  end.

(** [str(e)] of an exception caught by [_handle_use_statement]. *)
Definition exn_str (e : exn) : string :=
  match e with
  | NoxySyntaxError m _ _ | NoxySemanticError m | NoxyError m => "Erro: " +:+ m
  | TypeError m | ValueError m | NameError m | NotImplementedError m
  | AttributeError m => m
  | KeyError k => "'" +:+ k +:+ "'"
  | DuplicatedNameError n => n
  end.

(** The body of the [try] of [_handle_use_statement]. *)
Definition use_body (st : t) (module_name : string)
    (selected_symbols : option (list string)) (import_all : bool)
  : result t :=
  '(st, module_symbols) ← load_module st module_name;
  if import_all then
    Ok (mk (loaded_modules st) (module_symbols ∪ imported_symbols st))
  else
    match selected_symbols with
    | Some (first :: others) =>
        symbols_to_import ←
          collect_selected module_name (first :: others) module_symbols ∅;
        imported ←
          import_names (iter symbols_to_import) module_symbols (imported_symbols st);
        Ok (mk (loaded_modules st) imported)
    | _ =>
        Ok (mk (loaded_modules st)
               (kmap (fun symbol_name => module_name +:+ "." +:+ symbol_name)
                     module_symbols ∪ imported_symbols st))
    end.

(** [NoxyCompiler._handle_use_statement] on the attributes of a
    [UseNode]. *)
Definition _handle_use_statement (st : t) (module_name : string)
    (selected_symbols : option (list string)) (import_all : bool)
  : result t :=
  match use_body st module_name selected_symbols import_all with
  | Ok st' => Ok st'
  | Raise e => Raise (NoxyError ("Erro ao processar import: " +:+ exn_str e))
  | OutOfFuel => OutOfFuel
  end.

(** [NoxyCompiler._process_imports] *)
Fixpoint _process_imports (st : t) (statements : list node) : result t :=
  match statements with
  | [] => Ok st
  | UseNode module_name selected_symbols import_all :: rest =>
      st ← _handle_use_statement st module_name selected_symbols import_all;
      _process_imports st rest
  | _ :: rest => _process_imports st rest
  end.
End Files.
End Collect.

End Resolver.

(* ===================================================================== *)
(** * The llvmlite IR the generator emits                                  *)
(* ===================================================================== *)

Module ir.

(** [llvmlite.ir] types. *)
Inductive type : Type :=
| IntType (width : Z)
| DoubleType
| VoidType
| PointerType (pointee : type)
| ArrayType (element : type) (count : Z)
| LiteralStructType (elements : list type).

(** [t.as_pointer()] *)
Definition as_pointer (t : type) : type := PointerType t.

(** Equality of types ([==] on llvmlite types is structural). *)
Fixpoint type_eqb (a b : type) : bool :=
  match a, b with
  | IntType w1, IntType w2 => (w1 =? w2)%Z
  | DoubleType, DoubleType => true
  | VoidType, VoidType => true
  | PointerType p1, PointerType p2 => type_eqb p1 p2
  | ArrayType e1 c1, ArrayType e2 c2 => type_eqb e1 e2 && (c1 =? c2)%Z
  | LiteralStructType l1, LiteralStructType l2 =>
      (fix all2 (l1 l2 : list type) : bool :=
         match l1, l2 with
         | [], [] => true
         | x :: xs, y :: ys => type_eqb x y && all2 xs ys
         | _, _ => false
         end) l1 l2
  | _, _ => false
  end.

Definition is_pointer (t : type) : bool :=
  match t with PointerType _ => true | _ => false end.

Definition is_int (t : type) : bool :=
  match t with IntType _ => true | _ => false end.

Definition is_double (t : type) : bool :=
  match t with DoubleType => true | _ => false end.

(** The payload of [ir.Constant(type, payload)]. *)
Inductive constant : Type :=
| CInt (n : Z)
| CFloat (numeral : string)
| CNone
| CBytes (bytes : list ascii).

(** [llvmlite.ir] values: constants, the results of instructions
    (named by a number; [AllocaInstr] is the result of an [alloca]),
    module globals and function arguments.
    [PyNone] is Python's [None], what a lowering returns when none of
    its branches applies. *)
Inductive value : Type :=
| Constant (ty : type) (c : constant)
| Register (ty : type) (id : nat)
| AllocaInstr (ty : type) (id : nat)
| GlobalVariable (ty : type) (name : string)
| Argument (ty : type) (index : nat)
| PyNone.

(** [v.type] *)
Definition type_of (v : value) : type :=
  match v with
  | Constant ty _ | Register ty _ | AllocaInstr ty _ | GlobalVariable ty _
  | Argument ty _ => ty
  | PyNone => VoidType
  end.

(** [isinstance(v, ir.Constant) and v.constant is None] *)
Definition is_null_constant (v : value) : bool :=
  match v with
  | Constant _ CNone => true
  | _ => false
  end.

(** An [ir.Function] of the module. *)
Record func : Type := mkfunc {
  fname : string;
  return_type : type;
  arg_types : list type;
  var_arg : bool
}.

Inductive opcode : Type :=
| add | sub | mul | sdiv | srem
| fadd | fsub | fmul | fdiv
| and_ | or_.

Inductive cmpop : Type :=
| cmp_gt | cmp_lt | cmp_ge | cmp_le | cmp_eq | cmp_ne.

(** The builder method a comparison comes from: [icmp_signed],
    [icmp_unsigned], or [icmp_ne] (which fixes the predicate). *)
Inductive icmp_kind : Type := signed | unsigned | plain.

Inductive instruction : Type :=
| load (dst : nat) (ptr : value)
| store (val ptr : value)
| alloca (dst : nat) (ty : type) (name : string)
| gep (dst : nat) (ptr : value) (indices : list value) (inbounds : bool)
| call (dst : nat) (fn : func) (args : list value)
| binop (dst : nat) (op : opcode) (lhs rhs : value)
| icmp (dst : nat) (kind : icmp_kind) (op : cmpop) (lhs rhs : value)
| fcmp_ordered (dst : nat) (op : cmpop) (lhs rhs : value)
| not_ (dst : nat) (operand : value)
| sitofp (dst : nat) (operand : value) (ty : type)
| fptosi (dst : nat) (operand : value) (ty : type)
| sext (dst : nat) (operand : value) (ty : type)
| bitcast (dst : nat) (operand : value) (ty : type)
| branch (target : string)
| cbranch (cond : value) (truebr falsebr : string)
| ret (val : value).

Definition is_terminator (i : instruction) : bool :=
  match i with
  | branch _ | cbranch _ _ _ | ret _ => true
  | _ => false
  end.

(** The basic types of the generator ([self.int_type], ...). *)
Definition int_type : type := IntType 64.
Definition float_type : type := DoubleType.
Definition char_type : type := IntType 8.
Definition string_type : type := PointerType (IntType 8).
Definition void_type : type := VoidType.
Definition bool_type : type := IntType 1.

(** The external functions [_declare_external_functions] declares
    (outside Windows), in the order of their declaration. *)
Definition voidptr_ty : type := PointerType (IntType 8).
Definition printf : func := mkfunc "printf" (IntType 32) [voidptr_ty] true.
Definition malloc : func := mkfunc "malloc" voidptr_ty [IntType 64] false.
Definition free : func := mkfunc "free" void_type [voidptr_ty] false.
Definition strlen : func := mkfunc "strlen" (IntType 64) [voidptr_ty] false.
Definition strcpy : func := mkfunc "strcpy" voidptr_ty [voidptr_ty; voidptr_ty] false.
Definition strcat : func := mkfunc "strcat" voidptr_ty [voidptr_ty; voidptr_ty] false.
Definition strcmp : func := mkfunc "strcmp" (IntType 32) [voidptr_ty; voidptr_ty] false.
Definition sprintf : func := mkfunc "sprintf" (IntType 32) [voidptr_ty; voidptr_ty] true.
Definition to_str_int : func := mkfunc "to_str_int" string_type [int_type] false.
Definition to_str_float : func := mkfunc "to_str_float" string_type [float_type] false.
Definition array_to_str_int : func :=
  mkfunc "array_to_str_int" string_type [as_pointer int_type; int_type] false.
Definition array_to_str_float : func :=
  mkfunc "array_to_str_float" string_type [as_pointer float_type; int_type] false.
Definition to_int : func := mkfunc "to_int" int_type [float_type] false.
Definition to_float : func := mkfunc "to_float" float_type [int_type] false.
Definition char_to_str : func := mkfunc "char_to_str" string_type [char_type] false.
Definition fmod : func := mkfunc "fmod" float_type [float_type; float_type] false.
Definition setconsolecp : func :=
  mkfunc "SetConsoleOutputCP" (IntType 32) [IntType 32] false.

Definition external_functions : list func :=
  [ printf; malloc; free; strlen; strcpy; strcat; strcmp; sprintf; to_str_int;
    to_str_float; array_to_str_int; array_to_str_float; to_int; to_float;
    char_to_str; fmod ].

End ir.

(* ===================================================================== *)
(** * Code generator: the struct table                                     *)
(* ===================================================================== *)

Module Structs.
Import Ast.

(** A [StructDefinitionNode]. *)
Record StructDef : Type := mkdef {
  name : string;
  fields : list (string * Ty)
}.

(** One assignment [self.struct_types[name] = ...]: by
    [_process_struct_definition], by
    [_process_struct_with_placeholders], or the empty forward
    declaration of a struct that is not in the table yet. *)
Inductive insertion : Type :=
| Defined (d : StructDef)
| Placeholder (d : StructDef)
| Opaque (struct_name : string).

(** The struct tables of the generator.  [struct_log] is ghost state:
    the assignments to [struct_types] in the order they happen. *)
Record t : Type := mk {
  struct_types : gmap string ir.type;
  struct_fields : gmap string (list (string * nat));
  struct_field_types : gmap string (list (string * Ty));
  struct_auto_references : gmap string (list (nat * string));
  struct_log : list insertion
}.

Definition empty : t := mk ∅ ∅ ∅ ∅ [].

Definition set_struct_type (st : t) (struct_name : string) (ty : ir.type)
    (event : insertion) : t :=
  mk (<[struct_name := ty]> (struct_types st)) (struct_fields st)
     (struct_field_types st) (struct_auto_references st)
     (struct_log st ++ [event]).

Definition opaque_type : ir.type := ir.LiteralStructType [].

(** [LLVMCodeGenerator._convert_type] on a type. *)
Fixpoint _convert_type (st : t) (ml_type : Ty) : result (ir.type * t) :=
  match ml_type with
  | IntType => Ok (ir.int_type, st)
  | FloatType => Ok (ir.float_type, st)
  | StringType | StrType => Ok (ir.string_type, st)
  | BoolType => Ok (ir.bool_type, st)
  | ArrayType element_type (Some size) =>
      match element_type with
      | StructType struct_name _ =>
          match struct_types st !! struct_name with
          | Some struct_type => Ok (ir.ArrayType struct_type size, st)
          | None =>
              Ok (ir.ArrayType opaque_type size,
                  set_struct_type st struct_name opaque_type (Opaque struct_name))
          end
      | _ =>
          '(element_type, st) ← _convert_type st element_type;
          Ok (ir.ArrayType element_type size, st)
      end
  | ArrayType element_type None =>
      '(element_type, st) ← _convert_type st element_type;
      Ok (ir.as_pointer element_type, st)
  | VoidType => Ok (ir.void_type, st)
  | ReferenceType target_type _ =>
      match target_type with
      | StructType struct_name _ =>
          match struct_types st !! struct_name with
          | Some struct_type => Ok (ir.as_pointer struct_type, st)
          | None =>
              Ok (ir.as_pointer opaque_type,
                  set_struct_type st struct_name opaque_type (Opaque struct_name))
          end
      | _ =>
          '(target_type, st) ← _convert_type st target_type;
          Ok (ir.as_pointer target_type, st)
      end
  | StructType struct_name _ =>
      match struct_types st !! struct_name with
      | Some struct_type => Ok (ir.as_pointer struct_type, st)
      | None => Raise (TypeError ("Struct '" +:+ struct_name +:+ "' nao foi registrado"))
      end
  | FunctionType _ _ | NullType => Raise (TypeError "Tipo nao suportado")
  end.

(** [_convert_type] on an optional type: [None] is no supported type. *)
Definition _convert_type_opt (st : t) (ml_type : option Ty) : result (ir.type * t) :=
  match ml_type with
  | Some ty => _convert_type st ty
  | None => Raise (TypeError "Tipo nao suportado: None")
  end.

(** [{field_name: i for i, (field_name, _) in enumerate(fields)}] *)
Definition field_indices (fields : list (string * Ty)) : list (string * nat) :=
  imap (fun i field => (fst field, i)) fields.

Definition is_auto_reference (struct_name : string) (field_type : Ty) : bool :=
  match field_type with
  | ReferenceType (StructType target _) _ => String.eqb target struct_name
  | _ => false
  end.

Definition auto_references (d : StructDef) : list (nat * string) :=
  omap (fun '(i, (field_name, field_type)) =>
          if is_auto_reference (name d) field_type then Some (i, field_name) else None)
       (imap (fun i field => (i, field)) (fields d)).

(** The loop over the fields in [_process_struct_definition]. *)
Fixpoint definition_field_types (st : t) (fields : list (string * Ty))
  : result (list ir.type * t) :=
  match fields with
  | [] => Ok ([], st)
  | (_, field_type) :: rest =>
      '(llvm_type, st) ←
        match field_type with
        | ReferenceType (StructType _ _) _ => Ok (ir.as_pointer (ir.IntType 8), st)
        | StructType struct_name _ =>
            match struct_types st !! struct_name with
            | Some struct_type => Ok (struct_type, st)
            | None =>
                Ok (opaque_type,
                    set_struct_type st struct_name opaque_type (Opaque struct_name))
            end
        | _ => _convert_type st field_type
        end;
      '(field_types, st) ← definition_field_types st rest;
      Ok (llvm_type :: field_types, st)
  end.

Definition store_metadata (st : t) (d : StructDef) (auto : list (nat * string)) : t :=
  mk (struct_types st)
     (<[name d := field_indices (fields d)]> (struct_fields st))
     (<[name d := fields d]> (struct_field_types st))
     (match auto with
      | [] => struct_auto_references st
      | _ => <[name d := auto]> (struct_auto_references st)
      end)
     (struct_log st).

(** [LLVMCodeGenerator._process_struct_definition] *)
Definition _process_struct_definition (st : t) (d : StructDef) : result t :=
  '(field_types, st) ← definition_field_types st (fields d);
  let st := set_struct_type st (name d) (ir.LiteralStructType field_types) (Defined d) in
  Ok (store_metadata st d (auto_references d)).



(** [LLVMCodeGenerator._get_struct_dependencies] *)
Fixpoint _get_struct_dependencies (fields : list (string * Ty)) : gset string :=
  match fields with
  | [] => ∅
  | (_, StructType struct_name _) :: rest =>
      {[ struct_name ]} ∪ _get_struct_dependencies rest
  | _ :: rest => _get_struct_dependencies rest
  end.

(** [next((s for s in struct_definitions if s.name == dep_name), None)] *)
Definition find_struct (struct_definitions : list StructDef) (dep_name : string)
  : option StructDef :=
  List.find (fun s => String.eqb (name s) dep_name) struct_definitions.

(** The local state of [_process_structs_in_dependency_order]: the
    generator's tables and the sets [processed] and [processing]. *)
Record walk : Type := mkwalk {
  tables : t;
  processed : gset string;
  processing : gset string
}.

Section Order.
Context {SI : SetIteration}.
Variable struct_definitions : list StructDef.



End Order.

End Structs.

(* ===================================================================== *)
(** * Code generator: declaration of globals and functions                 *)
(* ===================================================================== *)

Module Decl.
Import Ast.

(** The part of the generator the declaration pass works on: the
    struct tables, the names registered in the LLVM module,
    [global_vars], [functions] and [type_map]. *)
Record t : Type := mk {
  tables : Structs.t;
  module_names : list string;
  global_vars : gmap string ir.value;
  functions : gmap string ir.func;
  type_map : gmap string Ty
}.

(** The generator after [__init__]: the module holds the external
    functions and [functions] the built-in names. *)
Definition init (tbl : Structs.t) : t :=
  mk tbl (ir.fname <$> ir.external_functions) ∅
     (list_to_map
        [ ("strlen", ir.strlen); ("strcpy", ir.strcpy); ("strcat", ir.strcat);
          ("strcmp", ir.strcmp); ("malloc", ir.malloc); ("free", ir.free);
          ("to_str", ir.to_str_int); ("array_to_str", ir.array_to_str_int);
          ("to_int", ir.to_int); ("to_float", ir.to_float);
          ("char_to_str", ir.char_to_str); ("printf", ir.printf) ])
     ∅.

(** [type(a) == type(b)] on two [Type] objects. *)
Definition same_class (a b : Ty) : bool :=
  match a, b with
  | IntType, IntType | FloatType, FloatType | StringType, StringType
  | StrType, StrType | ArrayType _ _, ArrayType _ _ | VoidType, VoidType
  | FunctionType _ _, FunctionType _ _ | BoolType, BoolType
  | NullType, NullType | StructType _ _, StructType _ _
  | ReferenceType _ _, ReferenceType _ _ => true
  | _, _ => false
  end.

(** The registration of a global name in the module: llvmlite refuses
    a name that is in use. *)
Definition register (st : t) (name : string) : result t :=
  if decide (name ∈ module_names st) then Raise (DuplicatedNameError name)
  else Ok (mk (tables st) (module_names st ++ [name]) (global_vars st)
              (functions st) (type_map st)).

Definition redeclaration_error (identifier : string) : exn :=
  TypeError ("Redeclaracao de global '" +:+ identifier +:+ "' com tipo diferente").

(** [LLVMCodeGenerator._declare_global_variable] on the attributes of
    an [AssignmentNode]. *)
Definition _declare_global_variable (st : t) (identifier : string)
    (var_type : option Ty) : result t :=
  if decide (identifier ∈ dom (global_vars st)) then
    let existing_type := type_map st !! identifier in
    match var_type, existing_type with
    | Some var_type, Some existing_type =>
        if negb (same_class existing_type var_type)
        then Raise (redeclaration_error identifier)
        else Ok st
    | Some var_type, None =>
        Ok (mk (tables st) (module_names st) (global_vars st) (functions st)
               (<[identifier := var_type]> (type_map st)))
    | None, _ => Ok st
    end
  else
    '(ll_type, tbl) ← Structs._convert_type_opt (tables st) var_type;
    '(gv_type, tbl) ←
      match var_type with
      | Some (ArrayType element_type size) =>
          '(element_lltype, tbl) ← Structs._convert_type tbl element_type;
          Ok (ir.ArrayType element_lltype (default 0%Z size), tbl)
      | _ => Ok (ll_type, tbl)
      end;
    st ← register (mk tbl (module_names st) (global_vars st) (functions st)
                     (type_map st)) identifier;
    let gv := ir.GlobalVariable (ir.as_pointer gv_type) identifier in
    Ok (mk (tables st) (module_names st)
           (<[identifier := gv]> (global_vars st)) (functions st)
           (match var_type with
            | Some var_type => <[identifier := var_type]> (type_map st)
            | None => type_map st
            end)).

(** The lowering of a parameter or return type in
    [_declare_function]. *)
Definition signature_type (tbl : Structs.t) (ty : Ty)
  : result (ir.type * Structs.t) :=
  match ty with
  | ReferenceType (StructType struct_name _) _ =>
      match Structs.struct_types tbl !! struct_name with
      | Some struct_type => Ok (ir.as_pointer struct_type, tbl)
      | None => Ok (ir.as_pointer (ir.IntType 8), tbl)
      end
  | _ => Structs._convert_type tbl ty
  end.

Fixpoint signature_types (tbl : Structs.t) (params : list (string * Ty))
  : result (list ir.type * Structs.t) :=
  match params with
  | [] => Ok ([], tbl)
  | (_, param_type) :: rest =>
      '(ty, tbl) ← signature_type tbl param_type;
      '(tys, tbl) ← signature_types tbl rest;
      Ok (ty :: tys, tbl)
  end.

(** [LLVMCodeGenerator._declare_function] *)
Definition _declare_function (st : t) (name : string)
    (params : list (string * Ty)) (return_type : Ty) : result t :=
  '(param_types, tbl) ← signature_types (tables st) params;
  '(ll_return, tbl) ← signature_type tbl return_type;
  st ← register (mk tbl (module_names st) (global_vars st) (functions st)
                   (type_map st)) name;
  Ok (mk (tables st) (module_names st) (global_vars st)
         (<[name := ir.mkfunc name ll_return param_types false]> (functions st))
         (<[name := FunctionType (snd <$> params) return_type]> (type_map st))).

(** The first declaration loop of [generate], with its set
    [declared_globals]. *)
Fixpoint declare_statements (st : t) (declared_globals : gset string)
    (statements : list node) : result t :=
  match statements with
  | [] => Ok st
  | AssignmentNode identifier var_type _ true :: rest =>
      if decide (identifier ∈ declared_globals) then
        declare_statements st declared_globals rest
      else
        st ← _declare_global_variable st identifier var_type;
        declare_statements st ({[ identifier ]} ∪ declared_globals) rest
  | FunctionNode name params return_type _ :: rest =>
      st ← _declare_function st name params return_type;
      declare_statements st declared_globals rest
  | _ :: rest => declare_statements st declared_globals rest
  end.

(** The declaration of the globals and functions of a program, from
    the generator as [__init__] and the struct pass leave it. *)
Definition declare_program (tbl : Structs.t) (statements : list node) : result t :=
  declare_statements (init tbl) ∅ statements.

End Decl.

(* ===================================================================== *)
(** * Code generator: the IR builder and the lowerings                     *)
(* ===================================================================== *)

Module Emit.
Import Ast.

(** A global of the module: a declared function or a global variable
    with its initializer. *)
Inductive global_def : Type :=
| FunctionDecl (f : ir.func)
| VariableDef (name : string) (value_type : ir.type) (initializer : ir.constant).

Definition global_name (g : global_def) : string :=
  match g with
  | FunctionDecl f => ir.fname f
  | VariableDef name _ _ => name
  end.

(** The part of the generator the lowerings work on: the globals of
    the module, the basic blocks of the function being built, the
    block the builder is positioned at, the next instruction number,
    and the fields of the memory tracking. *)
Record t : Type := mk {
  module_globals : list global_def;
  blocks : list (string * list ir.instruction);
  block : string;
  next_id : nat;
  current_function : option string;
  allocation_array : option ir.value;
  allocation_count : option ir.value;
  allocated_ptrs : list ir.value
}.

Definition with_globals (e : t) (g : list global_def) : t :=
  mk g (blocks e) (block e) (next_id e) (current_function e)
     (allocation_array e) (allocation_count e) (allocated_ptrs e).

Definition with_blocks (e : t) (b : list (string * list ir.instruction)) : t :=
  mk (module_globals e) b (block e) (next_id e) (current_function e)
     (allocation_array e) (allocation_count e) (allocated_ptrs e).

Definition with_block (e : t) (label : string) : t :=
  mk (module_globals e) (blocks e) label (next_id e) (current_function e)
     (allocation_array e) (allocation_count e) (allocated_ptrs e).

Definition with_next_id (e : t) (n : nat) : t :=
  mk (module_globals e) (blocks e) (block e) n (current_function e)
     (allocation_array e) (allocation_count e) (allocated_ptrs e).

Definition with_tracking (e : t) (array count : option ir.value)
    (ptrs : list ir.value) : t :=
  mk (module_globals e) (blocks e) (block e) (next_id e) (current_function e)
     array count ptrs.

(** The instructions of a block. *)
Fixpoint block_code (blocks : list (string * list ir.instruction)) (label : string)
  : list ir.instruction :=
  match blocks with
  | [] => []
  | (l, code) :: rest => if String.eqb l label then code else block_code rest label
  end.

Fixpoint append_to (blocks : list (string * list ir.instruction)) (label : string)
    (i : ir.instruction) : list (string * list ir.instruction) :=
  match blocks with
  | [] => [(label, [i])]
  | (l, code) :: rest =>
      if String.eqb l label then (l, code ++ [i]) :: rest
      else (l, code) :: append_to rest label i
  end.

(** The instructions of the block the builder is positioned at. *)
Definition current_code (e : t) : list ir.instruction :=
  block_code (blocks e) (block e).

(** The builder appends an instruction to its block. *)
Definition emit (e : t) (i : ir.instruction) : t :=
  with_blocks e (append_to (blocks e) (block e) i).

(** The builder appends an instruction that defines a value. *)
Definition emit_value (e : t) (ty : ir.type) (i : nat -> ir.instruction)
  : ir.value * t :=
  (ir.Register ty (next_id e), with_next_id (emit e (i (next_id e))) (S (next_id e))).

(** [builder.block.is_terminated] *)
Definition is_terminated (e : t) : bool :=
  match last (current_code e) with
  | Some i => ir.is_terminator i
  | None => false
  end.

(** ** Builder methods, with the checks llvmlite makes *)

Definition builder_load (e : t) (ptr : ir.value) : result (ir.value * t) :=
  match ir.type_of ptr with
  | ir.PointerType pointee => Ok (emit_value e pointee (fun dst => ir.load dst ptr))
  | _ => Raise (TypeError "cannot load from value: not a pointer")
  end.

Definition builder_store (e : t) (value ptr : ir.value) : result t :=
  match ir.type_of ptr with
  | ir.PointerType pointee =>
      if ir.type_eqb pointee (ir.type_of value) then Ok (emit e (ir.store value ptr))
      else Raise (TypeError "cannot store: mismatching types")
  | _ => Raise (TypeError "cannot store to value: not a pointer")
  end.

Definition builder_alloca (e : t) (ty : ir.type) (name : string) : ir.value * t :=
  (ir.AllocaInstr (ir.as_pointer ty) (next_id e),
   with_next_id (emit e (ir.alloca (next_id e) ty name)) (S (next_id e))).

(** The type a [gep] index steps into. *)
Definition gep_step (ty : ir.type) (index : ir.value) : option ir.type :=
  match ty with
  | ir.PointerType pointee => Some pointee
  | ir.ArrayType element _ => Some element
  | ir.LiteralStructType elements =>
      match index with
      | ir.Constant _ (ir.CInt n) => elements !! Z.to_nat n
      | _ => None
      end
  | _ => None
  end.

Fixpoint gep_type (ty : ir.type) (indices : list ir.value) : option ir.type :=
  match indices with
  | [] => Some ty
  | index :: rest =>
      match gep_step ty index with
      | Some ty' => gep_type ty' rest
      | None => None
      end
  end.

Definition builder_gep (e : t) (ptr : ir.value) (indices : list ir.value)
    (inbounds : bool) : result (ir.value * t) :=
  match gep_type (ir.type_of ptr) indices with
  | Some ty =>
      Ok (emit_value e (ir.as_pointer ty) (fun dst => ir.gep dst ptr indices inbounds))
  | None => Raise (TypeError "cannot index into this type")
  end.

Fixpoint args_match (arg_types : list ir.type) (args : list ir.value)
    (var_arg : bool) : bool :=
  match arg_types, args with
  | [], [] => true
  | [], _ :: _ => var_arg
  | ty :: tys, a :: rest => ir.type_eqb ty (ir.type_of a) && args_match tys rest var_arg
  | _ :: _, [] => false
  end.

Definition builder_call (e : t) (fn : ir.func) (args : list ir.value)
  : result (ir.value * t) :=
  if args_match (ir.arg_types fn) args (ir.var_arg fn)
  then Ok (emit_value e (ir.return_type fn) (fun dst => ir.call dst fn args))
  else Raise (TypeError "Type of argument does not match function type").

Definition builder_binop (e : t) (op : ir.opcode) (lhs rhs : ir.value)
  : result (ir.value * t) :=
  if ir.type_eqb (ir.type_of lhs) (ir.type_of rhs)
  then Ok (emit_value e (ir.type_of lhs) (fun dst => ir.binop dst op lhs rhs))
  else Raise (ValueError "Operands must be the same type").

Definition builder_icmp (e : t) (kind : ir.icmp_kind) (op : ir.cmpop)
    (lhs rhs : ir.value) : ir.value * t :=
  emit_value e (ir.IntType 1) (fun dst => ir.icmp dst kind op lhs rhs).

(** [builder.icmp_ne(lhs, rhs)] *)
Definition builder_icmp_ne (e : t) (lhs rhs : ir.value) : ir.value * t :=
  builder_icmp e ir.plain ir.cmp_ne lhs rhs.

Definition builder_fcmp_ordered (e : t) (op : ir.cmpop) (lhs rhs : ir.value)
  : ir.value * t :=
  emit_value e (ir.IntType 1) (fun dst => ir.fcmp_ordered dst op lhs rhs).

Definition builder_not (e : t) (operand : ir.value) : ir.value * t :=
  emit_value e (ir.type_of operand) (fun dst => ir.not_ dst operand).

(** The cast methods return their operand when it has the type
    asked for. *)
Definition builder_cast (e : t) (op : nat -> ir.value -> ir.type -> ir.instruction)
    (operand : ir.value) (ty : ir.type) : ir.value * t :=
  if ir.type_eqb (ir.type_of operand) ty then (operand, e)
  else emit_value e ty (fun dst => op dst operand ty).

Definition builder_sitofp (e : t) := builder_cast e ir.sitofp.
Definition builder_fptosi (e : t) := builder_cast e ir.fptosi.
Definition builder_bitcast (e : t) := builder_cast e ir.bitcast.

Definition label_used (e : t) (label : string) : bool :=
  existsb (fun b => String.eqb (fst b) label) (blocks e).

(** The first unused name among [name], [name.1], [name.2], ... *)
Fixpoint dedup_label (e : t) (name : string) (fuel ident : nat) : string :=
  let candidate := name +:+ "." +:+ pretty ident in
  match fuel with
  | O => candidate
  | S fuel' =>
      if label_used e candidate then dedup_label e name fuel' (S ident) else candidate
  end.

(** [function.append_basic_block(name)] *)
Definition append_basic_block (e : t) (name : string) : string * t :=
  let label := if label_used e name
               then dedup_label e name (length (blocks e)) 1
               else name in
  (label, with_blocks e (blocks e ++ [(label, [])])).

(** [builder.position_at_end(block)] *)
Definition position_at_end (e : t) (label : string) : t := with_block e label.

(** [ir.GlobalVariable(module, ty, name)] with its initializer. *)
Definition add_global (e : t) (name : string) (ty : ir.type) (init : ir.constant)
  : result (ir.value * t) :=
  if existsb (fun g => String.eqb (global_name g) name) (module_globals e)
  then Raise (DuplicatedNameError name)
  else Ok (ir.GlobalVariable (ir.as_pointer ty) name,
           with_globals e (module_globals e ++ [VariableDef name ty init])).

(** ** Memory tracking *)

Definition zero64 : ir.value := ir.Constant ir.int_type (ir.CInt 0).
Definition one64 : ir.value := ir.Constant ir.int_type (ir.CInt 1).
Definition zero32 : ir.value := ir.Constant (ir.IntType 32) (ir.CInt 0).

(** [LLVMCodeGenerator._track_allocation] *)
Definition _track_allocation (e : t) (ptr_value : ir.value) : result t :=
  match ptr_value with
  | ir.PyNone => Ok e
  | _ =>
      match current_function e, allocation_array e with
      | Some _, Some array =>
          match allocation_count e with
          | Some count =>
              '(count_ptr, e) ← builder_load e count;
              '(array_elem_ptr, e) ← builder_gep e array [zero64; count_ptr] true;
              e ← builder_store e ptr_value array_elem_ptr;
              '(new_count, e) ← builder_binop e ir.add count_ptr one64;
              builder_store e new_count count
          | None => Raise (AttributeError "'NoneType' object has no attribute 'type'")
          end
      | _, _ =>
          Ok (with_tracking e (allocation_array e) (allocation_count e)
                (allocated_ptrs e ++ [ptr_value]))
      end
  end.

(** The fallback loop of [_add_memory_cleanup] over [allocated_ptrs]. *)
Fixpoint free_allocated (e : t) (ptrs : list ir.value) : result t :=
  match ptrs with
  | [] => Ok e
  | ptr :: rest =>
      e ← (if ir.is_pointer (ir.type_of ptr) then
             match ptr with
             | ir.AllocaInstr _ _ =>
                 '(loaded_ptr, e) ← builder_load e ptr;
                 '(_, e) ← builder_call e ir.free [loaded_ptr];
                 Ok e
             | _ =>
                 '(_, e) ← builder_call e ir.free [ptr];
                 Ok e
             end
           else Ok e);
      free_allocated e rest
  end.

(** [LLVMCodeGenerator._add_memory_cleanup] *)
Definition _add_memory_cleanup (e : t) : result t :=
  match allocation_array e with
  | Some array =>
      match allocation_count e with
      | Some count =>
          '(count_ptr, e) ← builder_load e count;
          let '(i_ptr, e) := builder_alloca e ir.int_type "cleanup_i" in
          e ← builder_store e zero64 i_ptr;
          let '(cond_block, e) := append_basic_block e "cleanup_cond" in
          let '(body_block, e) := append_basic_block e "cleanup_body" in
          let '(end_block, e) := append_basic_block e "cleanup_end" in
          let e := emit e (ir.branch cond_block) in
          let e := position_at_end e cond_block in
          '(i_val, e) ← builder_load e i_ptr;
          let '(condition, e) := builder_icmp e ir.signed ir.cmp_lt i_val count_ptr in
          let e := emit e (ir.cbranch condition body_block end_block) in
          let e := position_at_end e body_block in
          '(array_elem_ptr, e) ← builder_gep e array [zero64; i_val] true;
          '(ptr_to_free, e) ← builder_load e array_elem_ptr;
          '(_, e) ← builder_call e ir.free [ptr_to_free];
          '(new_i, e) ← builder_binop e ir.add i_val one64;
          e ← builder_store e new_i i_ptr;
          let e := emit e (ir.branch cond_block) in
          let e := position_at_end e end_block in
          Ok (with_tracking e None None (allocated_ptrs e))
      | None => Raise (AttributeError "'NoneType' object has no attribute 'type'")
      end
  | None =>
      e ← free_allocated e (allocated_ptrs e);
      Ok (with_tracking e (allocation_array e) (allocation_count e) [])
  end.

End Emit.

Module Lower.
Import Ast Emit.

Definition none_type_error : exn :=
  AttributeError "'NoneType' object has no attribute 'type'".

(** [s.encode('utf8')] for code points below 256. *)
Fixpoint utf8 (s : string) : list ascii :=
  match s with
  | EmptyString => []
  | String c rest =>
      let n := nat_of_ascii c in
      if (n <? 128)%nat then c :: utf8 rest
      else ascii_of_nat (192 + n / 64) :: ascii_of_nat (128 + n mod 64) :: utf8 rest
  end.

(** A private constant array of bytes, returned as a pointer to its
    first byte. *)
Definition string_constant (e : t) (prefix : string) (text : string)
  : result (ir.value * t) :=
  let bytes := utf8 text ++ [Char.nul] in
  let ty := ir.ArrayType ir.char_type (Z.of_nat (length bytes)) in
  let name := prefix +:+ pretty (length (module_globals e)) in
  '(global, e) ← add_global e name ty (ir.CBytes bytes);
  builder_gep e global [zero32; zero32] true.

(** [(isinstance(t, PointerType) and t.pointee == char_type) or
    t == string_type] *)
Definition is_string (v : ir.value) : bool :=
  ir.type_eqb (ir.type_of v) ir.string_type.

(** Non-boolean operands become [icmp_ne(v, 0)]. *)
Definition truthify (e : t) (v : ir.value) : ir.value * t :=
  if ir.type_eqb (ir.type_of v) ir.bool_type then (v, e)
  else builder_icmp_ne e v (ir.Constant (ir.type_of v) (ir.CInt 0)).

(** The concatenation of two strings: the code shared by the [+] of
    [BinaryOpNode] and by [ConcatNode]. *)
Definition concat_strings (e : t) (lhs rhs : ir.value) : result (ir.value * t) :=
  '(len1, e) ← builder_call e ir.strlen [lhs];
  '(len2, e) ← builder_call e ir.strlen [rhs];
  '(total_len, e) ← builder_binop e ir.add len1 len2;
  '(total_len, e) ← builder_binop e ir.add total_len one64;
  '(result, e) ← builder_call e ir.malloc [total_len];
  e ← _track_allocation e result;
  '(_, e) ← builder_call e ir.strcpy [result; lhs];
  '(_, e) ← builder_call e ir.strcat [result; rhs];
  Ok (result, e).

Definition arith (e : t) (is_float_op : bool) (fop iop : ir.opcode)
    (lhs rhs : ir.value) : result (ir.value * t) :=
  builder_binop e (if is_float_op then fop else iop) lhs rhs.

Definition compare (e : t) (is_float_op : bool) (op : ir.cmpop)
    (lhs rhs : ir.value) : result (ir.value * t) :=
  if is_float_op then Ok (builder_fcmp_ordered e op lhs rhs)
  else Ok (builder_icmp e ir.signed op lhs rhs).

(** The branch of [_generate_expression] for [==] and [!=]. *)
Definition equality (e : t) (is_float_op : bool) (op : ir.cmpop)
    (lhs rhs : ir.value) : result (ir.value * t) :=
  if (ir.is_pointer (ir.type_of lhs) && ir.is_null_constant rhs)
     || (ir.is_pointer (ir.type_of rhs) && ir.is_null_constant lhs)
  then Ok (builder_icmp e ir.signed op lhs rhs)
  else
    let left_is_string := is_string lhs in
    let right_is_string := is_string rhs in
    if left_is_string && right_is_string then
      '(cmp_result, e) ← builder_call e ir.strcmp [lhs; rhs];
      Ok (builder_icmp e ir.signed op cmp_result zero32)
    else
      '(lhs, e) ← (if left_is_string && negb right_is_string
                   then builder_load e lhs else Ok (lhs, e));
      '(rhs, e) ← (if right_is_string && negb left_is_string
                   then builder_load e rhs else Ok (rhs, e));
      if ir.type_eqb (ir.type_of lhs) ir.char_type
         && ir.type_eqb (ir.type_of rhs) ir.char_type
      then Ok (builder_icmp e ir.unsigned op lhs rhs)
      else if is_float_op then Ok (builder_fcmp_ordered e op lhs rhs)
      else
        match op with
        | ir.cmp_eq =>
            if ir.type_eqb (ir.type_of lhs) ir.bool_type
               || ir.type_eqb (ir.type_of rhs) ir.bool_type
            then
              let '(lhs, e) := truthify e lhs in
              let '(rhs, e) := truthify e rhs in
              Ok (builder_icmp e ir.signed ir.cmp_eq lhs rhs)
            else Ok (builder_icmp e ir.signed ir.cmp_eq lhs rhs)
        | _ => Ok (builder_icmp e ir.signed ir.cmp_ne lhs rhs)
        end.

(** The [BinaryOpNode] branch of [_generate_expression], once both
    operands are lowered. *)
Definition binary_op (e : t) (operator : TokenType) (lhs rhs : ir.value)
  : result (ir.value * t) :=
  match lhs, rhs with
  | ir.PyNone, _ | _, ir.PyNone => Raise none_type_error
  | _, _ =>
      let is_float_op :=
        ir.is_double (ir.type_of lhs) || ir.is_double (ir.type_of rhs) in
      let '(lhs, e) :=
        if is_float_op && ir.is_int (ir.type_of lhs)
        then builder_sitofp e lhs ir.float_type else (lhs, e) in
      let '(rhs, e) :=
        if is_float_op && ir.is_int (ir.type_of rhs)
        then builder_sitofp e rhs ir.float_type else (rhs, e) in
      match operator with
      | PLUS =>
          let left_is_string := is_string lhs in
          let right_is_string := is_string rhs in
          if left_is_string || right_is_string then
            if negb left_is_string || negb right_is_string then
              Raise (TypeError "Operacao + para strings requer que ambos os operandos sejam strings. Use to_str() para converter numeros para string.")
            else concat_strings e lhs rhs
          else arith e is_float_op ir.fadd ir.add lhs rhs
      | MINUS => arith e is_float_op ir.fsub ir.sub lhs rhs
      | MULTIPLY => arith e is_float_op ir.fmul ir.mul lhs rhs
      | DIVIDE => arith e is_float_op ir.fdiv ir.sdiv lhs rhs
      | MODULO =>
          if is_float_op then builder_call e ir.fmod [lhs; rhs]
          else builder_binop e ir.srem lhs rhs
      | GT => compare e is_float_op ir.cmp_gt lhs rhs
      | LT => compare e is_float_op ir.cmp_lt lhs rhs
      | GTE => compare e is_float_op ir.cmp_ge lhs rhs
      | LTE => compare e is_float_op ir.cmp_le lhs rhs
      | EQ => equality e is_float_op ir.cmp_eq lhs rhs
      | NEQ => equality e is_float_op ir.cmp_ne lhs rhs
      | AND =>
          let '(lhs, e) := truthify e lhs in
          let '(rhs, e) := truthify e rhs in
          builder_binop e ir.and_ lhs rhs
      | OR =>
          let '(lhs, e) := truthify e lhs in
          let '(rhs, e) := truthify e rhs in
          builder_binop e ir.or_ lhs rhs
      | _ => Ok (ir.PyNone, e)
      end
  end.

(** The [UnaryOpNode] branch, once the operand is lowered. *)
Definition unary_op (e : t) (operator : TokenType) (operand : ir.value)
  : result (ir.value * t) :=
  match operator with
  | NOT =>
      match operand with
      | ir.PyNone => Raise none_type_error
      | _ =>
          let '(operand, e) := truthify e operand in
          Ok (builder_not e operand)
      end
  | _ => Raise (NotImplementedError "Operador unario nao implementado")
  end.

(** The conversion to a string of a [CastNode]: a buffer of 256
    bytes filled by [sprintf]. *)
Definition cast_to_string (e : t) (expr_value : ir.value) : result (ir.value * t) :=
  '(buffer, e) ← builder_call e ir.malloc [ir.Constant ir.int_type (ir.CInt 256)];
  e ← _track_allocation e buffer;
  match ir.type_of expr_value with
  | ir.IntType _ =>
      '(fmt_ptr, e) ← string_constant e "fmt_itoa_" "%lld";
      '(_, e) ← builder_call e ir.sprintf [buffer; fmt_ptr; expr_value];
      Ok (buffer, e)
  | ir.DoubleType =>
      '(fmt_ptr, e) ← string_constant e "fmt_ftoa_" "%f";
      '(_, e) ← builder_call e ir.sprintf [buffer; fmt_ptr; expr_value];
      Ok (buffer, e)
  | _ => Ok (expr_value, e)
  end.

(** The [CastNode] branch, once the operand is lowered. *)
Definition cast (e : t) (expr_value : ir.value) (target_type : Ty)
  : result (ir.value * t) :=
  match expr_value with
  | ir.PyNone => Raise none_type_error
  | _ =>
      match target_type with
      | IntType =>
          if ir.is_double (ir.type_of expr_value)
          then Ok (builder_fptosi e expr_value ir.int_type)
          else if is_string expr_value
          then Ok (ir.Constant ir.int_type (ir.CInt 0), e)
          else Ok (expr_value, e)
      | FloatType =>
          if ir.is_int (ir.type_of expr_value)
          then Ok (builder_sitofp e expr_value ir.float_type)
          else Ok (expr_value, e)
      | StringType => cast_to_string e expr_value
      | BoolType =>
          if ir.is_int (ir.type_of expr_value) then
            Ok (builder_icmp e ir.signed ir.cmp_ne expr_value
                  (ir.Constant (ir.type_of expr_value) (ir.CInt 0)))
          else if ir.is_double (ir.type_of expr_value) then
            Ok (builder_fcmp_ordered e ir.cmp_ne expr_value
                  (ir.Constant (ir.type_of expr_value) (ir.CFloat "0.0")))
          else Ok (expr_value, e)
      | _ => Ok (ir.PyNone, e)
      end
  end.

(** The loop of [ZerosNode] that writes the zeros. *)
Fixpoint store_zeros (e : t) (typed_ptr zero_val : ir.value) (i : Z) (count : nat)
  : result t :=
  match count with
  | O => Ok e
  | S count' =>
      '(elem_ptr, e) ←
        builder_gep e typed_ptr [ir.Constant ir.int_type (ir.CInt i)] true;
      e ← builder_store e zero_val elem_ptr;
      store_zeros e typed_ptr zero_val (i + 1) count'
  end.

(** The [ZerosNode] branch. *)
Definition zeros (e : t) (size : Z) (element_type : Ty) : result (ir.value * t) :=
  let array_size := ir.Constant ir.int_type (ir.CInt (size * 8)) in
  '(array_ptr, e) ← builder_call e ir.malloc [array_size];
  e ← _track_allocation e array_ptr;
  let '(typed_ptr, zero_val, e) :=
    match element_type with
    | IntType =>
        let '(p, e) := builder_bitcast e array_ptr (ir.as_pointer ir.int_type) in
        (p, zero64, e)
    | _ =>
        let '(p, e) := builder_bitcast e array_ptr (ir.as_pointer ir.float_type) in
        (p, ir.Constant ir.float_type (ir.CFloat "0.0"), e)
    end in
  e ← store_zeros e typed_ptr zero_val 0 (Z.to_nat size);
  Ok (typed_ptr, e).

Section Lowering.
(** The lowering of the node classes that are not modelled in
    detail, and the generation of a function body. *)
Variable lower_other : node -> option ir.type -> t -> result (ir.value * t).
Variable statement_other : node -> t -> result t.
Variable _generate_function : node -> t -> result t.

(** [LLVMCodeGenerator._generate_expression] *)
Fixpoint _generate_expression (n : node) (expected_type : option ir.type) (e : t)
  : result (ir.value * t) :=
  match n with
  | NumberNode value => Ok (ir.Constant ir.int_type (ir.CInt value), e)
  | FloatNode value => Ok (ir.Constant ir.float_type (ir.CFloat value), e)
  | StringNode value => string_constant e "str_" value
  | BooleanNode value =>
      Ok (ir.Constant ir.bool_type (ir.CInt (if value then 1 else 0)), e)
  | NullNode =>
      match expected_type with
      | Some (ir.PointerType pointee) =>
          Ok (ir.Constant (ir.PointerType pointee) ir.CNone, e)
      | Some (ir.IntType width) => Ok (ir.Constant (ir.IntType width) (ir.CInt 0), e)
      | _ => Ok (ir.Constant (ir.as_pointer (ir.IntType 8)) ir.CNone, e)
      end
  | ReferenceNode expression => _generate_expression expression None e
  | ZerosNode size element_type => zeros e size element_type
  | CastNode expression target_type =>
      '(expr_value, e) ← _generate_expression expression None e;
      cast e expr_value target_type
  | ConcatNode lhs rhs =>
      '(left_str, e) ← _generate_expression lhs None e;
      '(right_str, e) ← _generate_expression rhs None e;
      concat_strings e left_str right_str
  | BinaryOpNode lhs operator rhs =>
      '(lhs, e) ← _generate_expression lhs None e;
      '(rhs, e) ← _generate_expression rhs None e;
      binary_op e operator lhs rhs
  | UnaryOpNode operator operand =>
      '(operand, e) ← _generate_expression operand None e;
      unary_op e operator operand
  | _ => lower_other n expected_type e
  end.

(** [LLVMCodeGenerator._generate_statement] *)
Definition _generate_statement (n : node) (e : t) : result t :=
  match n with
  | AssignmentNode _ _ _ _ | ArrayAssignmentNode _ _ _
  | ArrayFieldAssignmentNode _ _ _ _ | PrintNode _ | IfNode _ _ _
  | WhileNode _ _ | ReturnNode _ | BreakNode | StructAssignmentNode _ _ _
  | NestedStructAssignmentNode _ _ _ | StructConstructorNode _ _ =>
      statement_other n e
  | StructDefinitionNode _ _ | UseNode _ _ _ => Ok e
  | _ => '(_, e) ← _generate_expression n None e; Ok e
  end.

Definition is_function (n : node) : bool :=
  match n with FunctionNode _ _ _ _ => true | _ => false end.

Fixpoint generate_statements (statements : list node) (e : t) : result t :=
  match statements with
  | [] => Ok e
  | stmt :: rest =>
      e ← (if is_function stmt then Ok e else _generate_statement stmt e);
      generate_statements rest e
  end.

Fixpoint generate_functions (statements : list node) (e : t) : result t :=
  match statements with
  | [] => Ok e
  | stmt :: rest =>
      e ← (if is_function stmt then _generate_function stmt e else Ok e);
      generate_functions rest e
  end.

Definition main_func : ir.func := ir.mkfunc "main" (ir.IntType 32) [] false.

Definition ledger_type : ir.type :=
  ir.ArrayType (ir.as_pointer ir.char_type) 100.

(** [module.globals[name]] when the name is in use. *)
Definition find_global (e : t) (name : string) : option ir.value :=
  match List.find (fun g => String.eqb (global_name g) name) (module_globals e) with
  | Some (VariableDef _ ty _) => Some (ir.GlobalVariable (ir.as_pointer ty) name)
  | Some (FunctionDecl f) =>
      Some (ir.GlobalVariable (ir.as_pointer ir.void_type) name)
  | None => None
  end.

Definition get_or_add_global (e : t) (name : string) (ty : ir.type)
    (init : ir.constant) : result (ir.value * t) :=
  match find_global e name with
  | Some g => Ok (g, e)
  | None => add_global e name ty init
  end.

(** [LLVMCodeGenerator.generate] from the creation of [main] on,
    for a program without imported symbols: [globals] are the
    globals of the module after the declaration pass. *)
Definition generate_main (win32 : bool) (globals : list global_def)
    (statements : list node) : result t :=
  if existsb (fun g => String.eqb (global_name g) "main") globals
  then Raise (DuplicatedNameError "main")
  else
    let e := mk (globals ++ [FunctionDecl main_func]) [("entry", [])] "entry" 0
                (Some "main") None None [] in
    '(array, e) ← get_or_add_global e "allocation_array" ledger_type ir.CNone;
    '(count, e) ← get_or_add_global e "allocation_count" ir.int_type (ir.CInt 0);
    let e := with_tracking e (Some array) (Some count) (allocated_ptrs e) in
    e ← builder_store e zero64 count;
    e ← (if win32 then
           '(_, e) ← builder_call e ir.setconsolecp
                       [ir.Constant (ir.IntType 32) (ir.CInt 65001)];
           Ok e
         else Ok e);
    e ← generate_statements statements e;
    e ← _add_memory_cleanup e;
    let e := if is_terminated e then e
             else emit e (ir.ret (ir.Constant (ir.IntType 32) (ir.CInt 0))) in
    generate_functions statements e.
End Lowering.

End Lower.

(* ===================================================================== *)
(** * A machine for the emitted code                                       *)
(* ===================================================================== *)

(** The meaning of the instructions the lowerings emit, as far as the
    properties of the allocation ledger and of the string concatenation
    need it: integers and pointers, a memory of objects addressed by
    byte offsets, and the C functions [malloc], [free], [strlen],
    [strcpy] and [strcat].  Floating point and the other external
    functions are outside the machine. *)
Module Machine.

Inductive block : Type :=
| BGlobal (name : string)
| BStack (id : nat)
| BHeap (id : nat).

Global Instance block_eq_dec : EqDecision block.
Proof. solve_decision. Defined.

Definition block_encode (b : block) : string + (nat + nat) :=
  match b with
  | BGlobal name => inl name
  | BStack id => inr (inl id)
  | BHeap id => inr (inr id)
  end.

Definition block_decode (x : string + (nat + nat)) : block :=
  match x with
  | inl name => BGlobal name
  | inr (inl id) => BStack id
  | inr (inr id) => BHeap id
  end.

Lemma block_decode_encode (b : block) : block_decode (block_encode b) = b.
Proof. by destruct b. Qed.

Global Instance block_countable : Countable block :=
  inj_countable' block_encode block_decode block_decode_encode.

Inductive val : Type :=
| VInt (n : Z)
| VDouble (numeral : string)
| VPtr (b : block) (offset : Z)
| VNull
| VUndef.

Global Instance val_eq_dec : EqDecision val.
Proof. solve_decision. Defined.

(** An object of the memory: its size in bytes and the values stored
    in it, by the byte offset they were stored at. *)
Record object : Type := mkobj {
  size : Z;
  cells : gmap Z val
}.

Inductive event : Type :=
| Malloc (size : Z) (id : nat)
| Free (id : nat).

Record state : Type := mkstate {
  regs : gmap nat val;
  mem : gmap block object;
  next_heap : nat;
  trace : list event
}.

(** What running code gives: a result, undefined behaviour, code
    outside the machine, or not enough fuel. *)
Inductive outcome (A : Type) : Type :=
| Done (a : A)
| Undefined (reason : string)
| Unsupported (what : string)
| Timeout.
Arguments Done {A} a.
Arguments Undefined {A} reason.
Arguments Unsupported {A} what.
Arguments Timeout {A}.

Global Instance outcome_bind : MBind outcome := fun A B k m =>
  match m with
  | Done a => k a
  | Undefined r => Undefined r
  | Unsupported w => Unsupported w
  | Timeout => Timeout
  end.

Definition set_reg (s : state) (dst : nat) (v : val) : state :=
  mkstate (<[dst := v]> (regs s)) (mem s) (next_heap s) (trace s).

Definition set_mem (s : state) (m : gmap block object) : state :=
  mkstate (regs s) m (next_heap s) (trace s).

Definition wrap (width n : Z) : Z := (n mod 2 ^ width)%Z.

(** The signed reading of an integer of a width. *)
Definition to_signed (width n : Z) : Z :=
  (if n <? 2 ^ (width - 1) then n else n - 2 ^ width)%Z.

Definition width_of (ty : ir.type) : option Z :=
  match ty with
  | ir.IntType w => Some w
  | _ => None
  end.

Fixpoint sizeof (ty : ir.type) : option Z :=
  match ty with
  | ir.IntType w => Some ((w + 7) / 8)%Z
  | ir.DoubleType => Some 8%Z
  | ir.PointerType _ => Some 8%Z
  | ir.ArrayType element count =>
      match sizeof element with
      | Some k => Some (count * k)%Z
      | None => None
      end
  | ir.VoidType | ir.LiteralStructType _ => None
  end.

Definition eval (s : state) (v : ir.value) : outcome val :=
  match v with
  | ir.Constant (ir.IntType w) (ir.CInt n) => Done (VInt (wrap w n))
  | ir.Constant (ir.IntType w) ir.CNone => Done (VInt 0)
  | ir.Constant (ir.PointerType _) ir.CNone => Done VNull
  | ir.Constant ir.DoubleType (ir.CFloat numeral) => Done (VDouble numeral)
  | ir.Constant _ _ => Unsupported "constant"
  | ir.Register _ id | ir.AllocaInstr _ id =>
      match regs s !! id with
      | Some x => Done x
      | None => Undefined "use of a value that is not defined"
      end
  | ir.GlobalVariable _ name => Done (VPtr (BGlobal name) 0)
  | ir.Argument _ _ => Unsupported "argument"
  | ir.PyNone => Unsupported "None"
  end.

Fixpoint eval_all (s : state) (vs : list ir.value) : outcome (list val) :=
  match vs with
  | [] => Done []
  | v :: rest =>
      x ← eval s v;
      xs ← eval_all s rest;
      Done (x :: xs)
  end.

(** The object a pointer addresses, when [k] bytes at the pointer lie
    inside it. *)
Definition access (s : state) (p : val) (k : Z) : outcome (block * Z * object) :=
  match p with
  | VPtr b offset =>
      match mem s !! b with
      | Some obj =>
          if decide (0 <= offset /\ offset + k <= size obj)%Z
          then Done (b, offset, obj)
          else Undefined "access out of bounds"
      | None => Undefined "access to an object that is not live"
      end
  | VNull => Undefined "access through a null pointer"
  | _ => Undefined "access through a value that is no pointer"
  end.

Definition do_load (s : state) (p : val) (ty : ir.type) : outcome val :=
  match sizeof ty with
  | Some k =>
      '(_, offset, obj) ← access s p k;
      Done (default VUndef (cells obj !! offset))
  | None => Unsupported "load of a type without a size"
  end.

Definition do_store (s : state) (x p : val) (ty : ir.type) : outcome state :=
  match sizeof ty with
  | Some k =>
      '(b, offset, obj) ← access s p k;
      Done (set_mem s (<[b := mkobj (size obj) (<[offset := x]> (cells obj))]> (mem s)))
  | None => Unsupported "store of a type without a size"
  end.

(** The byte offset a [gep] adds to its base pointer. *)
Fixpoint gep_offset (ty : ir.type) (indices : list Z) : option Z :=
  match indices with
  | [] => Some 0%Z
  | i :: rest =>
      match ty with
      | ir.PointerType inner | ir.ArrayType inner _ =>
          match sizeof inner, gep_offset inner rest with
          | Some k, Some off => Some (i * k + off)%Z
          | _, _ => None
          end
      | _ => None
      end
  end.

Fixpoint ints (xs : list val) : option (list Z) :=
  match xs with
  | [] => Some []
  | VInt n :: rest => cons n <$> ints rest
  | _ => None
  end.

(** The bytes of the C string at an offset of an object, without the
    terminating zero. *)
Fixpoint read_cstring (fuel : nat) (obj : object) (offset : Z) : option (list Z) :=
  match fuel with
  | O => None
  | S fuel' =>
      if decide (0 <= offset < size obj)%Z then
        match cells obj !! offset with
        | Some (VInt c) =>
            if decide (c = 0%Z) then Some []
            else cons c <$> read_cstring fuel' obj (offset + 1)
        | _ => None
        end
      else None
  end.

Definition cstring_at (s : state) (p : val) : outcome (list Z) :=
  '(_, offset, obj) ← access s p 1;
  match read_cstring (S (Z.to_nat (size obj))) obj offset with
  | Some bytes => Done bytes
  | None => Undefined "read of a string that is not terminated"
  end.

Fixpoint write_bytes (cells : gmap Z val) (offset : Z) (bytes : list Z) : gmap Z val :=
  match bytes with
  | [] => cells
  | c :: rest => write_bytes (<[offset := VInt c]> cells) (offset + 1) rest
  end.

(** [bytes] and a terminating zero written at a pointer. *)
Definition write_cstring (s : state) (p : val) (bytes : list Z) : outcome state :=
  '(b, offset, obj) ← access s p (Z.of_nat (length bytes) + 1);
  Done (set_mem s (<[b := mkobj (size obj)
                            (write_bytes (cells obj) offset (bytes ++ [0%Z]))]> (mem s))).

Definition shift (p : val) (k : Z) : val :=
  match p with
  | VPtr b offset => VPtr b (offset + k)
  | _ => p
  end.

(** A call of an external function. *)
Definition do_call (s : state) (fn : string) (args : list val) : outcome (val * state) :=
  if String.eqb fn "malloc" then
    match args with
    | [VInt n] =>
        let id := next_heap s in
        Done (VPtr (BHeap id) 0,
              mkstate (regs s) (<[BHeap id := mkobj n ∅]> (mem s)) (S id)
                      (trace s ++ [Malloc n id]))
    | _ => Undefined "malloc"
    end
  else if String.eqb fn "free" then
    match args with
    | [VNull] => Done (VUndef, s)
    | [VPtr (BHeap id) 0] =>
        match mem s !! BHeap id with
        | Some _ =>
            Done (VUndef,
                  mkstate (regs s) (delete (BHeap id) (mem s)) (next_heap s)
                          (trace s ++ [Free id]))
        | None => Undefined "free of memory that is not allocated"
        end
    | _ => Undefined "free of a pointer malloc did not return"
    end
  else if String.eqb fn "strlen" then
    match args with
    | [p] => bytes ← cstring_at s p; Done (VInt (Z.of_nat (length bytes)), s)
    | _ => Undefined "strlen"
    end
  else if String.eqb fn "strcpy" then
    match args with
    | [dst; src] =>
        bytes ← cstring_at s src;
        s ← write_cstring s dst bytes;
        Done (dst, s)
    | _ => Undefined "strcpy"
    end
  else if String.eqb fn "strcat" then
    match args with
    | [dst; src] =>
        head ← cstring_at s dst;
        bytes ← cstring_at s src;
        s ← write_cstring s (shift dst (Z.of_nat (length head))) bytes;
        Done (dst, s)
    | _ => Undefined "strcat"
    end
  else Unsupported fn.

Definition do_binop (op : ir.opcode) (width a b : Z) : outcome Z :=
  match op with
  | ir.add => Done (wrap width (a + b))
  | ir.sub => Done (wrap width (a - b))
  | ir.mul => Done (wrap width (a * b))
  | ir.sdiv =>
      if decide (b = 0%Z) then Undefined "division by zero"
      else Done (wrap width (Z.quot (to_signed width a) (to_signed width b)))
  | ir.srem =>
      if decide (b = 0%Z) then Undefined "division by zero"
      else Done (wrap width (Z.rem (to_signed width a) (to_signed width b)))
  | ir.and_ => Done (Z.land a b)
  | ir.or_ => Done (Z.lor a b)
  | ir.fadd | ir.fsub | ir.fmul | ir.fdiv => Unsupported "floating point"
  end.

Definition compare_Z (op : ir.cmpop) (a b : Z) : bool :=
  match op with
  | ir.cmp_gt => (b <? a)%Z
  | ir.cmp_lt => (a <? b)%Z
  | ir.cmp_ge => (b <=? a)%Z
  | ir.cmp_le => (a <=? b)%Z
  | ir.cmp_eq => (a =? b)%Z
  | ir.cmp_ne => negb (a =? b)%Z
  end.

Definition do_icmp (kind : ir.icmp_kind) (op : ir.cmpop) (ty : ir.type) (a b : val)
  : outcome val :=
  match a, b with
  | VInt x, VInt y =>
      match kind, width_of ty with
      | ir.signed, Some w =>
          Done (VInt (Z.b2z (compare_Z op (to_signed w x) (to_signed w y))))
      | ir.signed, None => Unsupported "signed comparison"
      | _, _ => Done (VInt (Z.b2z (compare_Z op x y)))
      end
  | (VPtr _ _ | VNull), (VPtr _ _ | VNull) =>
      match op with
      | ir.cmp_eq => Done (VInt (Z.b2z (bool_decide (a = b))))
      | ir.cmp_ne => Done (VInt (Z.b2z (negb (bool_decide (a = b)))))
      | _ => Unsupported "order of pointers"
      end
  | _, _ => Unsupported "comparison"
  end.

Inductive control : Type :=
| Next
| Jump (label : string)
| Return (v : val).

(** One instruction. *)
Definition step (i : ir.instruction) (s : state) : outcome (control * state) :=
  match i with
  | ir.load dst ptr =>
      p ← eval s ptr;
      match ir.type_of ptr with
      | ir.PointerType ty => x ← do_load s p ty; Done (Next, set_reg s dst x)
      | _ => Undefined "load"
      end
  | ir.store value ptr =>
      x ← eval s value;
      p ← eval s ptr;
      s ← do_store s x p (ir.type_of value);
      Done (Next, s)
  | ir.alloca dst ty _ =>
      match sizeof ty with
      | Some k =>
          Done (Next,
                set_reg (set_mem s (<[BStack dst := mkobj k ∅]> (mem s))) dst
                        (VPtr (BStack dst) 0))
      | None => Unsupported "alloca of a type without a size"
      end
  | ir.gep dst ptr indices _ =>
      p ← eval s ptr;
      xs ← eval_all s indices;
      match p, ints xs with
      | VPtr b offset, Some ns =>
          match gep_offset (ir.type_of ptr) ns with
          | Some k => Done (Next, set_reg s dst (VPtr b (offset + k)))
          | None => Unsupported "gep"
          end
      | _, _ => Unsupported "gep"
      end
  | ir.call dst fn args =>
      xs ← eval_all s args;
      '(x, s) ← do_call s (ir.fname fn) xs;
      Done (Next, set_reg s dst x)
  | ir.binop dst op lhs rhs =>
      a ← eval s lhs;
      b ← eval s rhs;
      match a, b, width_of (ir.type_of lhs) with
      | VInt x, VInt y, Some w => z ← do_binop op w x y; Done (Next, set_reg s dst (VInt z))
      | _, _, _ => Unsupported "binary operation"
      end
  | ir.icmp dst kind op lhs rhs =>
      a ← eval s lhs;
      b ← eval s rhs;
      x ← do_icmp kind op (ir.type_of lhs) a b;
      Done (Next, set_reg s dst x)
  | ir.not_ dst operand =>
      a ← eval s operand;
      match a, width_of (ir.type_of operand) with
      | VInt x, Some w => Done (Next, set_reg s dst (VInt (wrap w (- x - 1))))
      | _, _ => Unsupported "not"
      end
  | ir.bitcast dst operand _ =>
      a ← eval s operand;
      Done (Next, set_reg s dst a)
  | ir.sext dst operand ty =>
      a ← eval s operand;
      match a, width_of (ir.type_of operand), width_of ty with
      | VInt x, Some w, Some w' => Done (Next, set_reg s dst (VInt (wrap w' (to_signed w x))))
      | _, _, _ => Unsupported "sext"
      end
  | ir.fcmp_ordered _ _ _ _ | ir.sitofp _ _ _ | ir.fptosi _ _ _ =>
      Unsupported "floating point"
  | ir.branch target => Done (Jump target, s)
  | ir.cbranch cond truebr falsebr =>
      c ← eval s cond;
      match c with
      | VInt x => Done (Jump (if decide (x = 0%Z) then falsebr else truebr), s)
      | _ => Undefined "branch on a value that is no integer"
      end
  | ir.ret value =>
      x ← eval s value;
      Done (Return x, s)
  end.

(** The instructions of a block, up to the first transfer of
    control. *)
Fixpoint exec (code : list ir.instruction) (s : state) : outcome (control * state) :=
  match code with
  | [] => Done (Next, s)
  | i :: rest =>
      '(c, s) ← step i s;
      match c with
      | Next => exec rest s
      | _ => Done (c, s)
      end
  end.

(** A function, from a block on, until it returns. *)
Fixpoint run (fuel : nat) (blocks : list (string * list ir.instruction))
    (label : string) (s : state) : outcome (val * state) :=
  match fuel with
  | O => Timeout
  | S fuel' =>
      '(c, s) ← exec (Emit.block_code blocks label) s;
      match c with
      | Jump target => run fuel' blocks target s
      | Return x => Done (x, s)
      | Next => Undefined "block without a terminator"
      end
  end.

(** The memory a module starts with: one object for each global
    variable. *)
Definition initial_cells (init : ir.constant) : gmap Z val :=
  match init with
  | ir.CInt n => {[ 0%Z := VInt n ]}
  | ir.CBytes bytes =>
      write_bytes ∅ 0 ((fun c => Z.of_nat (nat_of_ascii c)) <$> bytes)
  | ir.CFloat numeral => {[ 0%Z := VDouble numeral ]}
  | ir.CNone => ∅
  end.

Fixpoint initial_mem (globals : list Emit.global_def) : gmap block object :=
  match globals with
  | [] => ∅
  | Emit.VariableDef name ty init :: rest =>
      <[BGlobal name := mkobj (default 0%Z (sizeof ty)) (initial_cells init)]>
        (initial_mem rest)
  | Emit.FunctionDecl _ :: rest => initial_mem rest
  end.

Definition initial (globals : list Emit.global_def) : state :=
  mkstate ∅ (initial_mem globals) 0 [].

(** The run of the [main] of a generated module. *)
Definition run_main (fuel : nat) (e : Emit.t) : outcome (val * state) :=
  run fuel (Emit.blocks e) "entry" (initial (Emit.module_globals e)).

End Machine.

(* ===================================================================== *)
(** * Semantic analysis: the return statements of functions                *)
(* ===================================================================== *)

(** [NoxyCompiler._check_function_return_types] and the methods it
    calls.  The position of a node is not part of [Ast.node], so the
    error raised for a return statement carries its message only; the
    messages are written without diacritics. *)
Module Semantic.
Import Ast.

(** [c.lower()] for a code point below 256. *)
Definition lower_char (c : ascii) : ascii :=
  if Char.between 65 90 c || Char.between 192 214 c || Char.between 216 222 c
  then ascii_of_nat (Char.code c + 32)
  else c.

(** [s.lower()] *)
Fixpoint lower (s : string) : string :=
  match s with
  | EmptyString => EmptyString
  | String c rest => String (lower_char c) (lower rest)
  end.

(** [keyword in text] *)
Fixpoint contains_text (keyword text : string) : bool :=
  String.prefix keyword text
  || match text with
     | EmptyString => false
     | String _ rest => contains_text keyword rest
     end.

(** [any(keyword in text for keyword in keywords)] *)
Definition any_in (keywords : list string) (text : string) : bool :=
  existsb (fun keyword => contains_text keyword text) keywords.

(** [text in names] *)
Definition one_of (names : list string) (text : string) : bool :=
  existsb (String.eqb text) names.

Definition _infer_identifier_type (identifier_name : string) : string :=
  let name := lower identifier_name in
  if any_in ["count"; "size"; "length"; "index"; "hash"; "value"; "i"; "j"; "k"] name
  then "int"
  else if any_in ["name"; "key"; "text"; "str"; "message"] name then "string"
  else if any_in ["found"; "valid"; "present"; "ok"; "flag"] name then "bool"
  else if any_in ["price"; "rate"; "percent"; "float"] name then "float"
  else "string".

Definition _infer_struct_field_type (field_name : string) : string :=
  let field_name := lower field_name in
  if any_in ["key"; "name"; "value"; "text"; "str"] field_name then "string"
  else if any_in ["count"; "size"; "index"; "id"] field_name then "int"
  else if any_in ["found"; "valid"; "active"] field_name then "bool"
  else "string".

(** [_infer_binary_op_type]: its first test builds the list
    [[TokenType.PLUS, ..., TokenType.MOD]], and the enumeration
    [TokenType] has no member [MOD] (the member is [MODULO]): the
    attribute access raises before anything else is evaluated. *)
Definition _infer_binary_op_type (lhs : node) (operator : TokenType) (rhs : node)
  : result string :=
  Raise (AttributeError "MOD").

Definition _infer_function_call_type (function_name : string) : string :=
  let func_name := lower function_name in
  if one_of ["strlen"; "to_int"; "ord"] func_name then "int"
  else if one_of ["to_float"] func_name then "float"
  else if one_of ["to_str"; "to_str_int"; "to_str_float"; "char_to_str"] func_name
  then "string"
  else if any_in ["get"; "find"; "search"] func_name
          && any_in ["key"; "value"; "name"; "text"] func_name
  then "string"
  else if any_in ["count"; "size"; "length"; "hash"; "index"] func_name then "int"
  else if any_in ["is"; "has"; "check"; "valid"] func_name then "bool"
  else "tipo_apropriado".

(** [NoxyCompiler._suggest_return_type] *)
Definition _suggest_return_type (return_value : node) : result string :=
  match return_value with
  | NumberNode _ => Ok "int"
  | FloatNode _ => Ok "float"
  | StringNode _ => Ok "string"
  | BooleanNode _ => Ok "bool"
  | IdentifierNode name => Ok (_infer_identifier_type name)
  | StructAccessNode _ field_name => Ok (_infer_struct_field_type field_name)
  | BinaryOpNode lhs operator rhs => _infer_binary_op_type lhs operator rhs
  | CallNode function_name _ => Ok (_infer_function_call_type function_name)
  | _ => Ok "tipo_apropriado"
  end.

(** [NoxyCompiler._type_to_string] *)
Fixpoint _type_to_string (type_obj : Ty) : string :=
  match type_obj with
  | IntType => "int"
  | FloatType => "float"
  | StringType => "string"
  | BoolType => "bool"
  | VoidType => "void"
  | ArrayType element_type size =>
      _type_to_string element_type +:+ "["
      +:+ match size with
          | Some n => if (n =? 0)%Z then EmptyString else pretty n
          | None => EmptyString
          end
      +:+ "]"
  | _ => "unknown"
  end.

(** The return statements of one statement; a [ReturnNode] is
    represented by its [value]. *)
Fixpoint return_statements_of (stmt : node) : list (option node) :=
  let find_all := fix find_all (statements : list node) : list (option node) :=
    match statements with
    | [] => []
    | stmt :: rest => return_statements_of stmt ++ find_all rest
    end in
  match stmt with
  | ReturnNode value => [value]
  | IfNode _ then_branch else_branch =>
      find_all then_branch
      ++ match else_branch with
         | Some statements => find_all statements
         | None => []
         end
  | WhileNode _ body => find_all body
  | _ => []
  end.

(** [NoxyCompiler._find_return_statements] *)
Fixpoint _find_return_statements (statements : list node) : list (option node) :=
  match statements with
  | [] => []
  | stmt :: rest => return_statements_of stmt ++ _find_return_statements rest
  end.

Definition void_return_message (name suggestion : string) : string :=
  "Funcao '" +:+ name
  +:+ "' e declarada como 'void' mas esta tentando retornar um valor. Adicione '-> "
  +:+ suggestion +:+ "' apos os parametros ou remova o valor de retorno.".

Definition missing_value_message (name type_name : string) : string :=
  "Funcao '" +:+ name +:+ "' e declarada para retornar '" +:+ type_name
  +:+ "' mas este return nao possui valor. Use 'return <valor>' ou declare a funcao como '-> void'.".

(** The loop of [_validate_function_returns] over the return
    statements found. *)
Fixpoint validate_returns (name : string) (expected_return_type : Ty)
    (return_statements : list (option node)) : result unit :=
  match return_statements with
  | [] => Ok tt
  | value :: rest =>
      match expected_return_type with
      | VoidType =>
          match value with
          | Some return_value =>
              suggestion ← _suggest_return_type return_value;
              Raise (NoxySemanticError (void_return_message name suggestion))
          | None => validate_returns name expected_return_type rest
          end
      | _ =>
          match value with
          | None =>
              Raise (NoxySemanticError
                       (missing_value_message name (_type_to_string expected_return_type)))
          | Some _ => validate_returns name expected_return_type rest
          end
      end
  end.

(** [NoxyCompiler._validate_function_returns] on the attributes of a
    [FunctionNode]. *)
Definition _validate_function_returns (name : string) (return_type : Ty)
    (body : list node) : result unit :=
  validate_returns name return_type (_find_return_statements body).

(** [NoxyCompiler._check_function_return_types] *)
Fixpoint _check_function_return_types (statements : list node) : result unit :=
  match statements with
  | [] => Ok tt
  | FunctionNode name _ return_type body :: rest =>
      _ ← _validate_function_returns name return_type body;
      _check_function_return_types rest
  | _ :: rest => _check_function_return_types rest
  end.
End Semantic.

(* ===================================================================== *)
(** * Properties                                                           *)
(* ===================================================================== *)

Module ResolverFacts.
Import Ast Resolver.

Section Closure.
Context {SI : SetIteration}.
Variable module_symbols : gmap string symbol_info.

(** [depends a b]: [a] is an exported function whose filtered
    dependency set holds the exported name [b]. *)
Definition depends (a b : string) : Prop :=
  exists name params return_type body,
    module_symbols !! a = Some (function name params return_type body)
    /\ b ∈ visit_body body
    /\ (b ∉ builtin_functions)
    /\ (b ∉ param_names params)
    /\ b ∈ dom module_symbols.

Lemma depends_analyze (a b : string) :
  depends a b <->
  exists name params return_type body,
    module_symbols !! a = Some (function name params return_type body)
    /\ b ∈ _analyze_function_dependencies params body
    /\ b ∈ dom module_symbols.
Proof.
  unfold depends, _analyze_function_dependencies.
  split; intros (n & p & r & b' & Hl & Hrest); exists n, p, r, b';
    (split; [exact Hl|]); set_solver.
Qed.

(** What one call of the collector guarantees about its result. *)
Record collected_ok (root : string) (before after : gset string) : Prop := {
  ok_grows : before ⊆ after;
  ok_exported : after ⊆ dom module_symbols ∪ before;
  ok_root : root ∈ dom module_symbols -> root ∈ after;
  ok_reach : forall x, x ∈ after -> x ∉ before -> rtc depends root x;
  ok_closed : forall x y, x ∈ after -> x ∉ before -> depends x y -> y ∈ after
}.

Lemma iter_elem_of (s : gset string) (x : string) : x ∈ iter s <-> x ∈ s.
Proof. rewrite (iter_perm s). apply elem_of_elements. Qed.

Lemma size_remaining_lt (name : string) (c : gset string) :
  name ∈ dom module_symbols -> name ∉ c ->
  size (dom module_symbols ∖ ({[name]} ∪ c)) < size (dom module_symbols ∖ c).
Proof.
  intros Hin Hnot. apply subset_size. set_solver.
Qed.

Lemma size_remaining_mono (c c' : gset string) :
  c ⊆ c' -> size (dom module_symbols ∖ c') <= size (dom module_symbols ∖ c).
Proof. intros Hsub. apply subseteq_size. set_solver. Qed.

Lemma collect_spec (fuel : nat) :
  forall (symbol_name : string) (collected : gset string),
    size (dom module_symbols ∖ collected) < fuel ->
    exists after,
      _collect_dependencies fuel symbol_name module_symbols collected = Ok after
      /\ collected_ok symbol_name collected after.
Proof.
  induction fuel as [|fuel IH]; intros symbol_name collected Hfuel; [lia|].
  simpl. destruct (decide (symbol_name ∈ collected)) as [Hin|Hnin].
  { exists collected. split; [done|]. split; set_solver. }
  destruct (module_symbols !! symbol_name) as [info|] eqn:Hlook; cycle 1.
  { exists collected. split; [done|].
    apply not_elem_of_dom in Hlook. split; set_solver. }
  assert (Hdom : symbol_name ∈ dom module_symbols) by (apply elem_of_dom; eauto).
  pose proof (size_remaining_lt _ _ Hdom Hnin) as Hlt.
  assert (Hleaf : (forall y, ~ depends symbol_name y) ->
             collected_ok symbol_name collected ({[symbol_name]} ∪ collected)).
  { intros Hno. split.
    - set_solver.
    - set_solver.
    - set_solver.
    - intros x Hx Hnx. assert (x = symbol_name) as -> by set_solver. constructor.
    - intros x y Hx Hnx Hdep. assert (x = symbol_name) as -> by set_solver.
      destruct (Hno y Hdep). }
  destruct info as [name params return_type body | identifier var_type value | name fields];
    cycle 1.
  { eexists; split; [done|]. apply Hleaf.
    intros y (? & ? & ? & ? & Heq & _). congruence. }
  { eexists; split; [done|]. apply Hleaf.
    intros y (? & ? & ? & ? & Heq & _). congruence. }
  set (deps := _analyze_function_dependencies params body).
  set (c1 := {[symbol_name]} ∪ collected) in *.
  (* the loop over the dependencies *)
  assert (Hloop : forall (l : list string) (cur : gset string),
             c1 ⊆ cur ->
             (forall d, d ∈ l -> d ∈ deps) ->
             exists fin,
               (fix each (deps : list string) (collected : gset string)
                  : result (gset string) :=
                  match deps with
                  | [] => Ok collected
                  | dep :: rest =>
                      collected ←
                        (if decide (dep ∈ dom module_symbols ∧ dep ∉ collected)
                         then _collect_dependencies fuel dep module_symbols collected
                         else Ok collected);
                      each rest collected
                  end) l cur = Ok fin
               /\ cur ⊆ fin /\ fin ⊆ dom module_symbols ∪ cur
               /\ (forall d, d ∈ l -> d ∈ dom module_symbols -> d ∈ fin)
               /\ (forall x, x ∈ fin -> x ∉ cur -> rtc depends symbol_name x)
               /\ (forall x y, x ∈ fin -> x ∉ cur -> depends x y -> y ∈ fin)).
  { induction l as [|d l IHl]; intros cur Hcur Hl.
    { exists cur. repeat split; try set_solver. }
    assert (Hstep : exists mid,
               (if decide (d ∈ dom module_symbols ∧ d ∉ cur)
                then _collect_dependencies fuel d module_symbols cur
                else Ok cur) = Ok mid
               /\ cur ⊆ mid /\ mid ⊆ dom module_symbols ∪ cur
               /\ (d ∈ dom module_symbols -> d ∈ mid)
               /\ (forall x, x ∈ mid -> x ∉ cur -> rtc depends d x)
               /\ (forall x y, x ∈ mid -> x ∉ cur -> depends x y -> y ∈ mid)).
    { destruct (decide (d ∈ dom module_symbols ∧ d ∉ cur)) as [[Hd Hdn]|Hno].
      - destruct (IH d cur) as (mid & Hmid & Hok).
        { pose proof (size_remaining_mono c1 cur Hcur). lia. }
        exists mid. split; [done|]. destruct Hok. repeat split; auto.
      - exists cur. split; [done|]. repeat split; set_solver. }
    destruct Hstep as (mid & Hmid & Hsub & Hexp & Hroot & Hreach & Hclosed).
    destruct (IHl mid) as (fin & Hfin & Hsub' & Hexp' & Hall & Hreach' & Hclosed').
    { set_solver. }
    { intros d' Hd'. apply Hl. set_solver. }
    exists fin. split.
    { rewrite Hmid. simpl. exact Hfin. }
    split; [set_solver|]. split; [set_solver|]. split.
    { intros d' Hd' Hdom'. apply elem_of_cons in Hd' as [->|Hd']; [set_solver|auto]. }
    assert (Hdep_d : d ∈ dom module_symbols -> depends symbol_name d).
    { intros Hd. apply depends_analyze. exists name, params, return_type, body.
      repeat split; auto. apply Hl. set_solver. }
    split.
    - intros x Hx Hnx. destruct (decide (x ∈ mid)) as [Hxm|Hxm].
      + eapply rtc_l; [|apply Hreach; auto]. apply Hdep_d.
        assert (x ∈ dom module_symbols) by set_solver.
        destruct (decide (d ∈ dom module_symbols ∧ d ∉ cur)) as [[? ?]|?]; [done|].
        assert (mid = cur) by congruence. set_solver.
      + apply Hreach'; auto.
    - intros x y Hx Hnx Hdep. destruct (decide (x ∈ mid)) as [Hxm|Hxm].
      + apply Hsub'. eapply Hclosed; eauto.
      + eapply Hclosed'; eauto. }
  destruct (Hloop (iter deps) c1) as (fin & Hfin & Hsub & Hexp & Hall & Hreach & Hclosed).
  { done. }
  { intros d Hd. by apply iter_elem_of. }
  exists fin. split; [exact Hfin|]. split.
  - set_solver.
  - set_solver.
  - set_solver.
  - intros x Hx Hnx. destruct (decide (x ∈ c1)) as [Hc|Hc].
    + assert (x = symbol_name) as -> by set_solver. constructor.
    + auto.
  - intros x y Hx Hnx Hdep. destruct (decide (x ∈ c1)) as [Hc|Hc].
    + assert (x = symbol_name) as -> by set_solver.
      apply depends_analyze in Hdep.
      destruct Hdep as (n' & p' & r' & b' & Heq & Hy & Hydom).
      rewrite Hlook in Heq. injection Heq as <- <- <- <-.
      apply Hall; [|done]. by apply iter_elem_of.
    + eapply Hclosed; eauto.
Qed.

Lemma fuel_enough (collected : gset string) :
  size (dom module_symbols ∖ collected) < S (size module_symbols).
Proof.
  rewrite <- size_dom. apply Nat.lt_succ_r, subseteq_size. set_solver.
Qed.

Lemma collect_selected_cons (module_name s : string) (rest : list string)
    (before : gset string) :
  collect_selected module_name (s :: rest) module_symbols before
  = if decide (s ∈ dom module_symbols) then
      mid ← _collect_dependencies (S (size module_symbols)) s module_symbols before;
      collect_selected module_name rest module_symbols mid
    else
      Raise (NoxyError ("Simbolo '" +:+ s +:+ "' nao encontrado no modulo '"
                        +:+ module_name +:+ "'")).
Proof. reflexivity. Qed.


Lemma collect_selected_missing (module_name : string) (selected : list string) :
  forall before : gset string,
    (exists s, s ∈ selected /\ s ∉ dom module_symbols) ->
    exists message,
      collect_selected module_name selected module_symbols before
      = Raise (NoxyError message).
Proof.
  induction selected as [|s selected IHs]; intros before (bad & Hbad & Hnot).
  { set_solver. }
  rewrite collect_selected_cons.
  destruct (decide (s ∈ dom module_symbols)) as [Hs|Hs]; [|eauto].
  destruct (collect_spec (S (size module_symbols)) s before (fuel_enough before))
    as (mid & Hmid & _).
  rewrite Hmid. simpl. apply IHs. exists bad. split; [|done].
  apply elem_of_cons in Hbad as [->|Hbad]; [done|exact Hbad].
Qed.

End Closure.

Section Use.
Context {SI : SetIteration}.
Variable module_files : string -> file_outcome.


(** C8.  A [use M select S1, S2, ...] that names a symbol the module
    does not export makes the import processing raise an error. *)
Theorem use_select_missing_symbol_raises
    (st0 st st1 : Resolver.t) (module_name : string) (selected : list string)
    (module_symbols : gmap string symbol_info) (before after : list node) :
  _process_imports module_files st0 before = Ok st ->
  load_module module_files st module_name = Ok (st1, module_symbols) ->
  (exists s, s ∈ selected /\ s ∉ dom module_symbols) ->
  exists message,
    _handle_use_statement module_files st module_name (Some selected) false
    = Raise (NoxyError message)
    /\ _process_imports module_files st0
         (before ++ UseNode module_name (Some selected) false :: after)
       = Raise (NoxyError message).
Proof.
  intros Hbefore Hload Hbad.
  destruct selected as [|first others]; [set_solver|].
  destruct (collect_selected_missing module_symbols module_name (first :: others) ∅ Hbad)
    as (inner & Hinner).
  assert (Hone : _handle_use_statement module_files st module_name
                   (Some (first :: others)) false
                 = Raise (NoxyError ("Erro ao processar import: " +:+ "Erro: " +:+ inner))).
  { unfold _handle_use_statement, use_body. rewrite Hload.
    cbn -[collect_selected import_names]. rewrite Hinner. done. }
  eexists. split; [exact Hone|].
  clear Hload Hbad Hinner. revert st0 Hbefore.
  induction before as [|stmt before IHb]; intros st0 Hbefore.
  - simpl in *. injection Hbefore as ->. rewrite Hone. done.
  - simpl in *. destruct stmt; try (apply IHb; exact Hbefore).
    destruct (_handle_use_statement module_files st0 _ _ _)
      as [st2| |]; try discriminate.
    simpl in *. apply IHb. exact Hbefore.
Qed.
End Use.
End ResolverFacts.

Module StructsFacts.
Import Ast Structs.

(** The struct name an event inserts a processed definition for. *)
Definition event_name (e : insertion) : option string :=
  match e with
  | Defined d | Placeholder d => Some (name d)
  | Opaque _ => None
  end.

(** The names of the definitions a log inserts, in order. *)
Definition inserted (log : list insertion) : list string := omap event_name log.


Definition is_placeholder (e : insertion) : Prop :=
  match e with Placeholder _ => True | _ => False end.



















(** [before log i n]: an insertion of a definition named [n] sits at
    a position of [log] below [i]. *)
Definition before (log : list insertion) (i : nat) (n : string) : Prop :=
  exists j e, j < i /\ log !! j = Some e /\ event_name e = Some n.



Section Walk.
Context {SI : SetIteration}.
Variable struct_definitions : list StructDef.
Variable base : list insertion.

Definition known (n : string) : Prop :=
  is_Some (find_struct struct_definitions n).

Definition names : gset string := list_to_set (name <$> struct_definitions).

(** The value-field dependencies between the names of the
    definitions. *)
Definition edge (a b : string) : Prop :=
  exists d, d ∈ struct_definitions /\ name d = a
            /\ b ∈ _get_struct_dependencies (fields d) /\ known b.

Definition acyclic : Prop := forall n, ~ tc edge n n.

(** Every full definition in the log comes after an insertion of
    each struct it depends on. *)
Definition ordered (log : list insertion) : Prop :=
  forall i d, log !! i = Some (Defined d) ->
    forall dep, dep ∈ _get_struct_dependencies (fields d) -> known dep ->
      before log i dep.






(** What holds between the walk state and the events logged since
    the start. *)
Record inv (w : walk) (new : list insertion) : Prop := {
  inv_log : struct_log (tables w) = base ++ new;
  inv_processed : forall n, n ∈ processed w -> n ∈ inserted new;
  inv_ordered : ordered new
}.

(** What holds in addition when no definition depends on itself. *)
Record ainv (w : walk) (new : list insertion) : Prop := {
  ainv_disjoint : processed w ## processing w;
  ainv_inserted : forall n, n ∈ inserted new -> n ∈ processed w;
  ainv_nodup : NoDup (inserted new);
  ainv_placeholder : forall e, e ∈ new -> ~ is_placeholder e
}.

Definition remaining (w : walk) : nat :=
  size (names ∖ (processed w ∪ processing w)).

(** The outcome of a step of the walk from [w]. *)
Definition step_ok (w : walk) (new : list insertion) (target : option string)
    (r : result walk) : Prop :=
  match r with
  | Ok w' =>
      exists add,
        inv w' (new ++ add)
        /\ processed w ⊆ processed w'
        /\ processed w ∪ processing w ⊆ processed w' ∪ processing w'
        /\ (forall n, target = Some n -> n ∈ processed w')
        /\ (acyclic -> ainv w new ->
            (forall n p, target = Some n -> p ∈ processing w -> tc edge p n) ->
            ainv w' (new ++ add) /\ processing w' = processing w)
  | Raise _ => True
  | OutOfFuel => False
  end.

Lemma step_ok_skip (w : walk) (new : list insertion) :
  inv w new -> step_ok w new None (Ok w).
Proof.
  intros Hinv. exists []. rewrite app_nil_r.
  split; [done|]. split; [done|]. split; [done|]. split; [by intros|].
  by intros _ Ha _.
Qed.





End Walk.

End StructsFacts.

Module ResolverExamples.
Import Ast Resolver ResolverFacts.

(** A module [utils]: [g] calls [h] on the global [k], [h] has a
    parameter named [k], and [z] is used by nobody. *)
Definition utils : list node :=
  [ FunctionNode "g" [] VoidType [ PrintNode (CallNode "h" [IdentifierNode "k"]) ];
    FunctionNode "h" [("k", IntType)] IntType [ ReturnNode (Some (IdentifierNode "k")) ];
    AssignmentNode "k" (Some IntType) (NumberNode 1) true;
    FunctionNode "z" [] VoidType [] ].

Definition utils_files (module_name : string) : file_outcome :=
  if String.eqb module_name "utils" then Parsed utils else NotFound.

Definition no_imports : Resolver.t := Resolver.mk ∅ ∅.


Lemma use_select_missing_symbol_raises_witness :
  exists message,
    _handle_use_statement (SI := elements_iteration) utils_files no_imports "utils"
      (Some ["g"; "missing"]) false
    = Raise (NoxyError message)
    /\ _process_imports (SI := elements_iteration) utils_files no_imports
         ([] ++ UseNode "utils" (Some ["g"; "missing"]) false :: [])
       = Raise (NoxyError message).
Proof.
  apply (use_select_missing_symbol_raises (SI := elements_iteration) utils_files
           no_imports no_imports
           (Resolver.mk {[ "utils" := _extract_exported_symbols utils ]} ∅)
           "utils" ["g"; "missing"] (_extract_exported_symbols utils) [] []).
  - reflexivity.
  - reflexivity.
  - exists "missing". split.
    + apply list_elem_of_In. simpl. auto.
    + vm_compute. intros H. discriminate H.
Defined.
End ResolverExamples.

Module StructsExamples.
Import Ast Structs StructsFacts.


End StructsExamples.

Module DeclFacts.
Import Ast Decl.

(** An exception other than the report of a redeclared global. *)
Definition other_error (x : exn) : Prop :=
  forall identifier, x <> redeclaration_error identifier.

(** The program [let x: int = 1] followed by [let x: float = 2.0]. *)
Definition conflicting_globals : list node :=
  [ AssignmentNode "x" (Some IntType) (NumberNode 1) true;
    AssignmentNode "x" (Some FloatType) (FloatNode "2.0") true ].

Lemma convert_array (tbl : Structs.t) (element : Ty) (size : Z) :
  Structs._convert_type tbl (ArrayType element (Some size))
  = match element with
    | StructType struct_name _ =>
        match Structs.struct_types tbl !! struct_name with
        | Some struct_type => Ok (ir.ArrayType struct_type size, tbl)
        | None =>
            Ok (ir.ArrayType Structs.opaque_type size,
                Structs.set_struct_type tbl struct_name Structs.opaque_type
                  (Structs.Opaque struct_name))
        end
    | _ =>
        '(element_type, tbl) ← Structs._convert_type tbl element;
        Ok (ir.ArrayType element_type size, tbl)
    end.
Proof. by destruct element. Qed.

Lemma convert_reference (tbl : Structs.t) (target : Ty) (mutable : bool) :
  Structs._convert_type tbl (ReferenceType target mutable)
  = match target with
    | StructType struct_name _ =>
        match Structs.struct_types tbl !! struct_name with
        | Some struct_type => Ok (ir.as_pointer struct_type, tbl)
        | None =>
            Ok (ir.as_pointer Structs.opaque_type,
                Structs.set_struct_type tbl struct_name Structs.opaque_type
                  (Structs.Opaque struct_name))
        end
    | _ =>
        '(target_type, tbl) ← Structs._convert_type tbl target;
        Ok (ir.as_pointer target_type, tbl)
    end.
Proof. by destruct target. Qed.

Lemma bind_error {A B : Type} (m : result A) (k : A -> result B) (x : exn) :
  (a ← m; k a) = Raise x ->
  m = Raise x \/ exists a, m = Ok a /\ k a = Raise x.
Proof.
  destruct m as [a|y|]; unfold mbind, result_bind, rbind; simpl.
  - intros H. right. by exists a.
  - intros [= ->]. by left.
  - discriminate.
Qed.

Lemma type_error_other (message : string) (c : ascii) (rest : string) :
  message = String c rest -> c <> "R"%char -> other_error (TypeError message).
Proof.
  intros -> Hc identifier. unfold redeclaration_error. simpl. intros [= H _]. done.
Qed.

Lemma convert_type_error (tbl : Structs.t) (ty : Ty) (x : exn) :
  Structs._convert_type tbl ty = Raise x -> other_error x.
Proof.
  revert tbl x.
  induction ty as [| | | |element IH size| |params ret _| | |struct_name fields
                  |target IH mutable]; intros tbl x.
  all: try (simpl; discriminate).
  - destruct size as [size|].
    + rewrite convert_array.
      assert (Hgen : ('(element_type, tbl') ← Structs._convert_type tbl element;
                      Ok (ir.ArrayType element_type size, tbl')) = Raise x ->
                     other_error x).
      { intros [H|([a t'] & _ & H)]%bind_error; [by eapply IH|discriminate]. }
      destruct element; try exact Hgen.
      destruct (Structs.struct_types tbl !! name); discriminate.
    + simpl. intros [H|([a t'] & _ & H)]%bind_error; [by eapply IH|discriminate].
  - simpl. intros [= <-]. by eapply type_error_other.
  - simpl. intros [= <-]. by eapply type_error_other.
  - simpl. destruct (Structs.struct_types tbl !! struct_name); [discriminate|].
    intros [= <-]. by eapply type_error_other.
  - rewrite convert_reference.
    assert (Hgen : ('(target_type, tbl') ← Structs._convert_type tbl target;
                    Ok (ir.as_pointer target_type, tbl')) = Raise x ->
                   other_error x).
    { intros [H|([a t'] & _ & H)]%bind_error; [by eapply IH|discriminate]. }
    destruct target; try exact Hgen.
    destruct (Structs.struct_types tbl !! name); discriminate.
Qed.

Lemma other_error_duplicated (name : string) : other_error (DuplicatedNameError name).
Proof. intros identifier. discriminate. Qed.

(** What a step of the declaration pass may give: a state that
    satisfies [post], or an exception other than the redeclaration
    report. *)
Definition gives {A : Type} (r : result A) (post : A -> Prop) : Prop :=
  match r with
  | Ok a => post a
  | Raise x => other_error x
  | OutOfFuel => False
  end.

Lemma gives_bind {A B : Type} (m : result A) (k : A -> result B)
    (mid : A -> Prop) (post : B -> Prop) :
  gives m mid -> (forall a, mid a -> gives (k a) post) -> gives (a ← m; k a) post.
Proof. destruct m as [a|x|]; simpl; [intros H Hk; by apply Hk|done|done]. Qed.

Lemma convert_type_gives (tbl : Structs.t) (ty : Ty) :
  gives (Structs._convert_type tbl ty) (fun _ => True).
Proof.
  destruct (Structs._convert_type tbl ty) as [a|x|] eqn:E; simpl; [done| |].
  - by eapply convert_type_error.
  - revert tbl E.
    induction ty as [| | | |element IH size| |params ret _| | |struct_name fields
                    |target IH mutable]; intros tbl; try (simpl; discriminate).
    + destruct size as [size|].
      * rewrite convert_array.
        assert (Hgen : ('(element_type, tbl') ← Structs._convert_type tbl element;
                        Ok (ir.ArrayType element_type size, tbl')) <> OutOfFuel).
        { destruct (Structs._convert_type tbl element) as [[? ?]|?|] eqn:E;
            simpl; [done|done|]. by apply IH in E. }
        destruct element; try exact Hgen.
        destruct (Structs.struct_types tbl !! name); discriminate.
      * simpl. destruct (Structs._convert_type tbl element) as [[? ?]|?|] eqn:E;
          simpl; [done|done|]. by apply IH in E.
    + simpl. destruct (Structs.struct_types tbl !! struct_name); discriminate.
    + rewrite convert_reference.
      assert (Hgen : ('(target_type, tbl') ← Structs._convert_type tbl target;
                      Ok (ir.as_pointer target_type, tbl')) <> OutOfFuel).
      { destruct (Structs._convert_type tbl target) as [[? ?]|?|] eqn:E;
          simpl; [done|done|]. by apply IH in E. }
      destruct target; try exact Hgen.
      destruct (Structs.struct_types tbl !! name); discriminate.
Qed.

Lemma register_gives (st : t) (name : string) :
  gives (register st name) (fun st' => global_vars st' = global_vars st).
Proof.
  unfold register. destruct (decide (name ∈ module_names st)); simpl; [|done].
  apply other_error_duplicated.
Qed.

Lemma declare_global_fresh (st : t) (identifier : string) (var_type : option Ty) :
  identifier ∉ dom (global_vars st) ->
  gives (_declare_global_variable st identifier var_type)
        (fun st' => dom (global_vars st') = {[ identifier ]} ∪ dom (global_vars st)).
Proof.
  intros Hfresh. unfold _declare_global_variable.
  rewrite decide_False by done.
  eapply gives_bind with (mid := fun _ => True).
  { destruct var_type as [ty|]; simpl; [apply convert_type_gives|].
    by eapply type_error_other. }
  intros [ll_type tbl] _.
  eapply gives_bind with (mid := fun _ => True).
  { destruct var_type as [[]|]; try done.
    eapply gives_bind; [apply convert_type_gives|]. by intros [? ?] _. }
  intros [gv_type tbl'] _.
  eapply gives_bind; [apply register_gives|].
  intros st' Hst'. simpl in *. by rewrite dom_insert_L, Hst'.
Qed.

Lemma signature_type_gives (tbl : Structs.t) (ty : Ty) :
  gives (signature_type tbl ty) (fun _ => True).
Proof.
  unfold signature_type.
  destruct ty as [| | | | | | | | | |target mutable]; try apply convert_type_gives.
  destruct target; try apply convert_type_gives.
  by destruct (Structs.struct_types tbl !! name).
Qed.

Lemma signature_types_gives (tbl : Structs.t) (params : list (string * Ty)) :
  gives (signature_types tbl params) (fun _ => True).
Proof.
  revert tbl. induction params as [|[param_name param_type] params IH]; intros tbl.
  - done.
  - simpl. eapply gives_bind; [apply signature_type_gives|]. intros [ty tbl1] _.
    eapply gives_bind; [apply IH|]. by intros [tys tbl2] _.
Qed.

Lemma declare_function_gives (st : t) (name : string) (params : list (string * Ty))
    (return_type : Ty) :
  gives (_declare_function st name params return_type)
        (fun st' => global_vars st' = global_vars st).
Proof.
  unfold _declare_function.
  eapply gives_bind; [apply signature_types_gives|]. intros [param_types tbl] _.
  eapply gives_bind; [apply signature_type_gives|]. intros [ll_return tbl1] _.
  eapply gives_bind; [apply register_gives|]. intros st' Hst'. simpl. done.
Qed.

(** The declaration loop keeps the declared globals inside
    [declared_globals], so the type check of
    [_declare_global_variable] is never reached. *)
Lemma declare_statements_gives (statements : list node) :
  forall (st : t) (declared_globals : gset string),
    dom (global_vars st) ⊆ declared_globals ->
    gives (declare_statements st declared_globals statements) (fun _ => True).
Proof.
  induction statements as [|stmt statements IH]; intros st declared Hsub; [done|].
  destruct stmt; try (by apply IH).
  - simpl. destruct is_global; [|by apply IH].
    destruct (decide (identifier ∈ declared)) as [Hin|Hnot]; [by apply IH|].
    eapply gives_bind.
    + apply declare_global_fresh. set_solver.
    + intros st' Hdom. apply IH. rewrite Hdom. set_solver.
  - simpl. eapply gives_bind; [apply declare_function_gives|].
    intros st' Hst'. apply IH. by rewrite Hst'.
Qed.

(** C5: the declaration pass of [generate] never reports a redeclared
    global, whatever the program, and on the program
    [let x: int = 1] followed by [let x: float = 2.0] it succeeds: [x] is declared
    once, as the 64-bit integer of its first declaration, and the
    second declaration is skipped without a type check. *)
Theorem duplicate_global_not_reported :
  (forall (tbl : Structs.t) (statements : list node) (identifier : string),
     declare_program tbl statements <> Raise (redeclaration_error identifier))
  /\ exists st,
       declare_program Structs.empty conflicting_globals = Ok st
       /\ global_vars st !! "x"
          = Some (ir.GlobalVariable (ir.as_pointer ir.int_type) "x")
       /\ type_map st !! "x" = Some IntType.
Proof.
  split.
  - intros tbl statements identifier Heq.
    pose proof (declare_statements_gives statements (init tbl) ∅) as H.
    unfold declare_program in Heq. rewrite Heq in H. simpl in H.
    by apply (H ltac:(set_solver) identifier).
  - eexists. split; [vm_compute; reflexivity|]. split; vm_compute; reflexivity.
Qed.
End DeclFacts.

Module LexerFacts.
Import Lexer.

(** A source text written with apostrophes for its double quotes. *)
Fixpoint dq (s : string) : string :=
  match s with
  | EmptyString => EmptyString
  | String c rest => String (if Ascii.eqb c "'" then Char.quote else c) (dq rest)
  end.


(** A string literal with a line break between [a] and [b]. *)
Definition two_line_string_source : string :=
  dq ("'a" +:+ String Char.newline "b'").

(** The lexer after that literal. *)
Definition two_line_string_lexed : t :=
  mk two_line_string_source 5 2 3
     [Token.mk STRING (VStr (String "a" (String Char.newline "b"))) 2 1].








(** C7: the token of a string literal records the column the lexer
    was at before the opening quote and the line it is at after the
    closing quote. *)
Theorem string_token_records_end_line (s s' : t) :
  _read_string s = Ok s' ->
  exists string_value,
    tokens s' = tokens s ++ [Token.mk STRING (VStr string_value) (line s') (column s)].
Proof.
  unfold _read_string.
  assert (Hloop : forall fuel s0 acc s1 v,
             read_string_loop fuel s0 acc = Ok (s1, v) -> tokens s1 = tokens s0).
  { induction fuel as [|fuel IH]; intros s0 acc s1 v; [discriminate|]. simpl.
    destruct (_current_char s0) as [c|]; [|by intros [= <- <-]].
    destruct (Ascii.eqb c Char.quote); [by intros [= <- <-]|].
    destruct (Ascii.eqb c Char.backslash).
    - destruct (_current_char (_advance s0)); intros H; apply IH in H; rewrite H.
      + unfold _advance. by repeat case_match.
      + unfold _advance. by repeat case_match.
    - intros H. apply IH in H. rewrite H. unfold _advance. by repeat case_match. }
  destruct (read_string_loop _ _ _) as [[s1 string_value]| |] eqn:E; simpl;
    try discriminate.
  destruct (position s1 <? len s1)%nat; [|discriminate].
  intros [= <-]. exists string_value.
  assert (Hadv : forall s0, tokens (_advance s0) = tokens s0).
  { intros s0. unfold _advance. by case_match. }
  unfold append_token. cbn [tokens line].
  by rewrite Hadv, (Hloop _ _ _ _ _ E), Hadv.
Qed.

(** On a string literal of two lines the recorded position is line 2,
    column 1, while the lexeme starts at line 1, column 1. *)
Lemma string_token_records_end_line_witness :
  (exists string_value,
     tokens two_line_string_lexed
     = tokens (init two_line_string_source)
       ++ [Token.mk STRING (VStr string_value) 2 1])
  /\ location_of_offset two_line_string_source 0 = (1, 1).
Proof.
  split; [|reflexivity].
  apply (string_token_records_end_line (init two_line_string_source)
           two_line_string_lexed).
  vm_compute. reflexivity.
Defined.
End LexerFacts.

Module EmitFacts.
Import Emit.

Definition count_var : ir.value :=
  ir.GlobalVariable (ir.as_pointer ir.int_type) "allocation_count".
Definition array_var : ir.value :=
  ir.GlobalVariable (ir.as_pointer Lower.ledger_type) "allocation_array".

(** The generator is inside a function and its ledger is the pair of
    globals [generate] creates. *)
Definition tracking (e : t) : Prop :=
  allocation_array e = Some array_var
  /\ allocation_count e = Some count_var
  /\ is_Some (current_function e).

(** The instructions [_track_allocation] emits for a pointer, numbered
    from [k]. *)
Definition track_code (k : nat) (ptr_value : ir.value) : list ir.instruction :=
  [ ir.load k count_var;
    ir.gep (k + 1) array_var [zero64; ir.Register ir.int_type k] true;
    ir.store ptr_value
      (ir.Register (ir.as_pointer (ir.as_pointer ir.char_type)) (k + 1));
    ir.binop (k + 2) ir.add (ir.Register ir.int_type k) one64;
    ir.store (ir.Register ir.int_type (k + 2)) count_var ].

(** The slot [cleanup_i] of the loop counter, when the cleanup starts
    at instruction [k]. *)
Definition i_ptr (k : nat) : ir.value :=
  ir.AllocaInstr (ir.as_pointer ir.int_type) (k + 1).

(** The instructions [_add_memory_cleanup] adds to the block it starts
    in, and its blocks [cleanup_cond] and [cleanup_body]. *)
Definition cleanup_entry (k : nat) : list ir.instruction :=
  [ ir.load k count_var;
    ir.alloca (k + 1) ir.int_type "cleanup_i";
    ir.store zero64 (i_ptr k);
    ir.branch "cleanup_cond" ].

Definition cleanup_cond (k : nat) : list ir.instruction :=
  [ ir.load (k + 2) (i_ptr k);
    ir.icmp (k + 3) ir.signed ir.cmp_lt
      (ir.Register ir.int_type (k + 2)) (ir.Register ir.int_type k);
    ir.cbranch (ir.Register (ir.IntType 1) (k + 3)) "cleanup_body" "cleanup_end" ].

Definition cleanup_body (k : nat) : list ir.instruction :=
  [ ir.gep (k + 4) array_var [zero64; ir.Register ir.int_type (k + 2)] true;
    ir.load (k + 5) (ir.Register (ir.as_pointer ir.string_type) (k + 4));
    ir.call (k + 6) ir.free [ir.Register ir.string_type (k + 5)];
    ir.binop (k + 7) ir.add (ir.Register ir.int_type (k + 2)) one64;
    ir.store (ir.Register ir.int_type (k + 7)) (i_ptr k);
    ir.branch "cleanup_cond" ].

Lemma block_code_append_to (blocks : list (string * list ir.instruction))
    (label : string) (i : ir.instruction) :
  block_code (append_to blocks label i) label = block_code blocks label ++ [i].
Proof.
  induction blocks as [|[l code] blocks IH]; simpl.
  - by rewrite String.eqb_refl.
  - destruct (String.eqb l label) eqn:E; simpl; rewrite E; [done|exact IH].
Qed.

Lemma block_code_append_to_ne (blocks : list (string * list ir.instruction))
    (label other : string) (i : ir.instruction) :
  other <> label ->
  block_code (append_to blocks label i) other = block_code blocks other.
Proof.
  intros Hne. induction blocks as [|[l code] blocks IH]; simpl.
  - apply String.eqb_neq in Hne. rewrite String.eqb_sym in Hne. by rewrite Hne.
  - destruct (String.eqb l label) eqn:E; simpl.
    + apply String.eqb_eq in E as ->.
      apply String.eqb_neq in Hne. rewrite String.eqb_sym in Hne. by rewrite Hne.
    + destruct (String.eqb l other); [done|exact IH].
Qed.

Lemma current_code_emit (e : t) (i : ir.instruction) :
  current_code (emit e i) = current_code e ++ [i].
Proof. apply block_code_append_to. Qed.

Lemma block_code_new_block (blocks : list (string * list ir.instruction))
    (label other : string) :
  block_code (blocks ++ [(label, [])]) other = block_code blocks other.
Proof.
  induction blocks as [|[l code] blocks IH]; simpl.
  - by destruct (String.eqb label other).
  - by destruct (String.eqb l other).
Qed.

Lemma existsb_append_to (blocks : list (string * list ir.instruction))
    (label name : string) (i : ir.instruction) :
  existsb (fun b => String.eqb (fst b) name) (append_to blocks label i)
  = existsb (fun b => String.eqb (fst b) name) blocks || String.eqb label name.
Proof.
  induction blocks as [|[l code] blocks IH]; simpl.
  - by rewrite orb_false_r.
  - destruct (String.eqb l label) eqn:E; simpl.
    + apply String.eqb_eq in E as ->.
      destruct (String.eqb label name); simpl; [done|]. by rewrite orb_false_r.
    + rewrite IH. by rewrite orb_assoc.
Qed.

Lemma label_used_ne (e : t) (label other : string) :
  label_used e label = true -> label_used e other = false ->
  String.eqb label other = false.
Proof.
  intros H1 H2. apply String.eqb_neq. intros ->. congruence.
Qed.

Lemma label_used_emit (e : t) (i : ir.instruction) (name : string) :
  label_used (emit e i) name = label_used e name || String.eqb (block e) name.
Proof. apply existsb_append_to. Qed.

Lemma label_used_with_next_id (e : t) (n : nat) (name : string) :
  label_used (with_next_id e n) name = label_used e name.
Proof. done. Qed.

Lemma label_used_new_block (e : t) (label name : string) :
  label_used (with_blocks e (blocks e ++ [(label, [])])) name
  = label_used e name || String.eqb label name.
Proof. unfold label_used. simpl. rewrite existsb_app. simpl. by rewrite orb_false_r. Qed.

Lemma block_code_unused (e : t) (name : string) :
  label_used e name = false -> block_code (blocks e) name = [].
Proof.
  unfold label_used. induction (blocks e) as [|[l code] bl IH]; simpl; [done|].
  destruct (String.eqb l name); [done|exact IH].
Qed.

Lemma append_basic_block_fresh (e : t) (name : string) :
  label_used e name = false ->
  append_basic_block e name = (name, with_blocks e (blocks e ++ [(name, [])])).
Proof. intros H. unfold append_basic_block. by rewrite H. Qed.

Lemma label_used_emit_same (e : t) (i : ir.instruction) (name : string) :
  label_used e (block e) = true ->
  label_used (emit e i) name = label_used e name.
Proof.
  intros Hb. rewrite label_used_emit.
  destruct (String.eqb (block e) name) eqn:E; [|by rewrite orb_false_r].
  apply String.eqb_eq in E as <-. by rewrite Hb.
Qed.

Lemma current_code_app_emit (e : t) (code : list ir.instruction) (i : ir.instruction) :
  forall e0, current_code e = current_code e0 ++ code ->
  current_code (emit e i) = current_code e0 ++ code ++ [i].
Proof. intros e0 H. by rewrite current_code_emit, H, <- app_assoc. Qed.

Lemma track_allocation_emits (e : t) (ptr_value : ir.value) :
  tracking e ->
  ir.type_of ptr_value = ir.string_type ->
  exists e',
    _track_allocation e ptr_value = Ok e'
    /\ current_code e' = current_code e ++ track_code (next_id e) ptr_value
    /\ next_id e' = next_id e + 3
    /\ block e' = block e
    /\ module_globals e' = module_globals e
    /\ tracking e'
    /\ (forall label, label <> block e -> block_code (blocks e') label
                                              = block_code (blocks e) label)
    /\ (label_used e (block e) = true ->
        forall name, label_used e' name = label_used e name).
Proof.
  intros (Ha & Hc & [f Hf]) Hty.
  unfold _track_allocation. rewrite Ha, Hc, Hf.
  assert (Hnone : ptr_value <> ir.PyNone) by (intros ->; discriminate).
  destruct ptr_value; try done; simpl in Hty; subst ty.
  all: cbn.
  all: eexists; split; [reflexivity|].
  all: cbn.
  all: rewrite !block_code_append_to.
  all: unfold current_code, track_code.
  all: rewrite <- !app_assoc; simpl.
  all: replace (next_id e + 1) with (S (next_id e)) by lia.
  all: replace (next_id e + 2) with (S (S (next_id e))) by lia.
  all: replace (next_id e + 3) with (S (S (S (next_id e)))) by lia.
  all: split; [done|]; split; [done|]; split; [done|]; split; [done|].
  all: split; [by unfold tracking; eauto|].
  all: split; [intros label Hl; rewrite !block_code_append_to_ne by done; done|].
  all: intros Hb other; unfold label_used in *; simpl.
  all: rewrite !existsb_append_to.
  all: destruct (String.eqb (block e) other) eqn:E; rewrite ?orb_false_r; [|done].
  all: apply String.eqb_eq in E as <-; by rewrite Hb.
Qed.

(** A [malloc] of the generator followed by the tracking of its
    result. *)
Lemma malloc_track_emits (e : t) (size_value : ir.value) :
  tracking e ->
  ir.type_of size_value = ir.int_type ->
  label_used e (block e) = true ->
  exists e0 e1,
    builder_call e ir.malloc [size_value] = Ok (ir.Register ir.string_type (next_id e), e0)
    /\ _track_allocation e0 (ir.Register ir.string_type (next_id e)) = Ok e1
    /\ current_code e1
       = current_code e
         ++ ir.call (next_id e) ir.malloc [size_value]
            :: track_code (next_id e + 1) (ir.Register ir.string_type (next_id e))
    /\ next_id e1 = next_id e + 4
    /\ block e1 = block e
    /\ tracking e1
    /\ forall name, label_used e1 name = label_used e name.
Proof.
  intros Htr Hty Hb.
  set (e0 := with_next_id (emit e (ir.call (next_id e) ir.malloc [size_value]))
               (S (next_id e))).
  assert (Hcall : builder_call e ir.malloc [size_value]
                  = Ok (ir.Register ir.string_type (next_id e), e0)).
  { unfold builder_call. simpl. rewrite Hty. done. }
  assert (Htr0 : tracking e0).
  { destruct Htr as (? & ? & ?). by repeat split. }
  destruct (track_allocation_emits e0 (ir.Register ir.string_type (next_id e)) Htr0)
    as (e1 & Htrack & Hcode & Hid & Hblock & _ & Htr1 & _ & Hlabels); [done|].
  exists e0, e1. split; [done|]. split; [done|].
  split; [|split; [|split; [done|split; [done|]]]].
  - rewrite Hcode. unfold e0 at 1. unfold current_code at 1. simpl.
    rewrite block_code_append_to. rewrite <- app_assoc. simpl.
    by replace (next_id e + 1) with (S (next_id e)) by lia.
  - rewrite Hid. simpl. lia.
  - intros name. rewrite Hlabels.
    + unfold e0. rewrite label_used_with_next_id. by apply label_used_emit_same.
    + unfold e0. rewrite label_used_with_next_id.
      change (block (with_next_id _ _)) with (block e).
      by rewrite label_used_emit_same.
Qed.

Ltac fresh_label :=
  unfold label_used; cbn [blocks];
  rewrite ?existsb_app, ?existsb_append_to; cbn [existsb fst];
  repeat match goal with H : _ = false |- _ => rewrite H end;
  reflexivity.

Lemma cleanup_emits (e : t) :
  tracking e ->
  label_used e (block e) = true ->
  label_used e "cleanup_cond" = false ->
  label_used e "cleanup_body" = false ->
  label_used e "cleanup_end" = false ->
  exists e',
    _add_memory_cleanup e = Ok e'
    /\ block_code (blocks e') (block e) = current_code e ++ cleanup_entry (next_id e)
    /\ block_code (blocks e') "cleanup_cond" = cleanup_cond (next_id e)
    /\ block_code (blocks e') "cleanup_body" = cleanup_body (next_id e)
    /\ block_code (blocks e') "cleanup_end" = []
    /\ block e' = "cleanup_end"
    /\ allocation_array e' = None
    /\ allocation_count e' = None
    /\ forall label, label <> block e -> label <> "cleanup_cond" ->
         label <> "cleanup_body" ->
         block_code (blocks e') label = block_code (blocks e) label.
Proof.
  intros (Ha & Hc & _) Hb Hcond Hbody Hend.
  pose proof (label_used_ne _ _ _ Hb Hcond) as Nc.
  pose proof (label_used_ne _ _ _ Hb Hbody) as Nb.
  pose proof (label_used_ne _ _ _ Hb Hend) as Ne.
  pose proof (block_code_unused _ _ Hcond) as Ucond.
  pose proof (block_code_unused _ _ Hbody) as Ubody.
  pose proof (block_code_unused _ _ Hend) as Uend.
  destruct e as [g bl b k cf aa ac ptrs].
  unfold label_used in Hb, Hcond, Hbody, Hend.
  cbn [blocks block allocation_array allocation_count] in *. subst aa ac.
  eexists. split.
  { unfold _add_memory_cleanup.
    lazy -[append_basic_block append_to].
    rewrite append_basic_block_fresh by fresh_label.
    lazy -[append_basic_block append_to app].
    rewrite append_basic_block_fresh by fresh_label.
    lazy -[append_basic_block append_to app].
    rewrite append_basic_block_fresh by fresh_label.
    lazy -[append_basic_block append_to app].
    reflexivity. }
  apply String.eqb_neq in Nc, Nb, Ne.
  assert (Nc' : "cleanup_cond" <> b) by done.
  assert (Nb' : "cleanup_body" <> b) by done.
  unfold cleanup_entry, cleanup_cond, cleanup_body, current_code, i_ptr.
  cbn [blocks block next_id allocation_array allocation_count].
  replace (k + 1) with (S k) by lia.
  replace (k + 2) with (S (S k)) by lia.
  replace (k + 3) with (S (S (S k))) by lia.
  replace (k + 4) with (S (S (S (S k)))) by lia.
  replace (k + 5) with (S (S (S (S (S k))))) by lia.
  replace (k + 6) with (S (S (S (S (S (S k)))))) by lia.
  replace (k + 7) with (S (S (S (S (S (S (S k))))))) by lia.
  repeat split.
  all: try (intros label L1 L2 L3).
  all: repeat first
         [ rewrite block_code_append_to
         | rewrite block_code_append_to_ne by done
         | rewrite block_code_new_block ].
  all: rewrite <- ?app_assoc.
  all: rewrite ?Ucond, ?Ubody, ?Uend.
  all: reflexivity.
Qed.
End EmitFacts.

Module MachineFacts.
Import Machine EmitFacts.

Definition count_block : block := BGlobal "allocation_count".
Definition array_block : block := BGlobal "allocation_array".

(** The value of the counter, when the counter is an object of 8
    bytes. *)
Definition count_cell (s : state) : option val :=
  obj ← mem s !! count_block;
  if decide (size obj = 8%Z) then cells obj !! 0%Z else None.

(** The entry of a slot of the array, when the array is an object of
    100 pointers. *)
Definition slot (s : state) (j : nat) : option val :=
  obj ← mem s !! array_block;
  if decide (size obj = 800%Z) then cells obj !! (8 * Z.of_nat j)%Z else None.

(** [ledger s ps]: the counter holds the length of [ps] and the first
    slots of the array hold the values [ps]. *)
Record ledger (s : state) (ps : list val) : Prop := {
  ledger_count : count_cell s = Some (VInt (Z.of_nat (length ps)));
  ledger_array : size <$> mem s !! array_block = Some 800%Z;
  ledger_room : length ps <= 100;
  ledger_slots : forall j p, ps !! j = Some p -> slot s j = Some p
}.

(** A value whose meaning does not depend on the registers from [k]
    on. *)
Definition stable (k : nat) (v : ir.value) : Prop :=
  match v with
  | ir.Register _ r | ir.AllocaInstr _ r => r < k
  | _ => True
  end.

Lemma eval_set_reg (s : state) (k r : nat) (x : val) (v : ir.value) :
  stable k v -> k <= r -> eval (set_reg s r x) v = eval s v.
Proof.
  intros Hs Hr. destruct v; simpl in *; try done.
  all: rewrite lookup_insert_ne by lia; done.
Qed.

Lemma exec_next (i : ir.instruction) (rest : list ir.instruction) (s s1 : state) :
  step i s = Done (Next, s1) -> exec (i :: rest) s = exec rest s1.
Proof. intros H. simpl. rewrite H. done. Qed.

Lemma exec_jump (i : ir.instruction) (rest : list ir.instruction) (s s1 : state)
    (label : string) :
  step i s = Done (Jump label, s1) -> exec (i :: rest) s = Done (Jump label, s1).
Proof. intros H. simpl. rewrite H. done. Qed.

Lemma access_ok (s : state) (b : block) (offset k : Z) (obj : object) :
  mem s !! b = Some obj ->
  (0 <= offset /\ offset + k <= size obj)%Z ->
  access s (VPtr b offset) k = Done (b, offset, obj).
Proof. intros Hm Hb. unfold access. rewrite Hm. by rewrite decide_True. Qed.

Lemma access_out_of_bounds (s : state) (b : block) (offset k : Z) (obj : object) :
  mem s !! b = Some obj ->
  ~ (0 <= offset /\ offset + k <= size obj)%Z ->
  access s (VPtr b offset) k = Undefined "access out of bounds".
Proof. intros Hm Hb. unfold access. rewrite Hm. by rewrite decide_False. Qed.

Lemma step_load (s : state) (dst : nat) (ptr : ir.value) (ty : ir.type)
    (b : block) (offset k : Z) (obj : object) :
  eval s ptr = Done (VPtr b offset) ->
  ir.type_of ptr = ir.PointerType ty ->
  sizeof ty = Some k ->
  mem s !! b = Some obj ->
  (0 <= offset /\ offset + k <= size obj)%Z ->
  step (ir.load dst ptr) s
  = Done (Next, set_reg s dst (default VUndef (cells obj !! offset))).
Proof.
  intros He Ht Hk Hm Hb. unfold step. rewrite He, Ht. simpl.
  unfold do_load. rewrite Hk. rewrite (access_ok _ _ _ _ _ Hm Hb). done.
Qed.

Lemma step_store (s : state) (value ptr : ir.value) (x : val)
    (b : block) (offset k : Z) (obj : object) :
  eval s value = Done x ->
  eval s ptr = Done (VPtr b offset) ->
  sizeof (ir.type_of value) = Some k ->
  mem s !! b = Some obj ->
  (0 <= offset /\ offset + k <= size obj)%Z ->
  step (ir.store value ptr) s
  = Done (Next,
          set_mem s (<[b := mkobj (size obj) (<[offset := x]> (cells obj))]> (mem s))).
Proof.
  intros Hv He Hk Hm Hb. unfold step. rewrite Hv, He. simpl.
  unfold do_store. rewrite Hk. rewrite (access_ok _ _ _ _ _ Hm Hb). done.
Qed.

Lemma step_store_out_of_bounds (s : state) (value ptr : ir.value) (x : val)
    (b : block) (offset k : Z) (obj : object) :
  eval s value = Done x ->
  eval s ptr = Done (VPtr b offset) ->
  sizeof (ir.type_of value) = Some k ->
  mem s !! b = Some obj ->
  ~ (0 <= offset /\ offset + k <= size obj)%Z ->
  step (ir.store value ptr) s = Undefined "access out of bounds".
Proof.
  intros Hv He Hk Hm Hb. unfold step. rewrite Hv, He. simpl.
  unfold do_store. rewrite Hk. rewrite (access_out_of_bounds _ _ _ _ _ Hm Hb). done.
Qed.

Lemma step_gep (s : state) (dst : nat) (ptr : ir.value) (indices : list ir.value)
    (inbounds : bool) (b : block) (offset k : Z) (xs : list val) (ns : list Z) :
  eval s ptr = Done (VPtr b offset) ->
  eval_all s indices = Done xs ->
  ints xs = Some ns ->
  gep_offset (ir.type_of ptr) ns = Some k ->
  step (ir.gep dst ptr indices inbounds) s
  = Done (Next, set_reg s dst (VPtr b (offset + k))).
Proof.
  intros He Hx Hn Hk. unfold step. rewrite He, Hx. simpl. rewrite Hn, Hk. done.
Qed.

Lemma step_binop (s : state) (dst : nat) (op : ir.opcode) (lhs rhs : ir.value)
    (x y w z : Z) :
  eval s lhs = Done (VInt x) ->
  eval s rhs = Done (VInt y) ->
  width_of (ir.type_of lhs) = Some w ->
  do_binop op w x y = Done z ->
  step (ir.binop dst op lhs rhs) s = Done (Next, set_reg s dst (VInt z)).
Proof.
  intros Hl Hr Hw Hz. unfold step. rewrite Hl, Hr. simpl. rewrite Hw, Hz. done.
Qed.

Lemma eval_register (s : state) (ty : ir.type) (r : nat) (x : val) :
  regs s !! r = Some x -> eval s (ir.Register ty r) = Done x.
Proof. intros H. simpl. by rewrite H. Qed.

Lemma eval_i_ptr (s : state) (k : nat) (x : val) :
  regs s !! (k + 1) = Some x -> eval s (i_ptr k) = Done x.
Proof. intros H. unfold i_ptr. simpl. by rewrite H. Qed.

Lemma wrap_small (w n : Z) : (0 <= n < 2 ^ w)%Z -> wrap w n = n.
Proof. intros H. unfold wrap. by apply Z.mod_small. Qed.

Lemma track_runs (s : state) (ps : list val) (k : nat) (ptr_value : ir.value) (p : val) :
  ledger s ps ->
  length ps < 100 ->
  ir.type_of ptr_value = ir.string_type ->
  stable k ptr_value ->
  eval s ptr_value = Done p ->
  exists s',
    exec (track_code k ptr_value) s = Done (Next, s')
    /\ ledger s' (ps ++ [p])
    /\ trace s' = trace s
    /\ next_heap s' = next_heap s
    /\ (forall b, b <> count_block -> b <> array_block -> mem s' !! b = mem s !! b)
    /\ (forall r, r < k -> regs s' !! r = regs s !! r).
Proof.
  intros [Hcount Harr Hroom Hslots] Hlt Hty Hst Hp.
  unfold count_cell in Hcount.
  destruct (mem s !! count_block) as [cobj|] eqn:Hc; [|done]. simpl in Hcount.
  destruct (decide (size cobj = 8%Z)) as [Hcs|]; [|done].
  destruct (mem s !! array_block) as [aobj|] eqn:Ha; [|done].
  simpl in Harr. injection Harr as Has.
  set (n := Z.of_nat (length ps)) in *.
  unfold track_code.
  (* count_ptr = load allocation_count *)
  erewrite exec_next; cycle 1.
  { eapply (step_load s _ _ _ count_block 0 8 cobj);
      [reflexivity|reflexivity|reflexivity|exact Hc|].
    rewrite Hcs. lia. }
  rewrite Hcount. simpl default.
  set (s1 := set_reg s k (VInt n)).
  (* array_elem_ptr = gep allocation_array [0, count_ptr] *)
  erewrite exec_next; cycle 1.
  { eapply (step_gep s1 _ _ _ _ array_block 0 _ [VInt 0; VInt n] [0%Z; n]).
    - reflexivity.
    - simpl. by rewrite lookup_insert_eq.
    - reflexivity.
    - reflexivity. }
  set (s2 := set_reg s1 (k + 1) _).
  (* store ptr_value, array_elem_ptr *)
  erewrite exec_next; cycle 1.
  { eapply (step_store s2 _ _ p array_block _ 8 aobj).
    - unfold s2, s1. rewrite !(eval_set_reg _ k) by (done || lia). exact Hp.
    - apply eval_register. simpl. by rewrite lookup_insert_eq.
    - by rewrite Hty.
    - exact Ha.
    - rewrite Has. cbn. lia. }
  set (s3 := set_mem s2 _).
  (* new_count = add count_ptr, 1 *)
  erewrite exec_next; cycle 1.
  { eapply (step_binop s3 _ _ _ _ n 1 64 (n + 1)).
    - apply eval_register. simpl. rewrite lookup_insert_ne by lia.
      by rewrite lookup_insert_eq.
    - reflexivity.
    - reflexivity.
    - simpl. rewrite wrap_small; [done|]. lia. }
  set (s4 := set_reg s3 (k + 2) _).
  (* store new_count, allocation_count *)
  erewrite exec_next; cycle 1.
  { eapply (step_store s4 _ _ (VInt (n + 1)) count_block 0 8 cobj).
    - apply eval_register. simpl. by rewrite lookup_insert_eq.
    - reflexivity.
    - reflexivity.
    - simpl. rewrite lookup_insert_ne by done. exact Hc.
    - rewrite Hcs. cbn. lia. }
  eexists. split; [reflexivity|]. simpl.
  split; [|split; [done|split; [done|split]]].
  - split.
    + unfold count_cell. simpl. rewrite lookup_insert_eq. simpl.
      rewrite decide_True by done. rewrite lookup_insert_eq.
      rewrite length_app. simpl. do 2 f_equal. lia.
    + simpl. rewrite lookup_insert_ne by done. rewrite lookup_insert_eq. simpl.
      by rewrite Has.
    + rewrite length_app. simpl. lia.
    + intros j q Hq. unfold slot. simpl.
      rewrite lookup_insert_ne by done. rewrite lookup_insert_eq. simpl.
      rewrite decide_True by done.
      apply lookup_app_Some in Hq as [Hq|[Hge Hq]].
      * pose proof (lookup_lt_Some _ _ _ Hq) as Hj.
        rewrite lookup_insert_ne by lia.
        specialize (Hslots j q Hq). unfold slot in Hslots. rewrite Ha in Hslots.
        simpl in Hslots. by rewrite decide_True in Hslots.
      * apply list_lookup_singleton_Some in Hq as [Hj <-].
        replace (8 * Z.of_nat j)%Z with (0 + (0 * 800 + (n * 8 + 0)))%Z by lia.
        by rewrite lookup_insert_eq.
  - intros b Hb1 Hb2. by rewrite !lookup_insert_ne.
  - intros r Hr. by rewrite !lookup_insert_ne by lia.
Qed.

Lemma exec_stops (i : ir.instruction) (rest : list ir.instruction) (s : state)
    (reason : string) :
  step i s = Undefined reason -> exec (i :: rest) s = Undefined reason.
Proof. intros H. simpl. rewrite H. done. Qed.

Lemma track_overflows (s : state) (ps : list val) (k : nat) (ptr_value : ir.value)
    (p : val) :
  ledger s ps ->
  length ps = 100 ->
  ir.type_of ptr_value = ir.string_type ->
  stable k ptr_value ->
  eval s ptr_value = Done p ->
  exec (track_code k ptr_value) s = Undefined "access out of bounds".
Proof.
  intros [Hcount Harr Hroom Hslots] Hlen Hty Hst Hp.
  unfold count_cell in Hcount.
  destruct (mem s !! count_block) as [cobj|] eqn:Hc; [|done]. simpl in Hcount.
  destruct (decide (size cobj = 8%Z)) as [Hcs|]; [|done].
  destruct (mem s !! array_block) as [aobj|] eqn:Ha; [|done].
  simpl in Harr. injection Harr as Has.
  set (n := Z.of_nat (length ps)) in *.
  unfold track_code.
  erewrite exec_next; cycle 1.
  { eapply (step_load s _ _ _ count_block 0 8 cobj);
      [reflexivity|reflexivity|reflexivity|exact Hc|].
    rewrite Hcs. lia. }
  rewrite Hcount. simpl default.
  set (s1 := set_reg s k (VInt n)).
  erewrite exec_next; cycle 1.
  { eapply (step_gep s1 _ _ _ _ array_block 0 _ [VInt 0; VInt n] [0%Z; n]).
    - reflexivity.
    - simpl. by rewrite lookup_insert_eq.
    - reflexivity.
    - reflexivity. }
  set (s2 := set_reg s1 (k + 1) _).
  apply exec_stops.
  eapply (step_store_out_of_bounds s2 _ _ p array_block _ 8 aobj).
  - unfold s2, s1. rewrite !(eval_set_reg _ k) by (done || lia). exact Hp.
  - apply eval_register. simpl. by rewrite lookup_insert_eq.
  - by rewrite Hty.
  - exact Ha.
  - rewrite Has. lia.
Qed.

Definition heap_ptr (id : nat) : val := VPtr (BHeap id) 0.

(** [owned s ids]: the ledger holds the pointers to the heap blocks
    [ids], which are distinct, live, and older than the next block
    [malloc] returns. *)
Record owned (s : state) (ids : list nat) : Prop := {
  owned_ledger : ledger s (heap_ptr <$> ids);
  owned_nodup : NoDup ids;
  owned_live : forall id, id ∈ ids -> is_Some (mem s !! BHeap id) /\ id < next_heap s
}.

Lemma step_malloc (s : state) (dst : nat) (size_value : ir.value) (n : Z) :
  eval s size_value = Done (VInt n) ->
  step (ir.call dst ir.malloc [size_value]) s
  = Done (Next,
          set_reg (mkstate (regs s) (<[BHeap (next_heap s) := mkobj n ∅]> (mem s))
                     (S (next_heap s)) (trace s ++ [Malloc n (next_heap s)]))
            dst (heap_ptr (next_heap s))).
Proof. intros H. unfold step. simpl. rewrite H. done. Qed.

Lemma step_free (s : state) (dst : nat) (ptr : ir.value) (id : nat) :
  eval s ptr = Done (heap_ptr id) ->
  is_Some (mem s !! BHeap id) ->
  step (ir.call dst ir.free [ptr]) s
  = Done (Next,
          set_reg (mkstate (regs s) (delete (BHeap id) (mem s)) (next_heap s)
                     (trace s ++ [Free id]))
            dst VUndef).
Proof.
  intros H [obj Hobj]. unfold step. simpl. rewrite H. simpl.
  unfold do_call. simpl. rewrite Hobj. done.
Qed.

Lemma ledger_frame (s s' : state) (ps : list val) :
  mem s' !! count_block = mem s !! count_block ->
  mem s' !! array_block = mem s !! array_block ->
  ledger s ps -> ledger s' ps.
Proof.
  intros Hc Ha [H1 H2 H3 H4]. split.
  - unfold count_cell. by rewrite Hc.
  - by rewrite Ha.
  - done.
  - intros j p Hp. unfold slot. rewrite Ha. by apply H4.
Qed.

(** A [malloc] and the tracking of its result: the ledger owns one
    more block. *)
Lemma malloc_tracked (s : state) (ids : list nat) (k : nat) (size_value : ir.value)
    (n : Z) :
  owned s ids ->
  length ids < 100 ->
  eval s size_value = Done (VInt n) ->
  exists s',
    exec (ir.call k ir.malloc [size_value]
            :: track_code (k + 1) (ir.Register ir.string_type k)) s
    = Done (Next, s')
    /\ owned s' (ids ++ [next_heap s])
    /\ trace s' = trace s ++ [Malloc n (next_heap s)]
    /\ next_heap s' = S (next_heap s).
Proof.
  intros [Hl Hnd Hlive] Hlen Hsize.
  erewrite exec_next by (by apply step_malloc).
  set (s1 := set_reg _ k _).
  assert (Hl1 : ledger s1 (heap_ptr <$> ids)).
  { eapply ledger_frame; [| |exact Hl]; simpl; by rewrite lookup_insert_ne. }
  destruct (track_runs s1 (heap_ptr <$> ids) (k + 1) (ir.Register ir.string_type k)
              (heap_ptr (next_heap s)))
    as (s' & Hexec & Hl' & Htr & Hnh & Hmem & Hregs).
  - done.
  - by rewrite length_fmap.
  - done.
  - simpl. lia.
  - apply eval_register. simpl. by rewrite lookup_insert_eq.
  - exists s'. split; [done|]. split; [|by rewrite Htr, Hnh].
    split.
    + by rewrite fmap_app.
    + apply NoDup_app. split; [done|]. split; [|apply NoDup_singleton].
      intros id Hid ->%list_elem_of_singleton. apply Hlive in Hid. lia.
    + intros id [Hid| ->%list_elem_of_singleton]%elem_of_app; rewrite Hnh; simpl.
      * destruct (Hlive id Hid) as [Hsome Hlt]. split; [|lia].
        rewrite Hmem by done. simpl. rewrite lookup_insert_ne; [done|].
        intros [= Heq]. lia.
      * split; [|lia]. rewrite Hmem by done. simpl. by rewrite lookup_insert_eq.
Qed.

Lemma step_icmp (s : state) (dst : nat) (kind : ir.icmp_kind) (op : ir.cmpop)
    (lhs rhs : ir.value) (a b x : val) :
  eval s lhs = Done a ->
  eval s rhs = Done b ->
  do_icmp kind op (ir.type_of lhs) a b = Done x ->
  step (ir.icmp dst kind op lhs rhs) s = Done (Next, set_reg s dst x).
Proof. intros Ha Hb Hx. unfold step. rewrite Ha, Hb. simpl. rewrite Hx. done. Qed.

Lemma step_cbranch (s : state) (cond : ir.value) (truebr falsebr : string) (x : Z) :
  eval s cond = Done (VInt x) ->
  step (ir.cbranch cond truebr falsebr) s
  = Done (Jump (if decide (x = 0%Z) then falsebr else truebr), s).
Proof. intros H. unfold step. rewrite H. done. Qed.

Lemma exec_last (i : ir.instruction) (s s1 : state) (label : string) :
  step i s = Done (Jump label, s1) -> exec [i] s = Done (Jump label, s1).
Proof. apply exec_jump. Qed.

Lemma to_signed_small (n : Z) : (0 <= n <= 100)%Z -> to_signed 64 n = n.
Proof.
  intros H. unfold to_signed.
  destruct (Z.ltb_spec n (2 ^ (64 - 1))) as [_|Hge]; [done|].
  change (2 ^ (64 - 1))%Z with 9223372036854775808%Z in Hge. lia.
Qed.

(** The state of the cleanup loop of [_add_memory_cleanup] at its
    condition, with [j] entries of the ledger freed: [k] numbers the
    first instruction of the cleanup and [t0] is the trace the cleanup
    started from. *)
Record sweeping (k : nat) (s : state) (ids : list nat) (j : nat)
    (t0 : list event) : Prop := {
  sweep_count : regs s !! k = Some (VInt (Z.of_nat (length ids)));
  sweep_i_ptr : regs s !! (k + 1) = Some (VPtr (BStack (k + 1)) 0);
  sweep_i : exists obj, mem s !! BStack (k + 1) = Some obj /\ size obj = 8%Z
                        /\ cells obj !! 0%Z = Some (VInt (Z.of_nat j));
  sweep_array : size <$> mem s !! array_block = Some 800%Z;
  sweep_slots : forall i id, ids !! i = Some id -> slot s i = Some (heap_ptr id);
  sweep_room : length ids <= 100;
  sweep_nodup : NoDup ids;
  sweep_live : forall i id, ids !! i = Some id -> j <= i -> is_Some (mem s !! BHeap id);
  sweep_freed : forall i id, ids !! i = Some id -> i < j -> mem s !! BHeap id = None;
  sweep_trace : trace s = t0 ++ (Free <$> take j ids)
}.

Lemma sweep_enter (k : nat) (s : state) (ids : list nat) :
  owned s ids ->
  exists s',
    exec (cleanup_entry k) s = Done (Jump "cleanup_cond", s')
    /\ sweeping k s' ids 0 (trace s).
Proof.
  intros [[Hcount Harr Hroom Hslots] Hnd Hlive].
  rewrite length_fmap in Hcount, Hroom.
  unfold count_cell in Hcount.
  destruct (mem s !! count_block) as [cobj|] eqn:Hc; [|done]. simpl in Hcount.
  destruct (decide (size cobj = 8%Z)) as [Hcs|]; [|done].
  unfold cleanup_entry.
  erewrite exec_next; cycle 1.
  { eapply (step_load s _ _ _ count_block 0 8 cobj);
      [reflexivity|reflexivity|reflexivity|exact Hc|].
    rewrite Hcs. lia. }
  rewrite Hcount. simpl default.
  set (s1 := set_reg s k _).
  erewrite exec_next by reflexivity.
  set (s2 := set_reg _ (k + 1) _).
  erewrite exec_next; cycle 1.
  { eapply (step_store s2 _ _ (VInt 0) (BStack (k + 1)) 0 8 (mkobj 8 ∅)).
    - reflexivity.
    - apply eval_i_ptr. simpl. by rewrite lookup_insert_eq.
    - reflexivity.
    - simpl. by rewrite lookup_insert_eq.
    - simpl. lia. }
  eexists. split; [reflexivity|]. split; simpl.
  - rewrite lookup_insert_ne by lia. by rewrite lookup_insert_eq.
  - by rewrite lookup_insert_eq.
  - eexists. rewrite lookup_insert_eq. split; [done|]. split; [done|].
    simpl. by rewrite lookup_insert_eq.
  - by rewrite !lookup_insert_ne.
  - intros i id Hi. unfold slot. simpl. rewrite !lookup_insert_ne by done.
    apply (Hslots i). by rewrite list_lookup_fmap, Hi.
  - done.
  - done.
  - intros i id Hi _. rewrite !lookup_insert_ne by done.
    apply Hlive. by eapply list_elem_of_lookup_2.
  - intros i id _ Hlt. lia.
  - by rewrite app_nil_r.
Qed.

Lemma sweep_step (k : nat) (s : state) (ids : list nat) (j : nat) (t0 : list event) :
  sweeping k s ids j t0 ->
  j < length ids ->
  exists s1 s',
    exec (cleanup_cond k) s = Done (Jump "cleanup_body", s1)
    /\ exec (cleanup_body k) s1 = Done (Jump "cleanup_cond", s')
    /\ sweeping k s' ids (S j) t0.
Proof.
  intros [Hcount Hip (iobj & Hi & His & Hiv) Harr Hslots Hroom Hnd Hlive Hfreed Htr] Hlt.
  destruct (lookup_lt_is_Some_2 ids j Hlt) as [id Hid].
  destruct (mem s !! array_block) as [aobj|] eqn:Ha; [|done].
  simpl in Harr. injection Harr as Has.
  pose proof (Hslots j id Hid) as Hslot. unfold slot in Hslot.
  rewrite Ha in Hslot. simpl in Hslot. rewrite decide_True in Hslot by done.
  set (n := Z.of_nat (length ids)) in *.
  set (z := Z.of_nat j) in *.
  (* the condition *)
  unfold cleanup_cond.
  erewrite exec_next; cycle 1.
  { eapply (step_load s _ _ _ (BStack (k + 1)) 0 8 iobj).
    - by apply eval_i_ptr.
    - reflexivity.
    - reflexivity.
    - exact Hi.
    - rewrite His. lia. }
  rewrite Hiv. simpl default.
  set (s1 := set_reg s (k + 2) _).
  erewrite exec_next; cycle 1.
  { eapply (step_icmp s1 _ _ _ _ _ (VInt z) (VInt n)).
    - apply eval_register. simpl. by rewrite lookup_insert_eq.
    - apply eval_register. simpl. rewrite lookup_insert_ne by lia. exact Hcount.
    - simpl. rewrite !to_signed_small by lia. reflexivity. }
  set (s2 := set_reg s1 (k + 3) _).
  erewrite exec_last; cycle 1.
  { eapply (step_cbranch s2 _ _ _ _).
    apply eval_register. simpl. by rewrite lookup_insert_eq. }
  destruct (Z.ltb_spec z n) as [_|]; [|lia].
  exists s2. eexists. split; [reflexivity|].
  (* the body *)
  unfold cleanup_body.
  erewrite exec_next; cycle 1.
  { eapply (step_gep s2 _ _ _ _ array_block 0 _ [VInt 0; VInt z] [0%Z; z]).
    - reflexivity.
    - simpl. rewrite lookup_insert_ne by lia. by rewrite lookup_insert_eq.
    - reflexivity.
    - reflexivity. }
  set (s3 := set_reg s2 (k + 4) _).
  erewrite exec_next; cycle 1.
  { eapply (step_load s3 _ _ _ array_block (8 * z) 8 aobj).
    - apply eval_register. simpl. rewrite lookup_insert_eq. do 2 f_equal. lia.
    - reflexivity.
    - reflexivity.
    - exact Ha.
    - rewrite Has. lia. }
  rewrite Hslot. simpl default.
  set (s4 := set_reg s3 (k + 5) _).
  erewrite exec_next; cycle 1.
  { eapply (step_free s4 _ _ id).
    - apply eval_register. simpl. by rewrite lookup_insert_eq.
    - simpl. by apply (Hlive j). }
  set (s5 := set_reg _ (k + 6) _).
  erewrite exec_next; cycle 1.
  { eapply (step_binop s5 _ _ _ _ z 1 64 (z + 1)).
    - apply eval_register. simpl. rewrite !lookup_insert_ne by lia.
      by rewrite lookup_insert_eq.
    - reflexivity.
    - reflexivity.
    - simpl. rewrite wrap_small; [done|]. lia. }
  set (s6 := set_reg s5 (k + 7) _).
  erewrite exec_next; cycle 1.
  { eapply (step_store s6 _ _ (VInt (z + 1)) (BStack (k + 1)) 0 8 iobj).
    - apply eval_register. simpl. by rewrite lookup_insert_eq.
    - apply eval_i_ptr. simpl. rewrite !lookup_insert_ne by lia. exact Hip.
    - reflexivity.
    - simpl. rewrite lookup_delete_ne by done. exact Hi.
    - rewrite His. lia. }
  split; [reflexivity|].
  split; simpl.
  - rewrite !lookup_insert_ne by lia. exact Hcount.
  - rewrite !lookup_insert_ne by lia. exact Hip.
  - eexists. rewrite lookup_insert_eq. split; [done|]. split; [done|].
    simpl. rewrite lookup_insert_eq. do 2 f_equal. lia.
  - rewrite lookup_insert_ne by done. rewrite lookup_delete_ne by done.
    rewrite Ha. simpl. by rewrite Has.
  - intros i id' Hi'. unfold slot. simpl.
    rewrite lookup_insert_ne by done. rewrite lookup_delete_ne by done.
    specialize (Hslots i id' Hi'). by unfold slot in Hslots.
  - done.
  - done.
  - intros i id' Hi' Hle. rewrite lookup_insert_ne by done.
    rewrite lookup_delete_ne.
    + apply (Hlive i); [done|lia].
    + intros [= ->]. pose proof (NoDup_lookup _ _ _ _ Hnd Hid Hi'). lia.
  - intros i id' Hi' Hlt'. rewrite lookup_insert_ne by done.
    destruct (decide (i = j)) as [->|Hne].
    + rewrite Hid in Hi'. injection Hi' as <-. by rewrite lookup_delete_eq.
    + rewrite lookup_delete_ne.
      * apply (Hfreed i); [done|lia].
      * intros [= ->]. pose proof (NoDup_lookup _ _ _ _ Hnd Hid Hi'). lia.
  - rewrite Htr. rewrite (take_S_r _ _ _ Hid). rewrite fmap_app. simpl.
    by rewrite app_assoc.
Qed.

Lemma sweep_exit (k : nat) (s : state) (ids : list nat) (t0 : list event) :
  sweeping k s ids (length ids) t0 ->
  exists s',
    exec (cleanup_cond k) s = Done (Jump "cleanup_end", s')
    /\ trace s' = t0 ++ (Free <$> ids)
    /\ mem s' = mem s
    /\ next_heap s' = next_heap s.
Proof.
  intros [Hcount Hip (iobj & Hi & His & Hiv) Harr Hslots Hroom Hnd Hlive Hfreed Htr].
  set (n := Z.of_nat (length ids)) in *.
  unfold cleanup_cond.
  erewrite exec_next; cycle 1.
  { eapply (step_load s _ _ _ (BStack (k + 1)) 0 8 iobj).
    - by apply eval_i_ptr.
    - reflexivity.
    - reflexivity.
    - exact Hi.
    - rewrite His. lia. }
  rewrite Hiv. simpl default.
  set (s1 := set_reg s (k + 2) _).
  erewrite exec_next; cycle 1.
  { eapply (step_icmp s1 _ _ _ _ _ (VInt n) (VInt n)).
    - apply eval_register. simpl. by rewrite lookup_insert_eq.
    - apply eval_register. simpl. rewrite lookup_insert_ne by lia. exact Hcount.
    - simpl. rewrite !to_signed_small by lia. reflexivity. }
  set (s2 := set_reg s1 (k + 3) _).
  erewrite exec_last; cycle 1.
  { eapply (step_cbranch s2 _ _ _ _).
    apply eval_register. simpl. by rewrite lookup_insert_eq. }
  rewrite Z.ltb_irrefl. simpl.
  eexists. split; [reflexivity|]. simpl.
  rewrite Htr. by rewrite firstn_all.
Qed.

(** The loop, run from its condition to its end. *)
Lemma sweep_run (blocks : list (string * list ir.instruction)) (k : nat)
    (ids : list nat) (t0 : list event) (remaining : nat) :
  Emit.block_code blocks "cleanup_cond" = cleanup_cond k ->
  Emit.block_code blocks "cleanup_body" = cleanup_body k ->
  forall (j : nat) (s : state),
    sweeping k s ids j t0 ->
    j + remaining = length ids ->
    exists s',
      (forall fuel, run (2 * remaining + 1 + fuel) blocks "cleanup_cond" s
                    = run fuel blocks "cleanup_end" s')
      /\ trace s' = t0 ++ (Free <$> ids)
      /\ (forall id, id ∈ ids -> mem s' !! BHeap id = None).
Proof.
  intros Hcond Hbody. induction remaining as [|remaining IH]; intros j s Hs Hj.
  - replace j with (length ids) in Hs by lia.
    destruct (sweep_exit _ _ _ _ Hs) as (s' & Hexec & Htr & Hmem & _).
    exists s'. split; [|split; [done|]].
    + intros fuel. simpl. rewrite Hcond, Hexec. done.
    + intros id [i Hi]%list_elem_of_lookup. rewrite Hmem.
      apply (sweep_freed _ _ _ _ _ Hs i); [done|]. by eapply lookup_lt_Some.
  - destruct (sweep_step _ _ _ _ _ Hs) as (s1 & s2 & He1 & He2 & Hs2); [lia|].
    destruct (IH (S j) s2 Hs2) as (s' & Hrun & Hrest); [lia|].
    exists s'. split; [|done].
    intros fuel.
    replace (2 * S remaining + 1 + fuel) with (S (S (2 * remaining + 1 + fuel))) by lia.
    cbn [run]. rewrite Hcond, He1. cbn [mbind outcome_bind]. rewrite Hbody, He2.
    cbn [mbind outcome_bind]. apply Hrun.
Qed.

(** The generator at the start of [main] with the two globals of the
    ledger, and the memory [main] starts with. *)
Definition ledger_globals : list Emit.global_def :=
  [ Emit.VariableDef "allocation_array" Lower.ledger_type ir.CNone;
    Emit.VariableDef "allocation_count" ir.int_type (ir.CInt 0) ].

Definition main_entry : Emit.t :=
  Emit.mk ledger_globals [("entry", [])] "entry" 0 (Some "main")
    (Some array_var) (Some count_var) [].

Definition sixteen : ir.value := ir.Constant ir.int_type (ir.CInt 16).

Lemma owned_initial : owned (initial ledger_globals) [].
Proof.
  split.
  - split.
    + vm_compute. reflexivity.
    + vm_compute. reflexivity.
    + simpl. lia.
    + intros j p H. discriminate H.
  - apply NoDup_nil_2.
  - intros id H. by apply elem_of_nil in H.
Qed.

(** C2 (amended): while the ledger holds fewer than 100 pointers, a
    [malloc] of the generator and the tracking of its result emit the
    call and the five tracking instructions, and running them stores
    the new pointer in the slot at the counter and increments the
    counter, so that the ledger owns one more block, distinct from the
    others.  The cleanup the generator then emits has the blocks
    [cleanup_cond] and [cleanup_body]; run from a state in which the
    ledger owns the blocks [ids2], it reaches [cleanup_end] after
    calling [free] once on each of them, in the order of the ledger,
    and leaves none of them allocated. *)
Theorem tracked_allocations_freed_once (e : Emit.t) (size_value : ir.value) (n : Z)
    (s : state) (ids : list nat) :
  tracking e ->
  ir.type_of size_value = ir.int_type ->
  Emit.label_used e (Emit.block e) = true ->
  Emit.label_used e "cleanup_cond" = false ->
  Emit.label_used e "cleanup_body" = false ->
  Emit.label_used e "cleanup_end" = false ->
  owned s ids ->
  length ids < 100 ->
  eval s size_value = Done (VInt n) ->
  exists (e0 e1 e2 : Emit.t) (s1 : state),
    let ptr := ir.Register ir.string_type (Emit.next_id e) in
    let code := ir.call (Emit.next_id e) ir.malloc [size_value]
                  :: track_code (Emit.next_id e + 1) ptr in
    Emit.builder_call e ir.malloc [size_value] = Ok (ptr, e0)
    /\ Emit._track_allocation e0 ptr = Ok e1
    /\ Emit.current_code e1 = Emit.current_code e ++ code
    /\ exec code s = Done (Next, s1)
    /\ owned s1 (ids ++ [next_heap s])
    /\ trace s1 = trace s ++ [Malloc n (next_heap s)]
    /\ Emit._add_memory_cleanup e1 = Ok e2
    /\ Emit.block_code (Emit.blocks e2) (Emit.block e)
       = Emit.current_code e1 ++ cleanup_entry (Emit.next_id e1)
    /\ Emit.block_code (Emit.blocks e2) "cleanup_cond" = cleanup_cond (Emit.next_id e1)
    /\ Emit.block_code (Emit.blocks e2) "cleanup_body" = cleanup_body (Emit.next_id e1)
    /\ forall (blocks : list (string * list ir.instruction)) (s2 : state)
              (ids2 : list nat),
         Emit.block_code blocks "cleanup_cond" = cleanup_cond (Emit.next_id e1) ->
         Emit.block_code blocks "cleanup_body" = cleanup_body (Emit.next_id e1) ->
         owned s2 ids2 ->
         exists s3 s4 : state,
           exec (cleanup_entry (Emit.next_id e1)) s2 = Done (Jump "cleanup_cond", s3)
           /\ (forall fuel,
                 run (2 * length ids2 + 1 + fuel) blocks "cleanup_cond" s3
                 = run fuel blocks "cleanup_end" s4)
           /\ trace s4 = trace s2 ++ (Free <$> ids2)
           /\ NoDup ids2
           /\ forall id, id ∈ ids2 -> mem s4 !! BHeap id = None.
Proof.
  intros Htr Hty Hb Hcond Hbody Hend Hown Hlen Hsize.
  destruct (malloc_track_emits e size_value Htr Hty Hb)
    as (e0 & e1 & Hcall & Htrack & Hcode & Hid & Hblock & Htr1 & Hlabels).
  destruct (malloc_tracked s ids (Emit.next_id e) size_value n Hown Hlen Hsize)
    as (s1 & Hexec & Hown1 & Htrace & _).
  destruct (cleanup_emits e1 Htr1)
    as (e2 & Hclean & Hentry & Hc & Hbd & _); rewrite ?Hblock, ?Hlabels; try done.
  exists e0, e1, e2, s1. cbv zeta.
  split; [done|]. split; [done|]. split; [done|]. split; [done|].
  split; [done|]. split; [done|]. split; [done|].
  split; [by rewrite <- Hblock|]. split; [done|]. split; [done|].
  intros blocks s2 ids2 Hbc Hbb Hown2.
  destruct (sweep_enter (Emit.next_id e1) s2 ids2 Hown2) as (s3 & Henter & Hsweep).
  destruct (sweep_run blocks (Emit.next_id e1) ids2 (trace s2) (length ids2) Hbc Hbb
              0 s3 Hsweep) as (s4 & Hrun & Htr4 & Hfreed); [done|].
  exists s3, s4. split; [done|]. split; [done|]. split; [done|].
  split; [apply Hown2|done].
Qed.

Lemma tracked_allocations_freed_once_witness :
  exists (e0 e1 e2 : Emit.t) (s1 : state),
    Emit._track_allocation e0 (ir.Register ir.string_type 0) = Ok e1
    /\ Emit._add_memory_cleanup e1 = Ok e2
    /\ owned s1 [0]
    /\ trace s1 = [Malloc 16 0].
Proof.
  destruct (tracked_allocations_freed_once main_entry sixteen 16
              (initial ledger_globals) [])
    as (e0 & e1 & e2 & s1 & H).
  - split; [reflexivity|split; [reflexivity|by eexists]].
  - reflexivity.
  - reflexivity.
  - reflexivity.
  - reflexivity.
  - reflexivity.
  - exact owned_initial.
  - simpl. lia.
  - reflexivity.
  - cbv zeta in H. destruct H as (_ & Ht & _ & _ & Ho & Htr & Hc & _).
    exists e0, e1, e2, s1. split; [exact Ht|]. split; [exact Hc|].
    split; [exact Ho|exact Htr].
Defined.

(** The program of [count] statements [zeros(2)], lowered without the
    lowerings outside the model. *)
Definition unsupported_expression (n : Ast.node) (expected : option ir.type)
    (e : Emit.t) : result (ir.value * Emit.t) :=
  Raise (NotImplementedError "expression").

Definition unsupported_statement (n : Ast.node) (e : Emit.t) : result Emit.t :=
  Raise (NotImplementedError "statement").

Definition zeros_program (count : nat) : list Ast.node :=
  repeat (Ast.ZerosNode 2 Ast.IntType) count.

Definition run_zeros (count : nat) : result (outcome (val * list event)) :=
  e ← Lower.generate_main unsupported_expression unsupported_statement
        unsupported_statement false (Emit.FunctionDecl <$> ir.external_functions)
        (zeros_program count);
  Ok ('(x, s) ← run_main 1000 e; Done (x, trace s)).

(** Against C2 as stated: with 101 tracked allocations at top level
    the 101st pointer is stored outside the 100 slots of the array,
    which is undefined behaviour; with 100 the run frees them all. *)
Lemma ledger_overflow_counterexample :
  run_zeros 101 = Ok (Undefined "access out of bounds")
  /\ run_zeros 2 = Ok (Done (VInt 0, [Malloc 16 0; Malloc 16 1; Free 0; Free 1])).
Proof. split; vm_compute; reflexivity. Qed.
End MachineFacts.

Module LowerFacts.
Import Ast Emit Lower EmitFacts.


(** The instructions the [+] of two strings emits, numbered from
    [k]; the result is the register [k + 4]. *)
Definition concat_code (k : nat) (lhs rhs : ir.value) : list ir.instruction :=
  [ ir.call k ir.strlen [lhs];
    ir.call (k + 1) ir.strlen [rhs];
    ir.binop (k + 2) ir.add (ir.Register ir.int_type k) (ir.Register ir.int_type (k + 1));
    ir.binop (k + 3) ir.add (ir.Register ir.int_type (k + 2)) one64;
    ir.call (k + 4) ir.malloc [ir.Register ir.int_type (k + 3)] ]
  ++ track_code (k + 5) (ir.Register ir.string_type (k + 4))
  ++ [ ir.call (k + 8) ir.strcpy [ir.Register ir.string_type (k + 4); lhs];
       ir.call (k + 9) ir.strcat [ir.Register ir.string_type (k + 4); rhs] ].









Lemma type_eqb_string (ty : ir.type) :
  ir.type_eqb ty ir.string_type = true -> ty = ir.string_type.
Proof.
  destruct ty as [| | |pointee| |]; simpl; try discriminate.
  destruct pointee as [w| | | | |]; simpl; try discriminate.
  intros H. apply Z.eqb_eq in H. by subst w.
Qed.

Lemma is_string_type (v : ir.value) :
  is_string v = true -> ir.type_of v = ir.string_type.
Proof. apply type_eqb_string. Qed.

Lemma is_string_false_sitofp (e : t) (v : ir.value) :
  ir.is_int (ir.type_of v) = true ->
  is_string (fst (builder_sitofp e v ir.float_type)) = false.
Proof.
  intros H. unfold builder_sitofp, builder_cast.
  destruct (ir.type_of v) eqn:E; try discriminate. done.
Qed.


Lemma plus_two_strings_concatenates (e : t) (lhs rhs : ir.value) :
  tracking e ->
  is_string lhs = true ->
  is_string rhs = true ->
  exists e',
    binary_op e PLUS lhs rhs = Ok (ir.Register ir.string_type (next_id e + 4), e')
    /\ current_code e' = current_code e ++ concat_code (next_id e) lhs rhs
    /\ next_id e' = next_id e + 10
    /\ block e' = block e
    /\ tracking e'.
Proof.
  intros (Ha & Hc & [f Hf]) Hl Hr.
  pose proof (is_string_type _ Hl) as Tl.
  pose proof (is_string_type _ Hr) as Tr.
  destruct e as [g bl b k cf aa ac ptrs].
  cbn [allocation_array allocation_count current_function] in *. subst aa ac cf.
  eexists. split.
  { destruct lhs as [tl cl|tl il|tl il|tl nl|tl il|]; try done.
    all: destruct rhs as [tr cr|tr ir|tr ir|tr nr|tr ir|]; try done.
    all: cbn [ir.type_of] in Tl, Tr; subst tl tr.
    all: lazy -[append_to Nat.add].
    all: replace (k + 4) with (S (S (S (S k)))) by lia.
    all: reflexivity. }
  unfold current_code, concat_code, track_code. cbn [blocks block next_id].
  rewrite !block_code_append_to. rewrite <- !app_assoc.
  replace (k + 5 + 1) with (S (S (S (S (S (S k)))))) by lia.
  replace (k + 5 + 2) with (S (S (S (S (S (S (S k))))))) by lia.
  replace (k + 1) with (S k) by lia.
  replace (k + 2) with (S (S k)) by lia.
  replace (k + 3) with (S (S (S k))) by lia.
  replace (k + 4) with (S (S (S (S k)))) by lia.
  replace (k + 5) with (S (S (S (S (S k))))) by lia.
  replace (k + 8) with (S (S (S (S (S (S (S (S k)))))))) by lia.
  replace (k + 9) with (S (S (S (S (S (S (S (S (S k))))))))) by lia.
  replace (k + 10) with (S (S (S (S (S (S (S (S (S (S k)))))))))) by lia.
  split; [reflexivity|]. split; [reflexivity|]. split; [reflexivity|].
  split; [reflexivity|]. split; [reflexivity|]. by eexists.
Qed.

End LowerFacts.

Module LogicalFacts.
Import Machine EmitFacts MachineFacts LowerFacts.


Lemma exec_app (code rest : list ir.instruction) (s s1 : state) :
  exec code s = Done (Next, s1) -> exec (code ++ rest) s = exec rest s1.
Proof.
  revert s. induction code as [|i code IH]; intros s; simpl.
  - by intros [= ->].
  - destruct (step i s) as [[c s0]| | |]; simpl; try discriminate.
    destruct c; try discriminate. apply IH.
Qed.


End LogicalFacts.

Module ExpressionFacts.
Import Ast Emit Lower Machine EmitFacts MachineFacts LowerFacts LogicalFacts.

Section Lowering.
Variable lower_other : node -> option ir.type -> Emit.t -> result (ir.value * Emit.t).



(** C10: when the operand of a cast to [int] lowers to a string,
    the cast emits nothing and its value is the constant 0 of 64
    bits, which evaluates to 0 in every state. *)
Theorem cast_int_of_string_is_zero (expression : node) (e e1 : Emit.t)
    (v : ir.value) :
  _generate_expression lower_other expression None e = Ok (v, e1) ->
  is_string v = true ->
  _generate_expression lower_other (CastNode expression IntType) None e
  = Ok (ir.Constant ir.int_type (ir.CInt 0), e1)
  /\ forall s : state, eval s (ir.Constant ir.int_type (ir.CInt 0)) = Done (VInt 0).
Proof.
  intros He Hs. split; [|done].
  simpl. rewrite He. simpl. unfold cast.
  pose proof (is_string_type _ Hs) as Tv.
  destruct v; try done; simpl in Tv; subst ty; by rewrite Hs.
Qed.
End Lowering.



Lemma cast_int_of_string_is_zero_witness :
  exists e1,
    _generate_expression unsupported_expression
      (CastNode (StringNode "42") IntType) None main_entry
    = Ok (ir.Constant ir.int_type (ir.CInt 0), e1).
Proof.
  eexists.
  apply (proj1 (cast_int_of_string_is_zero unsupported_expression (StringNode "42")
                  main_entry _ _ eq_refl eq_refl)).
Defined.
End ExpressionFacts.

Module LexerProgress.
Import Lexer.

(** The characters the lexer has not read yet. *)
Definition remaining (s : t) : nat := len s - position s.

Definition not_eof (tok : Token.t) : Prop := Token.type tok <> EOF.

(** [scans s s']: the lexer went from [s] to [s'] over the same
    source, without going back, adding tokens that are no EOF. *)
Record scans (s s' : t) : Prop := {
  scans_source : source s' = source s;
  scans_position : position s <= position s';
  scans_tokens : exists new, tokens s' = tokens s ++ new /\ Forall not_eof new
}.

Lemma scans_refl (s : t) : scans s s.
Proof. split; [done|done|]. exists []. by rewrite app_nil_r. Qed.

Lemma scans_trans (a b c : t) : scans a b -> scans b c -> scans a c.
Proof.
  intros [S1 P1 (n1 & T1 & F1)] [S2 P2 (n2 & T2 & F2)]. split.
  - congruence.
  - lia.
  - exists (n1 ++ n2). rewrite T2, T1, app_assoc. split; [done|].
    by apply Forall_app.
Qed.

Lemma scans_advance (s : t) : scans s (_advance s).
Proof.
  unfold _advance. destruct (Char.eqb_opt _ _); split; simpl; try done; try lia.
  all: exists []; by rewrite app_nil_r.
Qed.

Lemma position_advance (s : t) : position (_advance s) = S (position s).
Proof. unfold _advance. destruct (Char.eqb_opt _ _); simpl; lia. Qed.

Lemma scans_append (s : t) (tok : Token.t) :
  not_eof tok -> scans s (append_token s tok).
Proof.
  intros H. split; simpl; [done|done|]. exists [tok]. split; [done|].
  by apply Forall_singleton.
Qed.

Lemma len_scans (s s' : t) : scans s s' -> len s' = len s.
Proof. intros [H _ _]. unfold len. by rewrite H. Qed.

Lemma remaining_scans (s s' : t) : scans s s' -> remaining s' <= remaining s.
Proof. intros H. unfold remaining. rewrite (len_scans _ _ H). destruct H. lia. Qed.

Lemma get_Some_lt (n : nat) (str : string) (c : ascii) :
  String.get n str = Some c -> n < String.length str.
Proof.
  revert n. induction str as [|d str IH]; intros [|n]; simpl; try discriminate.
  - lia.
  - intros H. apply IH in H. lia.
Qed.

Lemma get_lt_Some (n : nat) (str : string) :
  n < String.length str -> exists c, String.get n str = Some c.
Proof.
  revert n. induction str as [|d str IH]; intros [|n]; simpl; try lia.
  - by exists d.
  - intros H. apply IH. lia.
Qed.

Lemma current_char_lt (s : t) (c : ascii) :
  _current_char s = Some c -> position s < len s.
Proof. apply get_Some_lt. Qed.

Lemma remaining_advance (s : t) (c : ascii) :
  _current_char s = Some c -> remaining (_advance s) < remaining s.
Proof.
  intros H%current_char_lt. unfold remaining.
  rewrite (len_scans _ _ (scans_advance s)), position_advance. lia.
Qed.

Lemma ltb_current (s : t) :
  (position s <? len s)%nat = true -> exists c, _current_char s = Some c.
Proof. intros H%Nat.ltb_lt. by apply get_lt_Some. Qed.

(** ** The loops end within their fuel *)

Lemma skip_comment_ok (fuel : nat) :
  forall s, remaining s < fuel ->
    exists s', skip_comment fuel s = Ok s' /\ scans s s'
               /\ (forall c, _current_char s = Some c -> c <> Char.newline ->
                             position s < position s').
Proof.
  induction fuel as [|fuel IH]; intros s Hfuel; [lia|]. simpl.
  destruct (position s <? len s)%nat eqn:Hlt; simpl.
  - destruct (ltb_current _ Hlt) as [c Hc]. rewrite Hc. simpl.
    destruct (Ascii.eqb c Char.newline) eqn:E; simpl.
    + exists s. split; [done|]. split; [apply scans_refl|].
      intros c' [= <-] Hne. by apply Ascii.eqb_eq in E.
    + destruct (IH (_advance s)) as (s' & H1 & H2 & _).
      { pose proof (remaining_advance _ _ Hc). lia. }
      exists s'. split; [done|]. split.
      * eapply scans_trans; [apply scans_advance|done].
      * intros _ _ _. destruct H2 as [_ P _]. rewrite position_advance in P. lia.
  - exists s. split; [done|]. split; [apply scans_refl|].
    intros c Hc%current_char_lt. apply Nat.ltb_ge in Hlt. lia.
Qed.

Lemma skip_whitespace_ok (fuel : nat) :
  forall s, remaining s < fuel ->
    exists s', _skip_whitespace_and_comments fuel s = Ok s' /\ scans s s'.
Proof.
  induction fuel as [|fuel IH]; intros s Hfuel; [lia|].
  cbn -[skip_comment Nat.ltb len].
  destruct (position s <? len s)%nat eqn:Hlt;
    [|exists s; split; [reflexivity|apply scans_refl]].
  destruct (ltb_current _ Hlt) as [c Hc]. rewrite Hc.
  destruct (Char.isspace c).
  - destruct (IH (_advance s)) as (s' & H1 & H2).
    { pose proof (remaining_advance _ _ Hc). lia. }
    exists s'. split; [done|]. eapply scans_trans; [apply scans_advance|done].
  - destruct ((position s + 1 <? len s)%nat
              && String.eqb (PyStr.slice2 (source s) (position s)) "//") eqn:Hcomment;
      [|exists s; split; [reflexivity|apply scans_refl]].
    apply andb_prop in Hcomment as [_ Hslash%String.eqb_eq].
    assert (Hne : c <> Char.newline).
    { intros ->. unfold PyStr.slice2 in Hslash. unfold _current_char in Hc.
      revert Hc Hslash. generalize (position s) (source s).
      intros n str. revert n. induction str as [|d str IHs]; intros [|n]; simpl;
        try discriminate.
      - intros [= ->]. discriminate.
      - apply IHs. }
    destruct (skip_comment_ok (S (len s)) s) as (s1 & H1 & H2 & H3).
    { unfold remaining. lia. }
    rewrite H1. cbn [mbind result_bind rbind].
    specialize (H3 c Hc Hne).
    destruct (IH s1) as (s' & H4 & H5).
    { apply Nat.ltb_lt in Hlt. unfold remaining in *. rewrite (len_scans _ _ H2). lia. }
    exists s'. split; [done|]. by eapply scans_trans.
Qed.

Lemma read_string_loop_ok (fuel : nat) :
  forall s acc, remaining s < fuel ->
    exists s' v, read_string_loop fuel s acc = Ok (s', v)
                 /\ scans s s' /\ tokens s' = tokens s.
Proof.
  induction fuel as [|fuel IH]; intros s acc Hfuel; [lia|]. simpl.
  destruct (_current_char s) as [c|] eqn:Hc;
    [|exists s, acc; split; [reflexivity|split; [apply scans_refl|done]]].
  pose proof (remaining_advance _ _ Hc) as Hadv.
  assert (Htok : forall s0, tokens (_advance s0) = tokens s0).
  { intros s0. unfold _advance. by destruct (Char.eqb_opt _ _). }
  destruct (Ascii.eqb c Char.quote);
    [exists s, acc; split; [reflexivity|split; [apply scans_refl|done]]|].
  destruct (Ascii.eqb c Char.backslash).
  - destruct (_current_char (_advance s)) as [escape_char|] eqn:He.
    + pose proof (remaining_advance _ _ He) as Hadv2.
      destruct (IH (_advance (_advance s)) (PyStr.snoc acc (unescape escape_char)))
        as (s' & v & H1 & H2 & H3); [lia|].
      exists s', v. split; [done|]. split.
      * eapply scans_trans; [apply scans_advance|].
        eapply scans_trans; [apply scans_advance|done].
      * by rewrite H3, !Htok.
    + destruct (IH (_advance s) acc) as (s' & v & H1 & H2 & H3); [lia|].
      exists s', v. split; [done|]. split.
      * eapply scans_trans; [apply scans_advance|done].
      * by rewrite H3, Htok.
  - destruct (IH (_advance s) (PyStr.snoc acc c)) as (s' & v & H1 & H2 & H3); [lia|].
    exists s', v. split; [done|]. split.
    + eapply scans_trans; [apply scans_advance|done].
    + by rewrite H3, Htok.
Qed.

(** What a reader called at a character gives: an exception, or a
    state further in the source. *)
Definition reads (s : t) (r : result t) : Prop :=
  match r with
  | Ok s' => scans s s' /\ position s < position s'
  | Raise _ => True
  | OutOfFuel => False
  end.

Lemma remaining_le_len (s : t) : remaining s < S (len s).
Proof. unfold remaining. lia. Qed.

Lemma read_string_reads (s : t) : reads s (_read_string s).
Proof.
  unfold _read_string.
  destruct (read_string_loop_ok (S (len (_advance s))) (_advance s) EmptyString)
    as (s1 & v & H1 & H2 & H3); [apply remaining_le_len|].
  rewrite H1. cbn [mbind result_bind rbind].
  destruct (position s1 <? len s1)%nat; [|done].
  simpl. split.
  - eapply scans_trans; [apply scans_advance|].
    eapply scans_trans; [exact H2|].
    eapply scans_trans; [apply scans_advance|].
    apply scans_append. unfold not_eof. simpl. discriminate.
  - rewrite position_advance. destruct H2 as [_ P _].
    rewrite position_advance in P. lia.
Qed.

Lemma tokens_advance (s : t) : tokens (_advance s) = tokens s.
Proof. unfold _advance. by destruct (Char.eqb_opt _ _). Qed.

Lemma read_braces_ok (fuel : nat) :
  forall s acc count, remaining s < fuel ->
    exists s' v count', read_braces fuel s acc count = Ok (s', v, count')
                        /\ scans s s' /\ tokens s' = tokens s.
Proof.
  induction fuel as [|fuel IH]; intros s acc count Hfuel; [lia|].
  cbn -[Nat.ltb len].
  destruct ((position s <? len s)%nat && (0 <? count)%nat) eqn:Hcond;
    [|exists s, acc, count; split; [reflexivity|split; [apply scans_refl|done]]].
  apply andb_prop in Hcond as [Hlt _].
  destruct (ltb_current _ Hlt) as [c Hc].
  pose proof (remaining_advance _ _ Hc) as Hadv.
  destruct (IH (_advance s)
              (if (0 <?
                   (if Char.eqb_opt (_current_char s) "{" then count + 1
                    else if Char.eqb_opt (_current_char s) "}" then count - 1
                         else count))%nat
               then match _current_char s with
                    | Some c0 => PyStr.snoc acc c0
                    | None => acc
                    end
               else acc)
              (if Char.eqb_opt (_current_char s) "{" then count + 1
               else if Char.eqb_opt (_current_char s) "}" then count - 1
                    else count))
    as (s' & v & count' & H1 & H2 & H3); [lia|].
  exists s', v, count'. split; [exact H1|]. split.
  - eapply scans_trans; [apply scans_advance|done].
  - by rewrite H3, tokens_advance.
Qed.

Lemma read_fstring_loop_ok (fuel : nat) :
  forall s parts text, remaining s < fuel ->
    match read_fstring_loop fuel s parts text with
    | Ok (s', _, _) => scans s s' /\ tokens s' = tokens s
    | Raise _ => True
    | OutOfFuel => False
    end.
Proof.
  induction fuel as [|fuel IH]; intros s parts text Hfuel; [lia|].
  cbn -[read_braces Nat.ltb len].
  destruct (_current_char s) as [c|] eqn:Hc; [|split; [apply scans_refl|done]].
  pose proof (remaining_advance _ _ Hc) as Hadv.
  destruct (Ascii.eqb c Char.quote); [split; [apply scans_refl|done]|].
  destruct (Ascii.eqb c "{").
  - destruct (read_braces_ok (S (len (_advance s))) (_advance s) EmptyString 1)
      as (s2 & v & count & H1 & H2 & H3); [apply remaining_le_len|].
    rewrite H1. cbn [mbind result_bind rbind].
    destruct (0 <? count)%nat; [done|].
    specialize (IH s2 (flush_text parts text ++ [expr_part v]) EmptyString).
    destruct (read_fstring_loop fuel s2 _ _) as [[[s' ?] ?]| |].
    + destruct IH as [I1 I2].
      { pose proof (remaining_scans _ _ H2). lia. }
      split.
      * eapply scans_trans; [apply scans_advance|]. by eapply scans_trans.
      * by rewrite I2, H3, tokens_advance.
    + done.
    + apply IH. pose proof (remaining_scans _ _ H2). lia.
  - destruct (Ascii.eqb c Char.backslash).
    + destruct (_current_char (_advance s)) as [escape_char|] eqn:He.
      * pose proof (remaining_advance _ _ He) as Hadv2.
        specialize (IH (_advance (_advance s)) parts
                      (PyStr.snoc text (unescape escape_char))).
        destruct (read_fstring_loop fuel _ _ _) as [[[s' ?] ?]| |].
        -- destruct IH as [I1 I2]; [lia|]. split.
           ++ eapply scans_trans; [apply scans_advance|].
              eapply scans_trans; [apply scans_advance|done].
           ++ by rewrite I2, !tokens_advance.
        -- done.
        -- apply IH. lia.
      * specialize (IH (_advance s) parts text).
        destruct (read_fstring_loop fuel _ _ _) as [[[s' ?] ?]| |].
        -- destruct IH as [I1 I2]; [lia|]. split.
           ++ eapply scans_trans; [apply scans_advance|done].
           ++ by rewrite I2, tokens_advance.
        -- done.
        -- apply IH. lia.
    + specialize (IH (_advance s) parts (PyStr.snoc text c)).
      destruct (read_fstring_loop fuel _ _ _) as [[[s' ?] ?]| |].
      * destruct IH as [I1 I2]; [lia|]. split.
        -- eapply scans_trans; [apply scans_advance|done].
        -- by rewrite I2, tokens_advance.
      * done.
      * apply IH. lia.
Qed.

Lemma read_fstring_reads (s : t) : reads s (_read_fstring s).
Proof.
  unfold _read_fstring.
  pose proof (read_fstring_loop_ok (S (len (_advance (_advance s))))
                (_advance (_advance s)) [] EmptyString (remaining_le_len _)) as H.
  destruct (read_fstring_loop _ _ _ _) as [[[s1 parts] text]| |]; [|done|done].
  cbn [mbind result_bind rbind]. destruct H as [H1 H2].
  destruct (position s1 <? len s1)%nat; [|done].
  simpl. split.
  - eapply scans_trans; [apply scans_advance|].
    eapply scans_trans; [apply scans_advance|].
    eapply scans_trans; [exact H1|].
    eapply scans_trans; [apply scans_advance|].
    apply scans_append. unfold not_eof. simpl. discriminate.
  - rewrite position_advance. destruct H1 as [_ P _].
    rewrite !position_advance in P. lia.
Qed.

Lemma read_number_loop_ok (fuel : nat) :
  forall s acc has_dot, remaining s < fuel ->
    exists s' v d, read_number_loop fuel s acc has_dot = Ok (s', v, d)
                   /\ scans s s' /\ tokens s' = tokens s
                   /\ (forall c, _current_char s = Some c -> Char.isdigit c = true ->
                                 position s < position s').
Proof.
  induction fuel as [|fuel IH]; intros s acc has_dot Hfuel; [lia|]. simpl.
  destruct (_current_char s) as [c|] eqn:Hc;
    [|exists s, acc, has_dot; split; [reflexivity|split; [apply scans_refl|done]]].
  pose proof (remaining_advance _ _ Hc) as Hadv.
  destruct (Char.isdigit c) eqn:Hd; simpl.
  - assert (Hdot : Ascii.eqb c "." = false).
    { destruct (Ascii.eqb_spec c "."); [|done]. subst c. discriminate Hd. }
    rewrite Hdot. simpl.
    destruct (IH (_advance s) (PyStr.snoc acc c) (has_dot || false))
      as (s' & v & d & H1 & H2 & H3 & _); [lia|].
    exists s', v, d. split; [done|]. split; [|split].
    + eapply scans_trans; [apply scans_advance|done].
    + by rewrite H3, tokens_advance.
    + intros _ _ _. destruct H2 as [_ P _]. rewrite position_advance in P. lia.
  - destruct (Ascii.eqb c ".") eqn:Hdot; simpl.
    + destruct has_dot; simpl.
      * exists s, acc, true. split; [done|]. split; [apply scans_refl|].
        split; [done|]. intros c' [= <-]. congruence.
      * destruct (IH (_advance s) (PyStr.snoc acc c) true)
          as (s' & v & d & H1 & H2 & H3 & _); [lia|].
        exists s', v, d. split; [done|]. split; [|split].
        -- eapply scans_trans; [apply scans_advance|done].
        -- by rewrite H3, tokens_advance.
        -- intros c' [= <-]. congruence.
    + exists s, acc, has_dot. split; [done|]. split; [apply scans_refl|].
      split; [done|]. intros c' [= <-]. congruence.
Qed.

Lemma read_number_reads (s : t) (c : ascii) :
  _current_char s = Some c -> Char.isdigit c = true -> reads s (_read_number s).
Proof.
  intros Hc Hd. unfold _read_number.
  destruct (read_number_loop_ok (S (len s)) s EmptyString false (remaining_le_len _))
    as (s1 & v & d & H1 & H2 & H3 & H4).
  rewrite H1. cbn [mbind result_bind rbind]. specialize (H4 c Hc Hd).
  destruct d.
  - destruct (PyStr.float_ok v); [|done]. simpl. split; [|done].
    eapply scans_trans; [exact H2|]. apply scans_append. unfold not_eof. simpl.
    discriminate.
  - destruct (PyStr.int v); [|done]. simpl. split; [|done].
    eapply scans_trans; [exact H2|]. apply scans_append. unfold not_eof. simpl.
    discriminate.
Qed.

Lemma read_identifier_loop_ok (fuel : nat) :
  forall s acc, remaining s < fuel ->
    exists s' v, read_identifier_loop fuel s acc = Ok (s', v)
                 /\ scans s s' /\ tokens s' = tokens s
                 /\ (forall c, _current_char s = Some c ->
                               Char.isalnum c || Ascii.eqb c "_" = true ->
                               position s < position s').
Proof.
  induction fuel as [|fuel IH]; intros s acc Hfuel; [lia|]. simpl.
  destruct (_current_char s) as [c|] eqn:Hc;
    [|exists s, acc; split; [reflexivity|split; [apply scans_refl|done]]].
  pose proof (remaining_advance _ _ Hc) as Hadv.
  destruct (Char.isalnum c || Ascii.eqb c "_") eqn:Hid.
  - destruct (IH (_advance s) (PyStr.snoc acc c)) as (s' & v & H1 & H2 & H3 & _); [lia|].
    exists s', v. split; [done|]. split; [|split].
    + eapply scans_trans; [apply scans_advance|done].
    + by rewrite H3, tokens_advance.
    + intros _ _ _. destruct H2 as [_ P _]. rewrite position_advance in P. lia.
  - exists s, acc. split; [done|]. split; [apply scans_refl|]. split; [done|].
    intros c' [= <-]. congruence.
Qed.

Lemma keyword_not_eof (identifier : string) :
  default IDENTIFIER (table_get keywords identifier) <> EOF.
Proof.
  unfold keywords. cbn [table_get].
  repeat (destruct (String.eqb _ identifier); [by simpl|]). by simpl.
Qed.

Lemma read_identifier_reads (s : t) (c : ascii) :
  _current_char s = Some c -> Char.isalpha c || Ascii.eqb c "_" = true ->
  reads s (_read_identifier s).
Proof.
  intros Hc Ha. unfold _read_identifier.
  destruct (read_identifier_loop_ok (S (len s)) s EmptyString (remaining_le_len _))
    as (s1 & v & H1 & H2 & H3 & H4).
  rewrite H1. cbn [mbind result_bind rbind]. simpl. split.
  - eapply scans_trans; [exact H2|]. apply scans_append. apply keyword_not_eof.
  - apply (H4 c Hc). unfold Char.isalnum.
    destruct (Char.isalpha c); [done|]. simpl in Ha. rewrite Ha.
    by rewrite orb_true_r.
Qed.

Lemma operator_not_eof (table : list (string * TokenType)) (key : string)
    (ty : TokenType) :
  Forall (fun entry => snd entry <> EOF) table ->
  table_get table key = Some ty -> ty <> EOF.
Proof.
  induction table as [|[k v] table IH]; simpl; [discriminate|].
  intros HF. apply Forall_cons in HF as [Hv HF].
  destruct (String.eqb k key); [by intros [= <-]|by apply IH].
Qed.

Lemma read_operator_reads (s : t) : reads s (_read_operator s).
Proof.
  unfold _read_operator.
  destruct (table_get two_char_ops _) as [ty|] eqn:E2.
  - simpl. split.
    + eapply scans_trans;
        [|eapply scans_trans; [|apply scans_advance]; apply scans_advance].
      apply scans_append.
      unfold not_eof. simpl. eapply operator_not_eof; [|exact E2].
      unfold two_char_ops. repeat constructor; discriminate.
    + rewrite !position_advance. simpl. lia.
  - destruct (table_get operators _) as [ty|] eqn:E1; [|done].
    simpl. split.
    + eapply scans_trans; [|apply scans_advance].
      apply scans_append.
      unfold not_eof. simpl. eapply operator_not_eof; [|exact E1].
      unfold operators. repeat constructor; discriminate.
    + rewrite position_advance. simpl. lia.
Qed.

Lemma tokenize_loop_ok (fuel : nat) :
  forall s, remaining s < fuel ->
    match tokenize_loop fuel s with
    | Ok s' => scans s s'
    | Raise _ => True
    | OutOfFuel => False
    end.
Proof.
  induction fuel as [|fuel IH]; intros s Hfuel; [lia|].
  cbn -[_skip_whitespace_and_comments Nat.ltb len _read_fstring _read_string
        _read_number _read_identifier _read_operator].
  destruct (position s <? len s)%nat eqn:Hlt; [|apply scans_refl].
  apply Nat.ltb_lt in Hlt.
  destruct (skip_whitespace_ok (S (len s)) s (remaining_le_len _)) as (s1 & H1 & H2).
  rewrite H1. cbn [mbind result_bind rbind].
  destruct (_current_char s1) as [c|] eqn:Hc; [|done].
  assert (Hreads : reads s1
            (if Ascii.eqb c "f" && Char.eqb_opt (_peek_char s1) Char.quote
             then _read_fstring s1
             else if Ascii.eqb c Char.quote then _read_string s1
             else if Char.isdigit c then _read_number s1
             else if Char.isalpha c || Ascii.eqb c "_" then _read_identifier s1
             else _read_operator s1)).
  { destruct (Ascii.eqb c "f" && Char.eqb_opt (_peek_char s1) Char.quote);
      [apply read_fstring_reads|].
    destruct (Ascii.eqb c Char.quote); [apply read_string_reads|].
    destruct (Char.isdigit c) eqn:Hd; [by eapply read_number_reads|].
    destruct (Char.isalpha c || Ascii.eqb c "_") eqn:Ha;
      [by eapply read_identifier_reads|].
    apply read_operator_reads. }
  destruct (if Ascii.eqb c "f" && Char.eqb_opt (_peek_char s1) Char.quote
            then _ else _) as [s2| |]; [|done|done].
  cbn [mbind result_bind rbind]. destruct Hreads as [R1 R2].
  specialize (IH s2).
  destruct (tokenize_loop fuel s2) as [s'| |].
  - eapply scans_trans; [exact H2|]. eapply scans_trans; [exact R1|].
    apply IH. pose proof (current_char_lt _ _ Hc).
    unfold remaining in *. rewrite (len_scans _ _ R1), (len_scans _ _ H2) in *.
    destruct H2 as [_ P2 _]. lia.
  - done.
  - apply IH. pose proof (current_char_lt _ _ Hc).
    unfold remaining in *. rewrite (len_scans _ _ R1), (len_scans _ _ H2) in *.
    destruct H2 as [_ P2 _]. lia.
Qed.

(** The lexer ends on every source: with tokens or with an
    exception. *)
Theorem tokenize_terminates (src : string) : tokenize src <> OutOfFuel.
Proof.
  unfold tokenize.
  pose proof (tokenize_loop_ok (S (String.length src)) (init src)) as H.
  destruct (tokenize_loop _ _) as [s| |]; [done|done|].
  exfalso. apply H. unfold remaining, len. simpl. lia.
Qed.

(** When the lexer gives tokens, the last one is the EOF token, at
    the position the lexer ended at, and no other token is an EOF
    token. *)
Theorem tokenize_ends_with_eof (src : string) (toks : list Token.t) :
  tokenize src = Ok toks ->
  exists body line column,
    toks = body ++ [Token.mk EOF (VStr EmptyString) line column]
    /\ Forall (fun tok => Token.type tok <> EOF) body.
Proof.
  unfold tokenize.
  pose proof (tokenize_loop_ok (S (String.length src)) (init src)) as H.
  destruct (tokenize_loop _ _) as [s| |]; [|done|done].
  cbn [mbind result_bind rbind]. intros [= <-].
  destruct H as [_ _ (new & Hnew & HF)].
  { unfold remaining, len. simpl. lia. }
  exists (tokens s), (line s), (column s). split; [done|].
  simpl in Hnew. by rewrite Hnew.
Qed.

Lemma tokenize_ends_with_eof_witness :
  exists body line column,
    [ Token.mk LET (VStr "let") 1 1; Token.mk IDENTIFIER (VStr "x") 1 5;
      Token.mk EOF (VStr EmptyString) 1 6 ]
    = body ++ [Token.mk EOF (VStr EmptyString) line column]
    /\ Forall (fun tok => Token.type tok <> EOF) body.
Proof.
  apply (tokenize_ends_with_eof "let x"). vm_compute. reflexivity.
Defined.
End LexerProgress.

Module LexerPositions.
Import Lexer LexerProgress.

(** [at_offset s pre rest]: the lexer has read [pre] and [rest] is
    ahead. *)
Definition at_offset (s : t) (pre rest : string) : Prop :=
  source s = pre +:+ rest /\ position s = String.length pre.

(** The line of the character after [pre], counted from [line], and
    its column, counted from [column] when [pre] has no line
    break. *)
Fixpoint line_after (pre : string) (line : nat) : nat :=
  match pre with
  | EmptyString => line
  | String c rest =>
      line_after rest (if Ascii.eqb c Char.newline then line + 1 else line)
  end.

Fixpoint column_after (pre : string) (column : nat) : nat :=
  match pre with
  | EmptyString => column
  | String c rest =>
      column_after rest (if Ascii.eqb c Char.newline then 1 else column + 1)
  end.

(** The number of line breaks of a text, and the text after its last
    line break. *)
Fixpoint count_newlines (text : string) : nat :=
  match text with
  | EmptyString => 0
  | String c rest =>
      (if Ascii.eqb c Char.newline then 1 else 0) + count_newlines rest
  end.

Fixpoint last_line (text : string) : string :=
  match text with
  | EmptyString => EmptyString
  | String c rest =>
      if PyStr.contains Char.newline rest then last_line rest
      else if Ascii.eqb c Char.newline then rest
      else text
  end.

Lemma append_cons (c : ascii) (s rest : string) :
  String c s +:+ rest = String c (s +:+ rest).
Proof. reflexivity. Qed.

Lemma get_app_length (pre rest : string) :
  String.get (String.length pre) (pre +:+ rest) = String.get 0 rest.
Proof. induction pre as [|c pre IH]; [done|]. rewrite append_cons. exact IH. Qed.

Lemma append_snoc (pre : string) (c : ascii) (rest : string) :
  (pre +:+ String c EmptyString) +:+ rest = pre +:+ String c rest.
Proof.
  induction pre as [|d pre IH]; [done|]. rewrite !append_cons. f_equal. exact IH.
Qed.

Lemma length_snoc (pre : string) (c : ascii) :
  String.length (pre +:+ String c EmptyString) = S (String.length pre).
Proof.
  induction pre as [|d pre IH]; [done|]. rewrite append_cons. simpl. f_equal. exact IH.
Qed.

Lemma at_current (s : t) (pre : string) (c : ascii) (rest : string) :
  at_offset s pre (String c rest) -> _current_char s = Some c.
Proof.
  intros [Hs Hp]. unfold _current_char. rewrite Hs, Hp. by rewrite get_app_length.
Qed.

Lemma at_end (s : t) (pre : string) :
  at_offset s pre EmptyString -> _current_char s = None.
Proof.
  intros [Hs Hp]. unfold _current_char. rewrite Hs, Hp. by rewrite get_app_length.
Qed.

Lemma at_advance (s : t) (pre : string) (c : ascii) (rest : string) :
  at_offset s pre (String c rest) ->
  at_offset (_advance s) (pre +:+ String c EmptyString) rest
  /\ line (_advance s) = (if Ascii.eqb c Char.newline then line s + 1 else line s)
  /\ column (_advance s) = (if Ascii.eqb c Char.newline then 1 else column s + 1)
  /\ tokens (_advance s) = tokens s.
Proof.
  intros H. pose proof (at_current _ _ _ _ H) as Hc. destruct H as [Hs Hp].
  unfold _advance. rewrite Hc. simpl.
  destruct (Ascii.eqb c Char.newline); simpl; unfold at_offset; simpl.
  all: rewrite append_snoc, length_snoc, Hs, Hp.
  all: repeat split; lia.
Qed.

Lemma advance_n_at (text : string) :
  forall s pre rest,
    at_offset s pre (text +:+ rest) ->
    at_offset (advance_n (String.length text) s) (pre +:+ text) rest
    /\ line (advance_n (String.length text) s) = line_after text (line s)
    /\ column (advance_n (String.length text) s) = column_after text (column s).
Proof.
  induction text as [|c text IH]; intros s pre rest H; simpl.
  - split; [|done]. destruct H as [Hs Hp].
    assert (Hnil : pre +:+ EmptyString = pre).
    { clear. induction pre as [|d pre IH]; [done|]. rewrite append_cons. by f_equal. }
    split; [by rewrite Hnil|by rewrite Hnil].
  - destruct (at_advance s pre c (text +:+ rest) H) as (Hat & Hl & Hc & _).
    destruct (IH _ _ _ Hat) as (Hat' & Hl' & Hc').
    rewrite Hl', Hc', Hl, Hc. split; [|done].
    by rewrite append_snoc in Hat'.
Qed.

Lemma line_after_count (text : string) (line : nat) :
  line_after text line = line + count_newlines text.
Proof.
  revert line. induction text as [|c text IH]; intros line; simpl; [lia|].
  rewrite IH. destruct (Ascii.eqb c Char.newline); lia.
Qed.

Lemma column_after_no_newline (text : string) (column : nat) :
  PyStr.contains Char.newline text = false ->
  column_after text column = column + String.length text.
Proof.
  revert column. induction text as [|c text IH]; intros column; simpl; [lia|].
  destruct (Ascii.eqb c Char.newline); simpl; [discriminate|].
  intros H. rewrite IH by done. lia.
Qed.

Lemma column_after_last_line (text : string) (column : nat) :
  PyStr.contains Char.newline text = true ->
  column_after text column = 1 + String.length (last_line text).
Proof.
  revert column. induction text as [|c text IH]; intros column; [discriminate|].
  intros H. cbn [column_after last_line].
  destruct (PyStr.contains Char.newline text) eqn:Hrest.
  - by apply IH.
  - simpl in H. rewrite Hrest, orb_false_r in H. rewrite H.
    by rewrite column_after_no_newline.
Qed.

(** The position counters of the lexer after the characters [pre] of
    a source: the line is one more than the number of line breaks of
    [pre], and the column is one more than the number of characters
    after the last line break of [pre]. *)
Theorem location_counts_line_breaks (pre rest : string) :
  location_of_offset (pre +:+ rest) (String.length pre)
  = (1 + count_newlines pre, 1 + String.length (last_line pre)).
Proof.
  unfold location_of_offset.
  destruct (advance_n_at pre (init (pre +:+ rest)) EmptyString rest) as (_ & Hl & Hc).
  { by split. }
  rewrite Hl, Hc, line_after_count. simpl. f_equal.
  destruct (PyStr.contains Char.newline pre) eqn:Hn.
  - by apply column_after_last_line.
  - rewrite column_after_no_newline by done.
    destruct pre as [|c pre]; [done|]. cbn [last_line].
    simpl in Hn. apply orb_false_elim in Hn as [Hfirst Hrest].
    by rewrite Hrest, Hfirst.
Qed.
End LexerPositions.

Module LexerWords.
Import Lexer LexerProgress LexerPositions.

Definition identifier_char (c : ascii) : bool := Char.isalnum c || Ascii.eqb c "_".


(** Every character of a text satisfies a test. *)
Fixpoint all_chars (test : ascii -> bool) (text : string) : bool :=
  match text with
  | EmptyString => true
  | String c rest => test c && all_chars test rest
  end.

(** A text does not start with a character that satisfies a test. *)
Definition stops (test : ascii -> bool) (rest : string) : bool :=
  match rest with
  | EmptyString => true
  | String c _ => negb (test c)
  end.

Lemma len_at (s : t) (pre rest : string) :
  at_offset s pre rest -> len s = String.length pre + String.length rest.
Proof.
  intros [Hs _]. unfold len. rewrite Hs. clear.
  induction pre as [|c pre IH]; [done|]. rewrite append_cons. simpl. by rewrite IH.
Qed.

Lemma length_append (a b : string) :
  String.length (a +:+ b) = String.length a + String.length b.
Proof. induction a as [|c a IH]; [done|]. rewrite append_cons. simpl. by rewrite IH. Qed.

Lemma stops_current (test : ascii -> bool) (s : t) (pre rest : string) :
  at_offset s pre rest -> stops test rest = true ->
  match _current_char s with
  | Some c => test c = false
  | None => True
  end.
Proof.
  intros Hat Hstop. destruct rest as [|c rest].
  - by rewrite (at_end _ _ Hat).
  - rewrite (at_current _ _ _ _ Hat). simpl in Hstop. by apply negb_true_iff.
Qed.

Lemma identifier_char_not_newline (c : ascii) :
  identifier_char c = true -> Ascii.eqb c Char.newline = false.
Proof.
  intros H. destruct (Ascii.eqb_spec c Char.newline) as [->|]; [|done].
  discriminate H.
Qed.

Lemma read_identifier_loop_word (word : string) :
  forall fuel s pre rest acc,
    String.length word < fuel ->
    at_offset s pre (word +:+ rest) ->
    all_chars identifier_char word = true ->
    stops identifier_char rest = true ->
    exists s',
      read_identifier_loop fuel s acc = Ok (s', acc +:+ word)
      /\ at_offset s' (pre +:+ word) rest
      /\ line s' = line s
      /\ column s' = column s + String.length word
      /\ tokens s' = tokens s.
Proof.
  induction word as [|c word IH]; intros fuel s pre rest acc Hfuel Hat Hall Hstop.
  - destruct fuel as [|fuel]; [simpl in Hfuel; lia|]. simpl.
    assert (Hnil : forall x, x +:+ EmptyString = x).
    { clear. intros x. induction x as [|d x IH]; [done|]. rewrite append_cons.
      by f_equal. }
    pose proof (stops_current identifier_char s pre rest Hat Hstop) as Hcur.
    exists s. rewrite !Hnil. split.
    + destruct (_current_char s) as [c|]; [|done]. unfold identifier_char in Hcur.
      by rewrite Hcur.
    + split; [done|]. split; [done|]. split; [lia|done].
  - destruct fuel as [|fuel]; [simpl in Hfuel; lia|]. simpl in Hfuel.
    rewrite append_cons in Hat. simpl in Hall.
    apply andb_prop in Hall as [Hc Hall].
    cbn [read_identifier_loop]. rewrite (at_current _ _ _ _ Hat).
    unfold identifier_char in Hc. rewrite Hc.
    destruct (at_advance _ _ _ _ Hat) as (Hat' & Hl & Hcol & Htok).
    destruct (IH fuel (_advance s) (pre +:+ String c EmptyString) rest
                (PyStr.snoc acc c)) as (s' & H1 & H2 & H3 & H4 & H5);
      [lia|done|done|done|].
    exists s'. unfold PyStr.snoc in H1. rewrite append_snoc in H1, H2.
    split; [done|]. split; [done|].
    rewrite (identifier_char_not_newline c Hc) in Hl, Hcol.
    split; [congruence|]. split; [simpl; lia|congruence].
Qed.

(** An identifier or keyword: at a run [word] of letters, digits and
    underscores that ends the source or is followed by another
    character, [_read_identifier] reads exactly the run, adds the
    token of [word] (with the keyword's type when [word] is a
    keyword) at the line and column the run starts at, and stays on
    the line. *)
Theorem identifier_reads_maximal_run (s : t) (pre word rest : string) :
  at_offset s pre (word +:+ rest) ->
  all_chars identifier_char word = true ->
  stops identifier_char rest = true ->
  exists s',
    _read_identifier s = Ok s'
    /\ tokens s'
       = tokens s ++ [Token.mk (default IDENTIFIER (table_get keywords word))
                        (VStr word) (line s) (column s)]
    /\ at_offset s' (pre +:+ word) rest
    /\ line s' = line s
    /\ column s' = column s + String.length word.
Proof.
  intros Hat Hall Hstop. unfold _read_identifier.
  destruct (read_identifier_loop_word word (S (len s)) s pre rest EmptyString)
    as (s1 & H1 & H2 & H3 & H4 & H5); try done.
  { rewrite (len_at _ _ _ Hat), length_append. lia. }
  rewrite H1. cbn [mbind result_bind rbind]. eexists. split; [reflexivity|].
  split; [simpl; by rewrite H5, H3|]. split; [exact H2|]. split; [exact H3|exact H4].
Qed.

Lemma identifier_reads_maximal_run_witness :
  exists s',
    _read_identifier (init "iffy = 1") = Ok s'
    /\ tokens s' = tokens (init "iffy = 1") ++ [Token.mk IDENTIFIER (VStr "iffy") 1 1]
    /\ at_offset s' "iffy" " = 1"
    /\ line s' = 1
    /\ column s' = 1 + 4.
Proof.
  apply (identifier_reads_maximal_run (init "iffy = 1") EmptyString "iffy" " = 1").
  - by split.
  - reflexivity.
  - reflexivity.
Defined.





End LexerWords.

Module LexerStrings.
Import Lexer LexerProgress LexerPositions LexerWords.

(** A character of a string literal that stands for itself. *)
Definition plain_char (c : ascii) : bool :=
  negb (Ascii.eqb c Char.quote) && negb (Ascii.eqb c Char.backslash).

Lemma append_empty (text : string) : text +:+ EmptyString = text.
Proof. induction text as [|c text IH]; [done|]. rewrite append_cons. by f_equal. Qed.

Lemma append_assoc (a b c : string) : (a +:+ b) +:+ c = a +:+ (b +:+ c).
Proof. induction a as [|d a IH]; [done|]. rewrite !append_cons. by f_equal. Qed.

Lemma at_advance_end (s : t) (pre : string) :
  at_offset s pre EmptyString -> _current_char (_advance s) = None.
Proof.
  intros [Hs Hp]. unfold _advance. rewrite (at_end s pre (conj Hs Hp)). simpl.
  unfold _current_char. simpl. rewrite Hs, Hp, append_empty. clear.
  induction pre as [|c pre IH]; [done|exact IH].
Qed.

(** Without a quote ahead the loop of [_read_string] runs to the end
    of the source. *)
Lemma read_string_loop_open :
  forall fuel rest s pre acc,
    String.length rest < fuel ->
    at_offset s pre rest ->
    PyStr.contains Char.quote rest = false ->
    exists s' value,
      read_string_loop fuel s acc = Ok (s', value)
      /\ at_offset s' (pre +:+ rest) EmptyString
      /\ line s' = line_after rest (line s)
      /\ column s' = column_after rest (column s).
Proof.
  induction fuel as [|fuel IH]; intros rest s pre acc Hfuel Hat Hq; [lia|].
  destruct rest as [|c rest].
  - exists s, acc. simpl. rewrite (at_end _ _ Hat). rewrite append_empty. done.
  - simpl in Hq. apply orb_false_elim in Hq as [Hc Hq].
    cbn [read_string_loop]. rewrite (at_current _ _ _ _ Hat), Hc.
    destruct (at_advance _ _ _ _ Hat) as (Hat1 & Hl1 & Hc1 & _).
    simpl in Hfuel.
    destruct (Ascii.eqb c Char.backslash) eqn:Hb.
    + destruct rest as [|e rest].
      * rewrite (at_end _ _ Hat1).
        destruct (IH EmptyString (_advance s) (pre +:+ String c EmptyString) acc)
          as (s' & value & H1 & H2 & H3 & H4); [simpl; lia|done|done|].
        exists s', value. rewrite append_empty in H2. simpl in H3, H4. simpl.
        split; [done|]. split; [done|].
        split; [by rewrite H3, Hl1|by rewrite H4, Hc1].
      * rewrite (at_current _ _ _ _ Hat1).
        destruct (at_advance _ _ _ _ Hat1) as (Hat2 & Hl2 & Hc2 & _).
        simpl in Hq. apply orb_false_elim in Hq as [He Hq]. simpl in Hfuel.
        destruct (IH rest (_advance (_advance s))
                    ((pre +:+ String c EmptyString) +:+ String e EmptyString)
                    (PyStr.snoc acc (unescape e)))
          as (s' & value & H1 & H2 & H3 & H4); [lia|done|done|].
        exists s', value. rewrite !append_snoc in H2. simpl.
        split; [done|]. split; [done|].
        split; [by rewrite H3, Hl2, Hl1|by rewrite H4, Hc2, Hc1].
    + destruct (IH rest (_advance s) (pre +:+ String c EmptyString)
                  (PyStr.snoc acc c))
        as (s' & value & H1 & H2 & H3 & H4); [lia|done|done|].
      exists s', value. rewrite append_snoc in H2. simpl.
      split; [done|]. split; [done|].
      split; [by rewrite H3, Hl1|by rewrite H4, Hc1].
Qed.

(** The loop of [_read_string] over characters that stand for
    themselves, up to a quote. *)
Lemma read_string_loop_plain (body : string) :
  forall fuel s pre rest acc,
    String.length body < fuel ->
    at_offset s pre (body +:+ String Char.quote rest) ->
    all_chars plain_char body = true ->
    exists s',
      read_string_loop fuel s acc = Ok (s', acc +:+ body)
      /\ at_offset s' (pre +:+ body) (String Char.quote rest)
      /\ line s' = line_after body (line s)
      /\ column s' = column_after body (column s)
      /\ tokens s' = tokens s.
Proof.
  induction body as [|c body IH]; intros fuel s pre rest acc Hfuel Hat Hall.
  - destruct fuel as [|fuel]; [simpl in Hfuel; lia|].
    exists s. simpl. change (EmptyString +:+ String Char.quote rest)
      with (String Char.quote rest) in Hat.
    rewrite (at_current _ _ _ _ Hat). rewrite !append_empty. done.
  - destruct fuel as [|fuel]; [simpl in Hfuel; lia|]. simpl in Hfuel.
    rewrite append_cons in Hat. simpl in Hall.
    apply andb_prop in Hall as [Hc Hall]. unfold plain_char in Hc.
    apply andb_prop in Hc as [Hq Hb].
    apply negb_true_iff in Hq. apply negb_true_iff in Hb.
    cbn [read_string_loop]. rewrite (at_current _ _ _ _ Hat), Hq, Hb.
    destruct (at_advance _ _ _ _ Hat) as (Hat1 & Hl1 & Hc1 & Ht1).
    destruct (IH fuel (_advance s) (pre +:+ String c EmptyString) rest
                (PyStr.snoc acc c))
      as (s' & H1 & H2 & H3 & H4 & H5); [lia|done|done|].
    exists s'. unfold PyStr.snoc in H1. rewrite append_snoc in H1, H2. simpl.
    split; [done|]. split; [done|].
    split; [by rewrite H3, Hl1|]. split; [by rewrite H4, Hc1|congruence].
Qed.

(** A string literal that is not closed: when no quote character
    follows the opening quote, [_read_string] raises the syntax error
    of an unterminated string, located at the end of the source. *)
Theorem unterminated_string_raises (s : t) (pre rest : string) :
  at_offset s pre (String Char.quote rest) ->
  PyStr.contains Char.quote rest = false ->
  exists message,
    _read_string s
    = Raise (NoxySyntaxError message
               (line_after rest (line s)) (column_after rest (column s + 1))).
Proof.
  intros Hat Hq. eexists. unfold _read_string.
  destruct (at_advance _ _ _ _ Hat) as (Hat1 & Hl1 & Hc1 & _).
  change (Ascii.eqb Char.quote Char.newline) with false in Hl1, Hc1.
  destruct (read_string_loop_open (S (len (_advance s))) rest (_advance s)
              (pre +:+ String Char.quote EmptyString) EmptyString)
    as (s' & value & H1 & H2 & H3 & H4); [|done|done|].
  { rewrite (len_at _ _ _ Hat1). lia. }
  rewrite H1. cbn [mbind result_bind rbind].
  assert (Hend : (position s' <? len s')%nat = false).
  { apply Nat.ltb_ge. rewrite (len_at _ _ _ H2). destruct H2 as [_ ->]. simpl. lia. }
  simpl. rewrite Hend. by rewrite H3, H4, Hl1, Hc1.
Qed.

Lemma unterminated_string_raises_witness :
  exists message,
    _read_string (init (String Char.quote "ab")) = Raise (NoxySyntaxError message 1 4).
Proof.
  apply (unterminated_string_raises (init (String Char.quote "ab")) EmptyString "ab").
  - by split.
  - reflexivity.
Defined.

(** A string literal without escapes: between two quotes, a body
    with no quote and no backslash becomes one STRING token whose
    value is the body, and the lexer stops after the closing
    quote. The token has the column of the opening quote and the
    line of the closing one. *)
Theorem plain_string_token (s : t) (pre body rest : string) :
  at_offset s pre (String Char.quote (body +:+ String Char.quote rest)) ->
  all_chars plain_char body = true ->
  exists s',
    _read_string s = Ok s'
    /\ tokens s'
       = tokens s ++ [Token.mk STRING (VStr body) (line_after body (line s)) (column s)]
    /\ at_offset s' (pre +:+ String Char.quote (body +:+ String Char.quote EmptyString))
         rest
    /\ line s' = line_after body (line s)
    /\ column s' = column_after body (column s + 1) + 1.
Proof.
  intros Hat Hall. unfold _read_string.
  destruct (at_advance _ _ _ _ Hat) as (Hat1 & Hl1 & Hc1 & Ht1).
  change (Ascii.eqb Char.quote Char.newline) with false in Hl1, Hc1.
  destruct (read_string_loop_plain body (S (len (_advance s))) (_advance s)
              (pre +:+ String Char.quote EmptyString) rest EmptyString)
    as (s1 & H1 & H2 & H3 & H4 & H5); [|done|done|].
  { rewrite (len_at _ _ _ Hat1), !length_append. lia. }
  change (EmptyString +:+ body) with body in H1.
  rewrite H1. cbn [mbind result_bind rbind].
  assert (Hlt : (position s1 <? len s1)%nat = true).
  { apply Nat.ltb_lt. rewrite (len_at _ _ _ H2). destruct H2 as [_ ->]. simpl. lia. }
  destruct (at_advance _ _ _ _ H2) as (Hat2 & Hl2 & Hc2 & Ht2).
  change (Ascii.eqb Char.quote Char.newline) with false in Hl2, Hc2.
  simpl. rewrite Hlt. eexists. split; [reflexivity|]. simpl.
  split; [by rewrite Ht2, H5, Ht1, Hl2, H3, Hl1|].
  split.
  { rewrite !append_assoc in Hat2.
    change (String Char.quote EmptyString +:+ (body +:+ String Char.quote EmptyString))
      with (String Char.quote (body +:+ String Char.quote EmptyString)) in Hat2.
    exact Hat2. }
  split; [by rewrite Hl2, H3, Hl1|]. by rewrite Hc2, H4, Hc1.
Qed.

Lemma plain_string_token_witness :
  exists s',
    _read_string (init (String Char.quote ("ab" +:+ String Char.quote ";"))) = Ok s'
    /\ tokens s' = [] ++ [Token.mk STRING (VStr "ab") 1 1]
    /\ at_offset s'
         (EmptyString +:+ String Char.quote ("ab" +:+ String Char.quote EmptyString)) ";"
    /\ line s' = 1
    /\ column s' = 5.
Proof.
  apply (plain_string_token (init (String Char.quote ("ab" +:+ String Char.quote ";")))
           EmptyString "ab" ";").
  - by split.
  - reflexivity.
Defined.
End LexerStrings.

Module ResolverImports.
Import Ast Resolver.

(** One statement exports at most the name it defines. *)
Lemma export_stmt_lookup (symbols : gmap string symbol_info) (stmt : node)
    (name : string) :
  export_stmt symbols stmt !! name
  = match export_stmt ∅ stmt !! name with
    | Some info => Some info
    | None => symbols !! name
    end.
Proof.
  destruct stmt; simpl; try by rewrite lookup_empty.
  - destruct is_global; simpl; [|by rewrite lookup_empty].
    destruct (decide (identifier = name)) as [->|Hne].
    + by rewrite !lookup_insert_eq.
    + by rewrite !lookup_insert_ne, lookup_empty.
  - destruct (decide (name0 = name)) as [->|Hne].
    + by rewrite !lookup_insert_eq.
    + by rewrite !lookup_insert_ne, lookup_empty.
  - destruct (decide (name0 = name)) as [->|Hne].
    + by rewrite !lookup_insert_eq.
    + by rewrite !lookup_insert_ne, lookup_empty.
Qed.

Lemma export_stmt_node (stmt : node) (name : string) (info : symbol_info) :
  export_stmt ∅ stmt !! name = Some info -> symbol_node info = stmt.
Proof.
  destruct stmt; simpl; try by rewrite lookup_empty.
  - destruct is_global; simpl; [|by rewrite lookup_empty].
    intros H. apply lookup_insert_Some in H as [[_ <-]|[_ H]]; [done|].
    by rewrite lookup_empty in H.
  - intros H. apply lookup_insert_Some in H as [[_ <-]|[_ H]]; [done|].
    by rewrite lookup_empty in H.
  - intros H. apply lookup_insert_Some in H as [[_ <-]|[_ H]]; [done|].
    by rewrite lookup_empty in H.
Qed.

Lemma foldl_export_snoc (statements : list node) (stmt : node)
    (symbols : gmap string symbol_info) :
  foldl export_stmt symbols (statements ++ [stmt])
  = export_stmt (foldl export_stmt symbols statements) stmt.
Proof. by rewrite foldl_app. Qed.

(** The export dictionary of a module holds, for a name, the entry of
    the last top-level statement that defines it (a function, a
    global variable or a struct), with that statement as its node; a
    name no such statement defines is not exported. *)
Theorem exported_symbol_is_last_definition (statements : list node) (name : string) :
  match _extract_exported_symbols statements !! name with
  | Some info =>
      exists pre post,
        statements = pre ++ symbol_node info :: post
        /\ export_stmt ∅ (symbol_node info) !! name = Some info
        /\ Forall (fun stmt => export_stmt ∅ stmt !! name = None) post
  | None => Forall (fun stmt => export_stmt ∅ stmt !! name = None) statements
  end.
Proof.
  unfold _extract_exported_symbols.
  induction statements as [|stmt statements IH] using rev_ind.
  { simpl. by rewrite lookup_empty. }
  rewrite foldl_export_snoc, export_stmt_lookup.
  destruct (export_stmt ∅ stmt !! name) as [info|] eqn:Hstmt.
  - pose proof (export_stmt_node _ _ _ Hstmt) as Hnode.
    exists statements, []. rewrite Hnode. done.
  - destruct (foldl export_stmt ∅ statements !! name) as [info|].
    + destruct IH as (pre & post & -> & Hinfo & Hpost).
      exists pre, (post ++ [stmt]). split; [by rewrite <- app_assoc|].
      split; [done|]. apply Forall_app. split; [done|]. by constructor.
    + apply Forall_app. split; [done|]. by constructor.
Qed.

Section Imports.
Context {SI : SetIteration}.

Lemma load_module_state (module_files : string -> file_outcome) (st st1 : Resolver.t)
    (module_name : string) (module_symbols : gmap string symbol_info) :
  load_module module_files st module_name = Ok (st1, module_symbols) ->
  loaded_modules st ⊆ loaded_modules st1
  /\ loaded_modules st1 !! module_name = Some module_symbols
  /\ imported_symbols st1 = imported_symbols st.
Proof.
  unfold load_module.
  destruct (loaded_modules st !! module_name) as [cached|] eqn:Hc.
  { intros [= <- <-]. done. }
  destruct (module_files module_name); try discriminate.
  intros [= <- <-]. simpl. split; [by apply insert_subseteq|].
  split; [apply lookup_insert_eq|done].
Qed.

(** A module is read once: after a load has succeeded, loading the
    same module again gives the same export dictionary and leaves
    the state as it is, whatever the files have become. *)
Theorem load_module_uses_cache (module_files module_files' : string -> file_outcome)
    (st st1 : Resolver.t) (module_name : string)
    (module_symbols : gmap string symbol_info) :
  load_module module_files st module_name = Ok (st1, module_symbols) ->
  load_module module_files' st1 module_name = Ok (st1, module_symbols).
Proof.
  intros H. apply load_module_state in H as (_ & H & _).
  unfold load_module. by rewrite H.
Qed.

Lemma import_names_dom (names : list string)
    (module_symbols : gmap string symbol_info) :
  forall imported imported' : gmap string symbol_info,
    import_names names module_symbols imported = Ok imported' ->
    dom imported ⊆ dom imported'.
Proof.
  induction names as [|n names IH]; intros imported imported'; simpl.
  { by intros [= <-]. }
  destruct (module_symbols !! n) as [info|]; [|discriminate].
  intros H. apply IH in H. set_solver.
Qed.

Lemma use_body_grows (module_files : string -> file_outcome) (st st' : Resolver.t)
    (module_name : string) (selected_symbols : option (list string))
    (import_all : bool) :
  use_body module_files st module_name selected_symbols import_all = Ok st' ->
  loaded_modules st ⊆ loaded_modules st'
  /\ dom (imported_symbols st) ⊆ dom (imported_symbols st').
Proof.
  unfold use_body.
  destruct (load_module module_files st module_name) as [[st1 syms]| |] eqn:Hload;
    try discriminate.
  apply load_module_state in Hload as (Hsub & _ & Himp).
  cbn [mbind result_bind rbind].
  destruct import_all.
  { intros [= <-]. simpl. split; [done|]. rewrite Himp. set_solver. }
  destruct selected_symbols as [[|first others]|].
  - intros [= <-]. simpl. split; [done|]. rewrite Himp. set_solver.
  - destruct (collect_selected _ _ _ _) as [sel| |]; try discriminate.
    cbn [mbind result_bind rbind].
    destruct (import_names _ _ _) as [imported| |] eqn:Hnames; try discriminate.
    intros [= <-]. simpl. split; [done|].
    apply import_names_dom in Hnames. by rewrite <- Himp.
  - intros [= <-]. simpl. split; [done|]. rewrite Himp. set_solver.
Qed.

(** Processing the imports of a program only adds: a module cached
    before is still cached with the same export dictionary, and a
    name imported before is still imported. *)
Theorem imports_only_grow (module_files : string -> file_outcome)
    (statements : list node) (st st' : Resolver.t) :
  _process_imports module_files st statements = Ok st' ->
  loaded_modules st ⊆ loaded_modules st'
  /\ dom (imported_symbols st) ⊆ dom (imported_symbols st').
Proof.
  revert st. induction statements as [|stmt statements IH]; intros st.
  { by intros [= <-]. }
  destruct stmt; try exact (IH st).
  cbn [_process_imports]. unfold _handle_use_statement.
  destruct (use_body _ _ _ _ _) as [st1| |] eqn:Hbody; try discriminate.
  cbn [mbind result_bind rbind]. intros H.
  apply use_body_grows in Hbody as [H1 H2]. apply IH in H as [H3 H4].
  split; [by etrans|set_solver].
Qed.

#[local] Instance prefix_inj (prefix : string) :
  Inj (=) (=) (fun name => prefix +:+ name).
Proof.
  intros a b. induction prefix as [|c prefix IH]; [done|].
  intros [= H]. by apply IH.
Qed.

(** [use M select *]: every symbol the module exports is imported
    under its own name, replacing an earlier import of that name,
    and the other imports are kept; the list of selected symbols
    plays no role. *)
Theorem use_select_all_imports_every_symbol (module_files : string -> file_outcome)
    (st st1 : Resolver.t) (module_name : string)
    (selected_symbols : option (list string))
    (module_symbols : gmap string symbol_info) :
  load_module module_files st module_name = Ok (st1, module_symbols) ->
  exists st',
    _handle_use_statement module_files st module_name selected_symbols true = Ok st'
    /\ loaded_modules st' = loaded_modules st1
    /\ forall name,
         imported_symbols st' !! name
         = match module_symbols !! name with
           | Some info => Some info
           | None => imported_symbols st !! name
           end.
Proof.
  intros Hload. unfold _handle_use_statement, use_body. rewrite Hload.
  apply load_module_state in Hload as (_ & _ & Himp).
  cbn [mbind result_bind rbind]. eexists. split; [reflexivity|]. simpl.
  split; [done|]. intros name. rewrite lookup_union, Himp.
  destruct (module_symbols !! name), (imported_symbols st !! name); done.
Qed.

(** [use M] without a selection: every symbol [s] the module
    exports is imported under the name [M.s] only; a name that is
    not [M.s] for an exported [s], such as [s] itself, keeps the
    entry it had.  An empty selection list behaves the same. *)
Theorem use_module_imports_qualified_names (module_files : string -> file_outcome)
    (st st1 : Resolver.t) (module_name : string)
    (selected_symbols : option (list string))
    (module_symbols : gmap string symbol_info) :
  load_module module_files st module_name = Ok (st1, module_symbols) ->
  selected_symbols = None \/ selected_symbols = Some [] ->
  exists st',
    _handle_use_statement module_files st module_name selected_symbols false = Ok st'
    /\ (forall name info,
          module_symbols !! name = Some info ->
          imported_symbols st' !! (module_name +:+ "." +:+ name) = Some info)
    /\ (forall key,
          (forall name, name ∈ dom module_symbols ->
                        key <> module_name +:+ "." +:+ name) ->
          imported_symbols st' !! key = imported_symbols st !! key).
Proof.
  intros Hload Hsel. unfold _handle_use_statement, use_body. rewrite Hload.
  apply load_module_state in Hload as (_ & _ & Himp).
  cbn [mbind result_bind rbind].
  set (qualified := fun symbol_name : string => module_name +:+ "." +:+ symbol_name).
  assert (Hinj : Inj (=) (=) qualified).
  { intros a b H. unfold qualified in H.
    apply (prefix_inj module_name) in H. by apply (prefix_inj ".") in H. }
  exists (mk (loaded_modules st1) (kmap qualified module_symbols ∪ imported_symbols st1)).
  split; [by destruct Hsel as [->| ->]|]. simpl. split.
  - intros name info Hname. apply lookup_union_Some_raw. left.
    change (module_name +:+ "." +:+ name) with (qualified name).
    by rewrite lookup_kmap.
  - intros key Hkey. rewrite lookup_union_r, Himp; [done|].
    apply lookup_kmap_None; [done|]. intros name ->.
    apply not_elem_of_dom. intros Hin. by apply (Hkey name).
Qed.
End Imports.

(** A module [m] with a function [f] and a global [k]. *)
Definition m_statements : list node :=
  [ FunctionNode "f" [] VoidType [];
    AssignmentNode "k" (Some IntType) (NumberNode 1) true ].

Definition m_files (module_name : string) : file_outcome :=
  if String.eqb module_name "m" then Parsed m_statements else NotFound.

Definition no_files (module_name : string) : file_outcome := NotFound.

Definition m_loaded : Resolver.t :=
  Resolver.mk {[ "m" := _extract_exported_symbols m_statements ]} ∅.

Lemma load_module_uses_cache_witness :
  load_module no_files m_loaded "m"
  = Ok (m_loaded, _extract_exported_symbols m_statements).
Proof.
  apply (load_module_uses_cache m_files no_files (Resolver.mk ∅ ∅) m_loaded "m"
           (_extract_exported_symbols m_statements)).
  reflexivity.
Defined.

Definition m_imported : Resolver.t :=
  Resolver.mk {[ "m" := _extract_exported_symbols m_statements ]}
    (_extract_exported_symbols m_statements ∪ ∅).

Lemma imports_only_grow_witness :
  loaded_modules (Resolver.mk ∅ ∅) ⊆ loaded_modules m_imported
  /\ dom (imported_symbols (Resolver.mk ∅ ∅)) ⊆ dom (imported_symbols m_imported).
Proof.
  apply (imports_only_grow (SI := elements_iteration) m_files
           [PrintNode (NumberNode 1); UseNode "m" None true]
           (Resolver.mk ∅ ∅) m_imported).
  reflexivity.
Defined.

Lemma use_select_all_imports_every_symbol_witness :
  exists st',
    _handle_use_statement (SI := elements_iteration) m_files (Resolver.mk ∅ ∅) "m"
      None true = Ok st'
    /\ loaded_modules st' = loaded_modules m_loaded
    /\ forall name,
         imported_symbols st' !! name
         = match _extract_exported_symbols m_statements !! name with
           | Some info => Some info
           | None => imported_symbols (Resolver.mk ∅ ∅) !! name
           end.
Proof.
  apply (use_select_all_imports_every_symbol (SI := elements_iteration) m_files
           (Resolver.mk ∅ ∅) m_loaded "m" None (_extract_exported_symbols m_statements)).
  reflexivity.
Defined.

Lemma use_module_imports_qualified_names_witness :
  exists st',
    _handle_use_statement (SI := elements_iteration) m_files (Resolver.mk ∅ ∅) "m"
      None false = Ok st'
    /\ (forall name info,
          _extract_exported_symbols m_statements !! name = Some info ->
          imported_symbols st' !! ("m" +:+ "." +:+ name) = Some info)
    /\ (forall key,
          (forall name, name ∈ dom (_extract_exported_symbols m_statements) ->
                        key <> "m" +:+ "." +:+ name) ->
          imported_symbols st' !! key = imported_symbols (Resolver.mk ∅ ∅) !! key).
Proof.
  apply (use_module_imports_qualified_names (SI := elements_iteration) m_files
           (Resolver.mk ∅ ∅) m_loaded "m" None (_extract_exported_symbols m_statements)).
  - reflexivity.
  - by left.
Defined.
End ResolverImports.

Module StructsLayout.
Import Ast Structs.

Lemma field_indices_lookup (fields : list (string * Ty)) (field_name : string) (i : nat) :
  (field_name, i) ∈ field_indices fields
  <-> exists field_type, fields !! i = Some (field_name, field_type).
Proof.
  unfold field_indices. rewrite list_elem_of_lookup. split.
  - intros (j & Hj). rewrite list_lookup_imap in Hj.
    destruct (fields !! j) as [[n ty]|] eqn:Hf; [|discriminate].
    simpl in Hj. injection Hj as <- <-. by exists ty.
  - intros (ty & Hf). exists i. rewrite list_lookup_imap, Hf. done.
Qed.

(** The loop over the fields gives one LLVM type per field, and the
    type of a reference to a struct is [i8*]. *)
Lemma definition_field_types_layout (fields : list (string * Ty)) :
  forall st field_types st',
    definition_field_types st fields = Ok (field_types, st') ->
    length field_types = length fields
    /\ forall i field_name target target_fields is_mutable,
         fields !! i
         = Some (field_name, ReferenceType (StructType target target_fields) is_mutable) ->
         field_types !! i = Some (ir.as_pointer (ir.IntType 8)).
Proof.
  induction fields as [|[fname fty] fields IH]; intros st field_types st' Hd.
  { injection Hd as <- <-. split; [done|]. intros i ? ? ? ? Hi.
    by rewrite lookup_nil in Hi. }
  cbn -[_convert_type] in Hd.
  match type of Hd with
  | mbind _ ?first = _ => destruct first as [[ty1 st1]| |] eqn:Hfirst
  end; try discriminate.
  cbn -[_convert_type] in Hd.
  destruct (definition_field_types st1 fields) as [[tys st2]| |] eqn:Hrest;
    try discriminate.
  cbn in Hd. injection Hd as <- <-.
  destruct (IH _ _ _ Hrest) as [Hlen Href]. split; [simpl; by rewrite Hlen|].
  intros [|i] field_name target target_fields is_mutable Hi; simpl in Hi.
  - injection Hi as -> ->. by injection Hfirst as <- <-.
  - simpl. eauto.
Qed.

(** The layout a struct definition is recorded with: the LLVM struct
    type has one element per field, the index recorded for a field
    name addresses an element of it, and a field that is a reference
    to a struct is an [i8*], whatever the struct referred to. *)
Theorem struct_definition_layout (st st' : t) (d : StructDef) :
  _process_struct_definition st d = Ok st' ->
  exists field_types,
    struct_types st' !! name d = Some (ir.LiteralStructType field_types)
    /\ length field_types = length (fields d)
    /\ struct_fields st' !! name d = Some (field_indices (fields d))
    /\ struct_field_types st' !! name d = Some (fields d)
    /\ (forall field_name i,
          (field_name, i) ∈ field_indices (fields d) -> is_Some (field_types !! i))
    /\ (forall i field_name target target_fields is_mutable,
          fields d !! i
          = Some (field_name, ReferenceType (StructType target target_fields) is_mutable) ->
          field_types !! i = Some (ir.as_pointer (ir.IntType 8))).
Proof.
  unfold _process_struct_definition.
  destruct (definition_field_types st (fields d)) as [[field_types st1]| |] eqn:Hd;
    try discriminate.
  cbn. intros [= <-]. exists field_types.
  destruct (definition_field_types_layout _ _ _ _ Hd) as [Hlen Href].
  simpl. rewrite !lookup_insert_eq. split; [done|]. split; [done|].
  split; [done|]. split; [done|]. split; [|exact Href].
  intros field_name i Hin. apply field_indices_lookup in Hin as (ty & Hi).
  apply lookup_lt_is_Some. rewrite Hlen. by eapply lookup_lt_Some.
Qed.

(** A list node: a value and a reference to the next node. *)
Definition list_node : StructDef :=
  mkdef "Node" [ ("value", IntType);
                 ("next", ReferenceType (StructType "Node" []) true) ].

Definition list_node_tables : t :=
  store_metadata
    (set_struct_type empty "Node"
       (ir.LiteralStructType [ir.int_type; ir.as_pointer (ir.IntType 8)])
       (Defined list_node))
    list_node (auto_references list_node).

Lemma struct_definition_layout_witness :
  exists field_types,
    struct_types list_node_tables !! name list_node
    = Some (ir.LiteralStructType field_types)
    /\ length field_types = length (fields list_node)
    /\ struct_fields list_node_tables !! name list_node
       = Some (field_indices (fields list_node))
    /\ struct_field_types list_node_tables !! name list_node = Some (fields list_node)
    /\ (forall field_name i,
          (field_name, i) ∈ field_indices (fields list_node) ->
          is_Some (field_types !! i))
    /\ (forall i field_name target target_fields is_mutable,
          fields list_node !! i
          = Some (field_name, ReferenceType (StructType target target_fields) is_mutable) ->
          field_types !! i = Some (ir.as_pointer (ir.IntType 8))).
Proof.
  apply (struct_definition_layout empty list_node_tables list_node).
  reflexivity.
Defined.
End StructsLayout.

Module DeclNames.
Import Ast Decl.

(** The names of the functions and of the globals a program
    declares, in the order of the statements. *)
Definition function_names (statements : list node) : list string :=
  omap (fun stmt => match stmt with
                    | FunctionNode name _ _ _ => Some name
                    | _ => None
                    end) statements.

Definition global_names (statements : list node) : list string :=
  omap (fun stmt => match stmt with
                    | AssignmentNode identifier _ _ true => Some identifier
                    | _ => None
                    end) statements.

Lemma register_ok (st st' : t) (name : string) :
  register st name = Ok st' ->
  (name ∉ module_names st)
  /\ module_names st' = module_names st ++ [name]
  /\ global_vars st' = global_vars st.
Proof.
  unfold register. destruct (decide (name ∈ module_names st)); [discriminate|].
  by intros [= <-].
Qed.

Lemma declare_function_ok (st st' : t) (name : string)
    (params : list (string * Ty)) (return_type : Ty) :
  _declare_function st name params return_type = Ok st' ->
  (name ∉ module_names st)
  /\ module_names st' = module_names st ++ [name]
  /\ global_vars st' = global_vars st.
Proof.
  unfold _declare_function.
  destruct (signature_types _ _) as [[param_types tbl]| |]; try discriminate.
  cbn [mbind result_bind rbind].
  destruct (signature_type _ _) as [[ll_return tbl']| |]; try discriminate.
  cbn [mbind result_bind rbind].
  destruct (register _ _) as [st1| |] eqn:Hreg; try discriminate.
  cbn [mbind result_bind rbind]. intros [= <-].
  apply register_ok in Hreg as (H1 & H2 & H3). simpl in *. done.
Qed.

Lemma declare_global_ok (st st' : t) (identifier : string) (var_type : option Ty) :
  _declare_global_variable st identifier var_type = Ok st' ->
  (identifier ∈ dom (global_vars st)
   /\ module_names st' = module_names st /\ global_vars st' = global_vars st)
  \/ ((identifier ∉ module_names st)
      /\ module_names st' = module_names st ++ [identifier]
      /\ dom (global_vars st') = {[ identifier ]} ∪ dom (global_vars st)).
Proof.
  unfold _declare_global_variable.
  destruct (decide (identifier ∈ dom (global_vars st))) as [Hin|Hin].
  { intros H. left. split; [done|].
    destruct var_type as [var_type|]; [|by injection H as <-].
    destruct (type_map st !! identifier) as [existing|]; [|by injection H as <-].
    destruct (negb _); [discriminate|]. by injection H as <-. }
  destruct (Structs._convert_type_opt _ _) as [[ll_type tbl]| |]; try discriminate.
  cbn [mbind result_bind rbind].
  match goal with
  | |- mbind _ ?m = _ -> _ => destruct m as [[gv_type tbl']| |]
  end; try discriminate.
  cbn [mbind result_bind rbind].
  destruct (register _ _) as [st1| |] eqn:Hreg; try discriminate.
  cbn [mbind result_bind rbind]. intros [= <-]. right.
  apply register_ok in Hreg as (H1 & H2 & H3). simpl in *.
  split; [done|]. split; [done|]. rewrite dom_insert_L, H3. done.
Qed.

Lemma declare_statements_names (statements : list node) :
  forall st declared_globals st',
    declare_statements st declared_globals statements = Ok st' ->
    declared_globals ⊆ dom (global_vars st) ->
    (forall g, g ∈ dom (global_vars st) -> g ∈ module_names st) ->
    NoDup (function_names statements)
    /\ (forall f, f ∈ function_names statements ->
          (f ∉ module_names st) /\ (f ∉ global_names statements))
    /\ (forall g, g ∈ global_names statements ->
          g ∈ module_names st -> g ∈ dom (global_vars st)).
Proof.
  induction statements as [|stmt statements IH]; intros st dg st' Hd Hdg Hgv.
  { split; [constructor|]. split; intros x Hx; by apply elem_of_nil in Hx. }
  destruct stmt;
    try (exact (IH st dg st' Hd Hdg Hgv)).
  - (* an assignment *)
    destruct is_global; [|exact (IH st dg st' Hd Hdg Hgv)].
    cbn [declare_statements] in Hd.
    change (global_names (AssignmentNode identifier var_type stmt true :: statements))
      with (identifier :: global_names statements).
    change (function_names (AssignmentNode identifier var_type stmt true :: statements))
      with (function_names statements).
    destruct (decide (identifier ∈ dg)) as [Hin|Hin].
    + destruct (IH st dg st' Hd Hdg Hgv) as (Hnd & Hf & Hg).
      split; [done|]. split.
      * intros f Hfin. destruct (Hf f Hfin) as [H1 H2]. split; [done|].
        apply not_elem_of_cons. split; [|done]. intros ->. apply H1, Hgv, Hdg, Hin.
      * intros g Hgin Hm. apply elem_of_cons in Hgin as [->|Hgin]; [by apply Hdg|auto].
    + destruct (_declare_global_variable st identifier var_type) as [st1| |] eqn:Hglob;
        try discriminate.
      cbn [mbind result_bind rbind] in Hd.
      apply declare_global_ok in Hglob.
      assert (Hsub : forall x, x ∈ module_names st -> x ∈ module_names st1).
      { intros x Hx. destruct Hglob as [(_ & Hm & _)|(_ & Hm & _)]; rewrite Hm; [done|].
        apply elem_of_app. by left. }
      assert (Hid : identifier ∈ dom (global_vars st1)).
      { destruct Hglob as [(H & _ & Hg)|(_ & _ & Hg)]; rewrite Hg; [done|set_solver]. }
      assert (Hgv1 : forall g, g ∈ dom (global_vars st1) -> g ∈ module_names st1).
      { intros g Hgin. destruct Hglob as [(_ & Hm & Hg)|(_ & Hm & Hdom)]; rewrite Hm.
        { apply Hgv. by rewrite <- Hg. }
        rewrite Hdom in Hgin. apply elem_of_app.
        apply elem_of_union in Hgin as [Hgin|Hgin].
        - right. apply elem_of_singleton in Hgin as ->. by apply list_elem_of_singleton.
        - left. auto. }
      assert (Hdg1 : {[ identifier ]} ∪ dg ⊆ dom (global_vars st1)).
      { destruct Hglob as [(H & _ & Hg)|(_ & _ & Hdom)]; [rewrite Hg|rewrite Hdom];
          set_solver. }
      destruct (IH st1 _ st' Hd Hdg1 Hgv1) as (Hnd & Hf & Hg).
      split; [done|]. split.
      * intros f Hfin. destruct (Hf f Hfin) as [H1 H2]. split; [auto|].
        apply not_elem_of_cons. split; [|done]. intros ->. auto.
      * intros g Hgin Hm. apply elem_of_cons in Hgin as [->|Hgin].
        -- destruct Hglob as [(H & _ & _)|(H & _ & _)]; [done|by destruct H].
        -- pose proof (Hg g Hgin (Hsub g Hm)) as Hg1.
           destruct Hglob as [(_ & _ & Heq)|(H & _ & Hdom)]; [by rewrite <- Heq|].
           rewrite Hdom in Hg1. apply elem_of_union in Hg1 as [Hg1|Hg1]; [|done].
           apply elem_of_singleton in Hg1 as ->. by destruct H.
  - (* a function *)
    cbn [declare_statements] in Hd.
    change (global_names (FunctionNode name params return_type body :: statements))
      with (global_names statements).
    change (function_names (FunctionNode name params return_type body :: statements))
      with (name :: function_names statements).
    destruct (_declare_function st name params return_type) as [st1| |] eqn:Hfun;
      try discriminate.
    cbn [mbind result_bind rbind] in Hd.
    apply declare_function_ok in Hfun as (Hfresh & Hnames & Hglobals).
    assert (Hgv1 : forall g, g ∈ dom (global_vars st1) -> g ∈ module_names st1).
    { intros g Hgin. rewrite Hnames. apply elem_of_app. left. apply Hgv.
      by rewrite <- Hglobals. }
    assert (Hdg1 : dg ⊆ dom (global_vars st1)) by (by rewrite Hglobals).
    destruct (IH st1 dg st' Hd Hdg1 Hgv1) as (Hnd & Hf & Hg).
    assert (Hname : name ∈ module_names st1).
    { rewrite Hnames. apply elem_of_app. right. by apply list_elem_of_singleton. }
    split; [|split].
    + constructor; [|done]. intros Hin. by destruct (Hf name Hin) as [H _].
    + intros f Hfin. apply elem_of_cons in Hfin as [->|Hfin].
      * split; [done|]. intros Hgin. apply Hfresh, Hgv.
        rewrite <- Hglobals. by apply Hg.
      * destruct (Hf f Hfin) as [H1 H2]. split; [|done]. intros Hin. apply H1.
        rewrite Hnames. apply elem_of_app. by left.
    + intros g Hgin Hm. rewrite <- Hglobals. apply Hg; [done|].
      rewrite Hnames. apply elem_of_app. by left.
Qed.

(** A program whose declaration pass succeeds declares every function
    once, under a name that is neither the name of a global of the
    program nor the name of an external function of the runtime, and
    no global has the name of an external function: any such clash
    makes the pass raise. *)
Theorem declared_names_are_distinct (tbl : Structs.t) (statements : list node) (st : t) :
  declare_program tbl statements = Ok st ->
  NoDup (function_names statements)
  /\ (forall f, f ∈ function_names statements ->
        (f ∉ ir.fname <$> ir.external_functions) /\ (f ∉ global_names statements))
  /\ (forall g, g ∈ global_names statements -> g ∉ ir.fname <$> ir.external_functions).
Proof.
  intros Hd. unfold declare_program in Hd.
  destruct (declare_statements_names statements (init tbl) ∅ st Hd) as (Hnd & Hf & Hg).
  - set_solver.
  - simpl. intros g Hgin. by rewrite dom_empty_L in Hgin.
  - split; [done|]. split; [exact Hf|]. intros g Hgin Hext.
    pose proof (Hg g Hgin Hext) as H. simpl in H. by rewrite dom_empty_L in H.
Qed.

(** A global [n] and a function [f]. *)
Definition small_program : list node :=
  [ AssignmentNode "n" (Some IntType) (NumberNode 1) true;
    FunctionNode "f" [("a", IntType)] IntType [ReturnNode (Some (IdentifierNode "a"))] ].

Lemma declared_names_are_distinct_witness :
  NoDup (function_names small_program)
  /\ (forall f, f ∈ function_names small_program ->
        (f ∉ ir.fname <$> ir.external_functions) /\ (f ∉ global_names small_program))
  /\ (forall g, g ∈ global_names small_program ->
        g ∉ ir.fname <$> ir.external_functions).
Proof.
  destruct (declare_program Structs.empty small_program) as [st| |] eqn:H.
  - exact (declared_names_are_distinct Structs.empty small_program st H).
  - exfalso. vm_compute in H. discriminate H.
  - exfalso. vm_compute in H. discriminate H.
Defined.
End DeclNames.

Module ArithmeticFacts.
Import Ast Emit Lower Machine EmitFacts MachineFacts LowerFacts LogicalFacts.

(** The integer instruction of an arithmetic operator. *)
Definition arith_opcode (operator : TokenType) : option ir.opcode :=
  match operator with
  | PLUS => Some ir.add
  | MINUS => Some ir.sub
  | MULTIPLY => Some ir.mul
  | DIVIDE => Some ir.sdiv
  | MODULO => Some ir.srem
  | _ => None
  end.

(** The predicate of an order comparison. *)
Definition order_cmpop (operator : TokenType) : option ir.cmpop :=
  match operator with
  | GT => Some ir.cmp_gt
  | LT => Some ir.cmp_lt
  | GTE => Some ir.cmp_ge
  | LTE => Some ir.cmp_le
  | _ => None
  end.

(** The exact result of [+], [-] and [*]. *)
Definition exact_result (operator : TokenType) (x y : Z) : Z :=
  match operator with
  | PLUS => x + y
  | MINUS => x - y
  | _ => x * y
  end.

Definition operands_error : exn := ValueError "Operands must be the same type".

Lemma arith_emits (e : t) (operator : TokenType) (op : ir.opcode)
    (lhs rhs : ir.value) (w : Z) :
  arith_opcode operator = Some op ->
  ir.type_of lhs = ir.IntType w ->
  ir.type_of rhs = ir.IntType w ->
  exists e',
    binary_op e operator lhs rhs = Ok (ir.Register (ir.IntType w) (next_id e), e')
    /\ current_code e' = current_code e ++ [ir.binop (next_id e) op lhs rhs]
    /\ Emit.block e' = Emit.block e.
Proof.
  intros Hop Tl Tr.
  destruct e as [g bl b k cf aa ac ptrs].
  destruct lhs as [tl cl|tl il|tl il|tl nl|tl il|]; try done.
  all: destruct rhs as [tr cr|tr ir|tr ir|tr nr|tr ir|]; try done.
  all: cbn [ir.type_of] in Tl, Tr; subst tl tr.
  all: destruct operator; try discriminate Hop; injection Hop as <-.
  all: eexists; split;
    [ unfold binary_op, arith, is_string, builder_binop, emit_value, emit;
      cbn [ir.type_of ir.is_double ir.is_int orb andb negb next_id blocks Emit.block
           with_next_id with_blocks ir.type_eqb ir.string_type];
      rewrite ?Z.eqb_refl; reflexivity
    | ].
  all: unfold current_code; cbn [blocks Emit.block with_next_id with_blocks].
  all: rewrite ?block_code_append_to.
  all: split; reflexivity.
Qed.

Lemma arith_width_mismatch (e : t) (operator : TokenType) (op : ir.opcode)
    (lhs rhs : ir.value) (wl wr : Z) :
  arith_opcode operator = Some op ->
  ir.type_of lhs = ir.IntType wl ->
  ir.type_of rhs = ir.IntType wr ->
  wl <> wr ->
  binary_op e operator lhs rhs = Raise operands_error.
Proof.
  intros Hop Tl Tr Hne. apply Z.eqb_neq in Hne.
  destruct lhs as [tl cl|tl il|tl il|tl nl|tl il|]; try done.
  all: destruct rhs as [tr cr|tr ir|tr ir|tr nr|tr ir|]; try done.
  all: cbn [ir.type_of] in Tl, Tr; subst tl tr.
  all: destruct operator; try discriminate Hop.
  all: unfold binary_op, arith, is_string, builder_binop;
    cbn [ir.type_of ir.is_double ir.is_int orb andb negb ir.type_eqb ir.string_type];
    rewrite Hne; reflexivity.
Qed.

Lemma order_emits (e : t) (operator : TokenType) (op : ir.cmpop)
    (lhs rhs : ir.value) (wl wr : Z) :
  order_cmpop operator = Some op ->
  ir.type_of lhs = ir.IntType wl ->
  ir.type_of rhs = ir.IntType wr ->
  exists e',
    binary_op e operator lhs rhs = Ok (ir.Register (ir.IntType 1) (next_id e), e')
    /\ current_code e' = current_code e ++ [ir.icmp (next_id e) ir.signed op lhs rhs]
    /\ Emit.block e' = Emit.block e.
Proof.
  intros Hop Tl Tr.
  destruct e as [g bl b k cf aa ac ptrs].
  destruct lhs as [tl cl|tl il|tl il|tl nl|tl il|]; try done.
  all: destruct rhs as [tr cr|tr ir|tr ir|tr nr|tr ir|]; try done.
  all: cbn [ir.type_of] in Tl, Tr; subst tl tr.
  all: destruct operator; try discriminate Hop; injection Hop as <-.
  all: eexists; split;
    [ unfold binary_op, compare, builder_icmp, emit_value, emit;
      cbn [ir.type_of ir.is_double ir.is_int orb andb negb next_id blocks Emit.block
           with_next_id with_blocks];
      reflexivity
    | ].
  all: unfold current_code; cbn [blocks Emit.block with_next_id with_blocks].
  all: rewrite ?block_code_append_to.
  all: split; reflexivity.
Qed.



Lemma exec_one (i : ir.instruction) (s s1 : state) :
  step i s = Done (Next, s1) -> exec [i] s = Done (Next, s1).
Proof. intros H. simpl. by rewrite H. Qed.

Section Lowering.
Variable lower_other : node -> option ir.type -> Emit.t -> result (ir.value * Emit.t).

Lemma binary_lowering (l r : node) (operator : TokenType) (e e1 e2 : Emit.t)
    (lv rv : ir.value) :
  _generate_expression lower_other l None e = Ok (lv, e1) ->
  _generate_expression lower_other r None e1 = Ok (rv, e2) ->
  _generate_expression lower_other (BinaryOpNode l operator r) None e
  = binary_op e2 operator lv rv.
Proof. intros Hl Hr. simpl. rewrite Hl. simpl. rewrite Hr. done. Qed.

(** [+], [-] and [*] on two integers of the same width: one
    instruction is emitted after the operands, and its result is
    the exact result reduced modulo 2^width; nothing checks for an
    overflow. *)
Theorem integer_arithmetic_wraps (operator : TokenType) (op : ir.opcode) (l r : node)
    (e e1 e2 : Emit.t) (lv rv : ir.value) (w x y : Z) (s : state) :
  operator = PLUS \/ operator = MINUS \/ operator = MULTIPLY ->
  arith_opcode operator = Some op ->
  _generate_expression lower_other l None e = Ok (lv, e1) ->
  _generate_expression lower_other r None e1 = Ok (rv, e2) ->
  ir.type_of lv = ir.IntType w ->
  ir.type_of rv = ir.IntType w ->
  eval s lv = Done (VInt x) ->
  eval s rv = Done (VInt y) ->
  exists (e' : Emit.t) (s' : state),
    _generate_expression lower_other (BinaryOpNode l operator r) None e
    = Ok (ir.Register (ir.IntType w) (next_id e2), e')
    /\ current_code e' = current_code e2 ++ [ir.binop (next_id e2) op lv rv]
    /\ exec [ir.binop (next_id e2) op lv rv] s = Done (Next, s')
    /\ regs s' !! next_id e2 = Some (VInt ((exact_result operator x y) mod 2 ^ w))
    /\ mem s' = mem s /\ trace s' = trace s.
Proof.
  intros Hwhich Hop Hl Hr Tl Tr Hx Hy.
  rewrite (binary_lowering _ _ _ _ _ _ _ _ Hl Hr).
  destruct (arith_emits e2 operator op lv rv w Hop Tl Tr) as (e' & H1 & H2 & _).
  exists e'. eexists. split; [exact H1|]. split; [exact H2|]. split.
  { apply exec_one.
    apply (step_binop s _ _ _ _ x y w (wrap w (exact_result operator x y)) Hx Hy).
    - by rewrite Tl.
    - destruct Hwhich as [->|[->| ->]]; injection Hop as <-; reflexivity. }
  simpl. by rewrite lookup_insert_eq.
Qed.

(** [/] and [%] on two integers of the same width emit a single
    [sdiv] or [srem] and no test of the divisor: with a divisor
    that is zero the run is undefined; otherwise (the quotient of
    the least integer by -1 apart) the result is the quotient
    truncated toward zero, or its remainder, of the signed
    readings. *)
Theorem integer_division_unchecked (operator : TokenType) (op : ir.opcode) (l r : node)
    (e e1 e2 : Emit.t) (lv rv : ir.value) (w x y : Z) (s : state) :
  operator = DIVIDE \/ operator = MODULO ->
  arith_opcode operator = Some op ->
  _generate_expression lower_other l None e = Ok (lv, e1) ->
  _generate_expression lower_other r None e1 = Ok (rv, e2) ->
  ir.type_of lv = ir.IntType w ->
  ir.type_of rv = ir.IntType w ->
  eval s lv = Done (VInt x) ->
  eval s rv = Done (VInt y) ->
  exists e' : Emit.t,
    _generate_expression lower_other (BinaryOpNode l operator r) None e
    = Ok (ir.Register (ir.IntType w) (next_id e2), e')
    /\ current_code e' = current_code e2 ++ [ir.binop (next_id e2) op lv rv]
    /\ (y = 0%Z ->
        exec [ir.binop (next_id e2) op lv rv] s = Undefined "division by zero")
    /\ (y <> 0%Z ->
        (to_signed w x <> - 2 ^ (w - 1) \/ to_signed w y <> -1)%Z ->
        exists s',
          exec [ir.binop (next_id e2) op lv rv] s = Done (Next, s')
          /\ regs s' !! next_id e2
             = Some (VInt (wrap w (match operator with
                                   | DIVIDE => Z.quot (to_signed w x) (to_signed w y)
                                   | _ => Z.rem (to_signed w x) (to_signed w y)
                                   end)))
          /\ mem s' = mem s /\ trace s' = trace s).
Proof.
  intros Hwhich Hop Hl Hr Tl Tr Hx Hy.
  rewrite (binary_lowering _ _ _ _ _ _ _ _ Hl Hr).
  destruct (arith_emits e2 operator op lv rv w Hop Tl Tr) as (e' & H1 & H2 & _).
  exists e'. split; [exact H1|]. split; [exact H2|]. split.
  - intros ->. apply exec_stops. unfold step. rewrite Hx, Hy. simpl. rewrite Tl.
    simpl. destruct Hwhich as [-> | ->]; injection Hop as <-; reflexivity.
  - intros Hne _.
    destruct Hwhich as [-> | ->]; injection Hop as <-.
    all: eexists; split;
      [ apply exec_one; eapply (step_binop s _ _ _ _ x y w _ Hx Hy);
        [ by rewrite Tl
        | unfold do_binop; rewrite decide_False by done; reflexivity ]
      | simpl; by rewrite lookup_insert_eq ].
Qed.

(** Arithmetic on two integers of different widths, such as a
    [bool] and an [int], emits nothing: the lowering raises the
    [ValueError] of the operand check of the IR builder. *)
Theorem mixed_width_arithmetic_raises (operator : TokenType) (op : ir.opcode)
    (l r : node) (e e1 e2 : Emit.t) (lv rv : ir.value) (wl wr : Z) :
  arith_opcode operator = Some op ->
  _generate_expression lower_other l None e = Ok (lv, e1) ->
  _generate_expression lower_other r None e1 = Ok (rv, e2) ->
  ir.type_of lv = ir.IntType wl ->
  ir.type_of rv = ir.IntType wr ->
  wl <> wr ->
  exists message,
    _generate_expression lower_other (BinaryOpNode l operator r) None e
    = Raise (ValueError message).
Proof.
  intros Hop Hl Hr Tl Tr Hne. eexists.
  rewrite (binary_lowering _ _ _ _ _ _ _ _ Hl Hr).
  by eapply arith_width_mismatch.
Qed.

(** [<], [>], [<=] and [>=] on two integers of the same width emit
    one signed comparison: the result is 1 when the signed readings
    of the operands are in the order asked for, and 0 otherwise. *)
Theorem order_comparison_is_signed (operator : TokenType) (op : ir.cmpop) (l r : node)
    (e e1 e2 : Emit.t) (lv rv : ir.value) (w x y : Z) (s : state) :
  order_cmpop operator = Some op ->
  _generate_expression lower_other l None e = Ok (lv, e1) ->
  _generate_expression lower_other r None e1 = Ok (rv, e2) ->
  ir.type_of lv = ir.IntType w ->
  ir.type_of rv = ir.IntType w ->
  eval s lv = Done (VInt x) ->
  eval s rv = Done (VInt y) ->
  exists (e' : Emit.t) (s' : state),
    _generate_expression lower_other (BinaryOpNode l operator r) None e
    = Ok (ir.Register (ir.IntType 1) (next_id e2), e')
    /\ current_code e' = current_code e2 ++ [ir.icmp (next_id e2) ir.signed op lv rv]
    /\ exec [ir.icmp (next_id e2) ir.signed op lv rv] s = Done (Next, s')
    /\ regs s' !! next_id e2
       = Some (VInt (Z.b2z (compare_Z op (to_signed w x) (to_signed w y))))
    /\ mem s' = mem s /\ trace s' = trace s.
Proof.
  intros Hop Hl Hr Tl Tr Hx Hy.
  rewrite (binary_lowering _ _ _ _ _ _ _ _ Hl Hr).
  destruct (order_emits e2 operator op lv rv w w Hop Tl Tr) as (e' & H1 & H2 & _).
  exists e'. eexists. split; [exact H1|]. split; [exact H2|]. split.
  { apply exec_one. eapply (step_icmp s _ _ _ _ _ _ _ _ Hx Hy).
    rewrite Tl. reflexivity. }
  simpl. by rewrite lookup_insert_eq.
Qed.

End Lowering.

Lemma integer_arithmetic_wraps_witness :
  exists (e' : Emit.t) (s' : state),
    _generate_expression unsupported_expression
      (BinaryOpNode (NumberNode 9223372036854775807) PLUS (NumberNode 1)) None main_entry
    = Ok (ir.Register (ir.IntType 64) 0, e')
    /\ regs s' !! 0 = Some (VInt 9223372036854775808).
Proof.
  destruct (integer_arithmetic_wraps unsupported_expression PLUS ir.add
              (NumberNode 9223372036854775807) (NumberNode 1) main_entry _ _ _ _
              64 9223372036854775807 1 (initial ledger_globals)
              (or_introl eq_refl) eq_refl eq_refl eq_refl eq_refl eq_refl
              eq_refl eq_refl)
    as (e' & s' & H1 & _ & _ & H2 & _).
  exists e', s'. split; [exact H1|exact H2].
Defined.

Lemma integer_division_unchecked_witness :
  exists e' : Emit.t,
    _generate_expression unsupported_expression
      (BinaryOpNode (NumberNode 7) DIVIDE (NumberNode 0)) None main_entry
    = Ok (ir.Register (ir.IntType 64) 0, e')
    /\ exec [ir.binop 0 ir.sdiv (ir.Constant ir.int_type (ir.CInt 7))
               (ir.Constant ir.int_type (ir.CInt 0))] (initial ledger_globals)
       = Undefined "division by zero".
Proof.
  destruct (integer_division_unchecked unsupported_expression DIVIDE ir.sdiv
              (NumberNode 7) (NumberNode 0) main_entry _ _ _ _
              64 7 0 (initial ledger_globals)
              (or_introl eq_refl) eq_refl eq_refl eq_refl eq_refl eq_refl
              eq_refl eq_refl)
    as (e' & H1 & _ & H2 & _).
  exists e'. split; [exact H1|exact (H2 eq_refl)].
Defined.

Lemma mixed_width_arithmetic_raises_witness :
  exists message,
    _generate_expression unsupported_expression
      (BinaryOpNode (BooleanNode true) PLUS (NumberNode 1)) None main_entry
    = Raise (ValueError message).
Proof.
  apply (mixed_width_arithmetic_raises unsupported_expression PLUS ir.add
           (BooleanNode true) (NumberNode 1) main_entry _ _ _ _ 1 64
           eq_refl eq_refl eq_refl eq_refl eq_refl).
  discriminate.
Defined.

Lemma order_comparison_is_signed_witness :
  exists (e' : Emit.t) (s' : state),
    _generate_expression unsupported_expression
      (BinaryOpNode (NumberNode (-1)) LT (NumberNode 1)) None main_entry
    = Ok (ir.Register (ir.IntType 1) 0, e')
    /\ regs s' !! 0 = Some (VInt 1).
Proof.
  destruct (order_comparison_is_signed unsupported_expression LT ir.cmp_lt
              (NumberNode (-1)) (NumberNode 1) main_entry _ _ _ _
              64 18446744073709551615 1 (initial ledger_globals)
              eq_refl eq_refl eq_refl eq_refl eq_refl eq_refl eq_refl)
    as (e' & s' & H1 & _ & _ & H2 & _).
  exists e', s'. split; [exact H1|exact H2].
Defined.

End ArithmeticFacts.

Module StringFacts.
Import Machine EmitFacts MachineFacts LowerFacts LogicalFacts.

(** [stored cells offset bytes]: the cells from [offset] on hold the
    bytes. *)
Definition stored (cells : gmap Z val) (offset : Z) (bytes : list Z) : Prop :=
  forall i c, bytes !! i = Some c -> cells !! (offset + Z.of_nat i)%Z = Some (VInt c).

(** A pointer that does not address the two objects of the ledger. *)
Definition outside_ledger (p : val) : Prop :=
  match p with
  | VPtr b _ => b <> count_block /\ b <> array_block
  | _ => True
  end.

Lemma write_bytes_other (bytes : list Z) :
  forall cells offset j,
    (j < offset \/ offset + Z.of_nat (length bytes) <= j)%Z ->
    write_bytes cells offset bytes !! j = cells !! j.
Proof.
  induction bytes as [|c bytes IH]; intros cells offset j Hj; [done|].
  simpl in *. rewrite IH by lia. apply lookup_insert_ne. lia.
Qed.

Lemma write_bytes_stored (bytes : list Z) :
  forall cells offset, stored (write_bytes cells offset bytes) offset bytes.
Proof.
  induction bytes as [|c bytes IH]; intros cells offset i x Hi.
  { by rewrite lookup_nil in Hi. }
  destruct i as [|i]; simpl in *.
  - injection Hi as <-. rewrite write_bytes_other by lia.
    rewrite Z.add_0_r. apply lookup_insert_eq.
  - replace (offset + Z.of_nat (S i))%Z with (offset + 1 + Z.of_nat i)%Z by lia.
    by apply IH.
Qed.

Lemma read_cstring_spec (fuel : nat) :
  forall obj offset bytes,
    read_cstring fuel obj offset = Some bytes ->
    Forall (fun c => c <> 0%Z) bytes
    /\ (0 <= offset)%Z
    /\ (offset + Z.of_nat (length bytes) + 1 <= size obj)%Z.
Proof.
  induction fuel as [|fuel IH]; intros obj offset bytes; [discriminate|]. simpl.
  destruct (decide (0 <= offset < size obj)%Z) as [Hin|]; [|discriminate].
  destruct (cells obj !! offset) as [[c| | | |]|]; try discriminate.
  destruct (decide (c = 0%Z)) as [->|Hc].
  { intros [= <-]. split; [constructor|]. simpl. lia. }
  destruct (read_cstring fuel obj (offset + 1)) as [rest|] eqn:Hrest; [|discriminate].
  simpl. intros [= <-]. destruct (IH _ _ _ Hrest) as (H1 & H2 & H3).
  split; [by constructor|]. simpl. lia.
Qed.

Lemma read_stored (bytes : list Z) :
  forall fuel obj offset,
    Forall (fun c => c <> 0%Z) bytes ->
    stored (cells obj) offset (bytes ++ [0%Z]) ->
    (0 <= offset)%Z ->
    (offset + Z.of_nat (length bytes) + 1 <= size obj)%Z ->
    length bytes < fuel ->
    read_cstring fuel obj offset = Some bytes.
Proof.
  induction bytes as [|c bytes IH]; intros fuel obj offset Hnz Hst Hoff Hsize Hfuel.
  - destruct fuel as [|fuel]; [simpl in Hfuel; lia|]. simpl in *.
    rewrite decide_True by lia.
    pose proof (Hst 0 0%Z eq_refl) as H0. rewrite Z.add_0_r in H0. rewrite H0.
    by rewrite decide_True.
  - destruct fuel as [|fuel]; [simpl in Hfuel; lia|]. simpl in *.
    rewrite decide_True by lia.
    pose proof (Hst 0 c eq_refl) as H0. rewrite Z.add_0_r in H0. rewrite H0.
    apply Forall_cons in Hnz as [Hc Hnz]. rewrite decide_False by done.
    rewrite (IH fuel obj (offset + 1)%Z); [done|done| |lia|lia|lia].
    intros i x Hi. specialize (Hst (S i) x Hi).
    replace (offset + 1 + Z.of_nat i)%Z with (offset + Z.of_nat (S i))%Z by lia. done.
Qed.

Lemma cstring_at_inv (s : state) (p : val) (bytes : list Z) :
  cstring_at s p = Done bytes ->
  exists b offset obj,
    p = VPtr b offset /\ mem s !! b = Some obj
    /\ read_cstring (S (Z.to_nat (size obj))) obj offset = Some bytes.
Proof.
  unfold cstring_at, access. destruct p as [n|numeral|b offset| |]; try discriminate.
  destruct (mem s !! b) as [obj|] eqn:Hm; [|discriminate].
  destruct (decide _); [|discriminate]. cbn -[read_cstring].
  destruct (read_cstring _ _ _) as [bs|] eqn:Hr; [|discriminate].
  intros [= <-]. by exists b, offset, obj.
Qed.

Lemma cstring_at_read (s : state) (b : block) (offset : Z) (obj : object)
    (bytes : list Z) :
  mem s !! b = Some obj ->
  read_cstring (S (Z.to_nat (size obj))) obj offset = Some bytes ->
  cstring_at s (VPtr b offset) = Done bytes.
Proof.
  intros Hm Hr. destruct (read_cstring_spec _ _ _ _ Hr) as (_ & H1 & H2).
  unfold cstring_at. rewrite (access_ok _ _ _ _ _ Hm) by lia.
  cbn -[read_cstring]. by rewrite Hr.
Qed.

Lemma cstring_at_frame (s s' : state) (p : val) (bytes : list Z) :
  cstring_at s p = Done bytes ->
  (forall b offset, p = VPtr b offset -> mem s' !! b = mem s !! b) ->
  cstring_at s' p = Done bytes.
Proof.
  intros H Hframe. apply cstring_at_inv in H as (b & offset & obj & -> & Hm & Hr).
  apply (cstring_at_read s' b offset obj); [|done]. by rewrite (Hframe b offset).
Qed.

Lemma write_cstring_ok (s : state) (b : block) (offset : Z) (obj : object)
    (bytes : list Z) :
  mem s !! b = Some obj ->
  (0 <= offset)%Z ->
  (offset + Z.of_nat (length bytes) + 1 <= size obj)%Z ->
  write_cstring s (VPtr b offset) bytes
  = Done (set_mem s (<[b := mkobj (size obj)
                              (write_bytes (cells obj) offset (bytes ++ [0%Z]))]> (mem s))).
Proof.
  intros Hm H1 H2. unfold write_cstring.
  rewrite (access_ok _ _ _ _ _ Hm) by lia. done.
Qed.

Lemma eval_regs (s s' : state) (k : nat) (v : ir.value) :
  (forall r, r < k -> regs s' !! r = regs s !! r) ->
  stable k v -> eval s' v = eval s v.
Proof.
  intros Hregs Hst. destruct v; simpl in *; try done.
  all: by rewrite Hregs.
Qed.

Lemma step_strlen (s : state) (dst : nat) (v : ir.value) (p : val) (bytes : list Z) :
  eval s v = Done p ->
  cstring_at s p = Done bytes ->
  step (ir.call dst ir.strlen [v]) s
  = Done (Next, set_reg s dst (VInt (Z.of_nat (length bytes)))).
Proof.
  intros Hv Hp. unfold step. simpl. rewrite Hv. simpl.
  unfold do_call. simpl. rewrite Hp. done.
Qed.

Lemma step_strcpy (s s1 : state) (dst : nat) (target source : ir.value) (d p : val)
    (bytes : list Z) :
  eval s target = Done d ->
  eval s source = Done p ->
  cstring_at s p = Done bytes ->
  write_cstring s d bytes = Done s1 ->
  step (ir.call dst ir.strcpy [target; source]) s = Done (Next, set_reg s1 dst d).
Proof.
  intros Ht Hs Hp Hw. unfold step. simpl. rewrite Ht, Hs. simpl.
  unfold do_call. simpl. rewrite Hp. simpl. rewrite Hw. done.
Qed.

Lemma step_strcat (s s1 : state) (dst : nat) (target source : ir.value) (d p : val)
    (head bytes : list Z) :
  eval s target = Done d ->
  eval s source = Done p ->
  cstring_at s d = Done head ->
  cstring_at s p = Done bytes ->
  write_cstring s (shift d (Z.of_nat (length head))) bytes = Done s1 ->
  step (ir.call dst ir.strcat [target; source]) s = Done (Next, set_reg s1 dst d).
Proof.
  intros Ht Hs Hd Hp Hw. unfold step. simpl. rewrite Ht, Hs. simpl.
  unfold do_call. simpl. rewrite Hd. simpl. rewrite Hp. simpl. rewrite Hw. done.
Qed.

Lemma lookup_heap_ne (m : gmap block object) (id : nat) (obj : object) (b : block) :
  is_Some (m !! b) -> m !! BHeap id = None -> <[BHeap id := obj]> m !! b = m !! b.
Proof.
  intros [o Ho] Hfresh. apply lookup_insert_ne. intros <-. congruence.
Qed.

(** The code of the [+] of two strings, run where its operands point
    to two C strings. *)
Lemma concat_runs (s : state) (ps : list val) (k : nat) (lhs rhs : ir.value)
    (pa pb : val) (a b : list Z) :
  ledger s ps ->
  length ps < 100 ->
  mem s !! BHeap (next_heap s) = None ->
  stable k lhs -> stable k rhs ->
  eval s lhs = Done pa -> eval s rhs = Done pb ->
  cstring_at s pa = Done a -> cstring_at s pb = Done b ->
  outside_ledger pa -> outside_ledger pb ->
  (Z.of_nat (length a) + Z.of_nat (length b) + 1 < 2 ^ 64)%Z ->
  exists s',
    exec (concat_code k lhs rhs) s = Done (Next, s')
    /\ regs s' !! (k + 4) = Some (heap_ptr (next_heap s))
    /\ cstring_at s' (heap_ptr (next_heap s)) = Done (a ++ b)
    /\ size <$> mem s' !! BHeap (next_heap s)
       = Some (Z.of_nat (length a) + Z.of_nat (length b) + 1)%Z
    /\ ledger s' (ps ++ [heap_ptr (next_heap s)])
    /\ trace s'
       = trace s ++ [Malloc (Z.of_nat (length a) + Z.of_nat (length b) + 1) (next_heap s)]
    /\ cstring_at s' pa = Done a
    /\ cstring_at s' pb = Done b.
Proof.
  intros Hledger Hroom Hfresh Sl Sr Hl Hr Ha Hb Oa Ob Hsmall.
  set (la := Z.of_nat (length a)) in *.
  set (lb := Z.of_nat (length b)) in *.
  set (nh := next_heap s) in *.
  destruct (cstring_at_inv _ _ _ Ha) as (ba & oa & obja & -> & Hma & Hra).
  destruct (cstring_at_inv _ _ _ Hb) as (bb & ob & objb & -> & Hmb & Hrb).
  destruct (read_cstring_spec _ _ _ _ Hra) as (Hnza & _ & _).
  destruct (read_cstring_spec _ _ _ _ Hrb) as (Hnzb & _ & _).
  destruct Oa as [Oa1 Oa2]. destruct Ob as [Ob1 Ob2].
  unfold concat_code. cbn [app].
  (* len1 = strlen(lhs) *)
  erewrite exec_next; cycle 1.
  { eapply (step_strlen s _ lhs _ a); [exact Hl|exact Ha]. }
  fold la. set (s1 := set_reg s k (VInt la)).
  (* len2 = strlen(rhs) *)
  erewrite exec_next; cycle 1.
  { eapply (step_strlen s1 _ rhs _ b).
    - unfold s1. rewrite (eval_set_reg _ k) by (done || lia). exact Hr.
    - eapply cstring_at_frame; [exact Hb|done]. }
  fold lb. set (s2 := set_reg s1 (k + 1) (VInt lb)).
  (* total_len = len1 + len2 *)
  erewrite exec_next; cycle 1.
  { eapply (step_binop s2 _ _ _ _ la lb 64 (la + lb)).
    - apply eval_register. simpl. rewrite lookup_insert_ne by lia.
      by rewrite lookup_insert_eq.
    - apply eval_register. simpl. by rewrite lookup_insert_eq.
    - reflexivity.
    - simpl. rewrite wrap_small; [done|]. lia. }
  set (s3 := set_reg s2 (k + 2) (VInt (la + lb))).
  (* total_len = total_len + 1 *)
  erewrite exec_next; cycle 1.
  { eapply (step_binop s3 _ _ _ _ (la + lb) 1 64 (la + lb + 1)).
    - apply eval_register. simpl. by rewrite lookup_insert_eq.
    - reflexivity.
    - reflexivity.
    - simpl. rewrite wrap_small; [done|]. lia. }
  set (s4 := set_reg s3 (k + 3) (VInt (la + lb + 1))).
  (* result = malloc(total_len) *)
  erewrite exec_next; cycle 1.
  { eapply (step_malloc s4 _ _ (la + lb + 1)).
    apply eval_register. simpl. by rewrite lookup_insert_eq. }
  change (next_heap s4) with nh. change (mem s4) with (mem s).
  change (trace s4) with (trace s).
  set (s5 := set_reg _ (k + 4) (heap_ptr nh)).
  assert (Hregs5 : forall r, r < k -> regs s5 !! r = regs s !! r).
  { intros r Hlt. unfold s5, s4, s3, s2, s1. simpl.
    by rewrite !lookup_insert_ne by lia. }
  assert (Hmem5 : forall blk, is_Some (mem s !! blk) -> mem s5 !! blk = mem s !! blk).
  { intros blk Hblk. unfold s5. simpl. by apply lookup_heap_ne. }
  assert (Hnew5 : mem s5 !! BHeap nh = Some (mkobj (la + lb + 1) ∅)).
  { unfold s5. simpl. by rewrite lookup_insert_eq. }
  (* the tracking of the result *)
  destruct (track_runs s5 ps (k + 5) (ir.Register ir.string_type (k + 4)) (heap_ptr nh))
    as (s6 & Htrack & Hledger6 & Htrace6 & Hnext6 & Hmem6 & Hregs6).
  { eapply ledger_frame; [| |exact Hledger].
    - unfold s5. simpl. by rewrite lookup_insert_ne.
    - unfold s5. simpl. by rewrite lookup_insert_ne. }
  { exact Hroom. }
  { reflexivity. }
  { simpl. lia. }
  { apply eval_register. unfold s5. simpl. by rewrite lookup_insert_eq. }
  rewrite (exec_app _ _ _ _ Htrack).
  assert (Hres6 : regs s6 !! (k + 4) = Some (heap_ptr nh)).
  { rewrite Hregs6 by lia. unfold s5. simpl. by rewrite lookup_insert_eq. }
  assert (Hlow6 : forall r, r < k -> regs s6 !! r = regs s !! r).
  { intros r Hlt. rewrite Hregs6 by lia. by apply Hregs5. }
  assert (Hnew6 : mem s6 !! BHeap nh = Some (mkobj (la + lb + 1) ∅)).
  { by rewrite Hmem6. }
  assert (Hold6 : forall blk, blk <> count_block -> blk <> array_block ->
            is_Some (mem s !! blk) -> mem s6 !! blk = mem s !! blk).
  { intros blk H1 H2 H3. rewrite Hmem6 by done. by apply Hmem5. }
  (* strcpy(result, lhs) *)
  erewrite exec_next; cycle 1.
  { eapply (step_strcpy s6 _ _ _ _ (heap_ptr nh) (VPtr ba oa) a).
    - by apply eval_register.
    - rewrite (eval_regs s s6 k) by done. exact Hl.
    - eapply cstring_at_frame; [exact Ha|]. intros ? ? [= <- <-]. by apply Hold6.
    - apply (write_cstring_ok s6 (BHeap nh) 0 _ a Hnew6); simpl; lia. }
  set (obj7 := mkobj (la + lb + 1) (write_bytes ∅ 0 (a ++ [0%Z]))).
  cbn [size cells].
  set (s7 := set_reg (set_mem s6 (<[BHeap nh := obj7]> (mem s6))) (k + 8) (heap_ptr nh)).
  assert (Hnew7 : mem s7 !! BHeap nh = Some obj7).
  { unfold s7. simpl. by rewrite lookup_insert_eq. }
  assert (Hold7 : forall blk, blk <> count_block -> blk <> array_block ->
            is_Some (mem s !! blk) -> mem s7 !! blk = mem s !! blk).
  { intros blk H1 H2 H3. unfold s7. simpl.
    rewrite lookup_insert_ne; [by apply Hold6|]. intros <-.
    destruct H3 as [o Ho]. congruence. }
  (* strcat(result, rhs) *)
  erewrite exec_next; cycle 1.
  { eapply (step_strcat s7 _ _ _ _ (heap_ptr nh) (VPtr bb ob) a b).
    - apply eval_register. unfold s7. simpl. by rewrite lookup_insert_ne by lia.
    - rewrite (eval_regs s s7 k); [exact Hr| |done].
      intros r Hlt. unfold s7. simpl. rewrite lookup_insert_ne by lia. by apply Hlow6.
    - apply (cstring_at_read s7 (BHeap nh) 0 obj7 a Hnew7).
      apply read_stored; simpl; try lia; [done|apply write_bytes_stored].
    - eapply cstring_at_frame; [exact Hb|]. intros ? ? [= <- <-]. by apply Hold7.
    - apply (write_cstring_ok s7 (BHeap nh) (0 + la) obj7 b Hnew7); simpl; lia. }
  fold la. cbn [size cells obj7].
  set (obj8 := mkobj (la + lb + 1)
                 (write_bytes (write_bytes ∅ 0 (a ++ [0%Z])) (0 + la) (b ++ [0%Z]))).
  set (s8 := set_reg (set_mem s7 (<[BHeap nh := obj8]> (mem s7))) (k + 9) (heap_ptr nh)).
  exists s8. split; [reflexivity|].
  assert (Hnew8 : mem s8 !! BHeap nh = Some obj8).
  { unfold s8. simpl. by rewrite lookup_insert_eq. }
  assert (Hold8 : forall blk, blk <> BHeap nh -> mem s8 !! blk = mem s6 !! blk).
  { intros blk Hne. unfold s8, s7. simpl. by rewrite !lookup_insert_ne. }
  split.
  { unfold s8, s7. simpl. by rewrite !lookup_insert_ne by lia. }
  split.
  { apply (cstring_at_read s8 (BHeap nh) 0 obj8 (a ++ b) Hnew8).
    apply read_stored.
    - by apply Forall_app.
    - intros i c Hi. unfold obj8. cbn [cells].
      destruct (decide (i < length a)) as [Hlt|Hge].
      + rewrite write_bytes_other by lia.
        apply write_bytes_stored.
        rewrite <- app_assoc, lookup_app_l in Hi by done.
        by rewrite lookup_app_l.
      + rewrite <- app_assoc, lookup_app_r in Hi by lia.
        replace (0 + Z.of_nat i)%Z with (0 + la + Z.of_nat (i - length a))%Z by lia.
        by apply write_bytes_stored.
    - lia.
    - simpl. rewrite length_app. lia.
    - simpl. rewrite length_app. lia. }
  split; [by rewrite Hnew8|].
  split.
  { eapply ledger_frame; [| |exact Hledger6]; by apply Hold8. }
  split.
  { unfold s8, s7. simpl. rewrite Htrace6. reflexivity. }
  split.
  - eapply cstring_at_frame; [exact Ha|]. intros ? ? [= <- <-].
    rewrite Hold8; [by apply Hold6|]. intros ->. congruence.
  - eapply cstring_at_frame; [exact Hb|]. intros ? ? [= <- <-].
    rewrite Hold8; [by apply Hold6|]. intros ->. congruence.
Qed.
End StringFacts.

Module ConcatenationFacts.
Import Ast Emit Lower Machine EmitFacts MachineFacts LowerFacts StringFacts.

Section Lowering.
Variable lower_other : node -> option ir.type -> Emit.t -> result (ir.value * Emit.t).

(** The [+] of two strings at run time.  Where the operands point
    to two C strings [a] and [b] outside the ledger, the ledger has
    room and the sum of the lengths fits 64 bits, the emitted code
    runs without undefined behaviour: it allocates one block of
    exactly [length a + length b + 1] bytes, records it in the
    ledger, leaves in the result register a pointer to it, and the
    block holds the C string [a ++ b]; the operands are unchanged. *)
Theorem string_concatenation_runs (l r : node) (e e1 e2 : Emit.t) (lv rv : ir.value)
    (s : state) (ps : list val) (pa pb : val) (a b : list Z) :
  _generate_expression lower_other l None e = Ok (lv, e1) ->
  _generate_expression lower_other r None e1 = Ok (rv, e2) ->
  is_string lv = true -> is_string rv = true ->
  tracking e2 ->
  stable (next_id e2) lv -> stable (next_id e2) rv ->
  ledger s ps ->
  length ps < 100 ->
  mem s !! BHeap (next_heap s) = None ->
  eval s lv = Done pa -> eval s rv = Done pb ->
  cstring_at s pa = Done a -> cstring_at s pb = Done b ->
  outside_ledger pa -> outside_ledger pb ->
  (Z.of_nat (length a) + Z.of_nat (length b) + 1 < 2 ^ 64)%Z ->
  exists (e' : Emit.t) (s' : state),
    _generate_expression lower_other (BinaryOpNode l PLUS r) None e
    = Ok (ir.Register ir.string_type (next_id e2 + 4), e')
    /\ current_code e' = current_code e2 ++ concat_code (next_id e2) lv rv
    /\ exec (concat_code (next_id e2) lv rv) s = Done (Next, s')
    /\ regs s' !! (next_id e2 + 4) = Some (heap_ptr (next_heap s))
    /\ cstring_at s' (heap_ptr (next_heap s)) = Done (a ++ b)
    /\ size <$> mem s' !! BHeap (next_heap s)
       = Some (Z.of_nat (length a) + Z.of_nat (length b) + 1)%Z
    /\ ledger s' (ps ++ [heap_ptr (next_heap s)])
    /\ trace s'
       = trace s
         ++ [Malloc (Z.of_nat (length a) + Z.of_nat (length b) + 1) (next_heap s)]
    /\ cstring_at s' pa = Done a
    /\ cstring_at s' pb = Done b.
Proof.
  intros Hl Hr Sl Sr Htr Stl Str Hledger Hroom Hfresh Hpa Hpb Ha Hb Oa Ob Hsmall.
  assert (Heq : _generate_expression lower_other (BinaryOpNode l PLUS r) None e
                = binary_op e2 PLUS lv rv).
  { simpl. rewrite Hl. simpl. rewrite Hr. done. }
  destruct (plus_two_strings_concatenates e2 lv rv Htr Sl Sr)
    as (e' & H1 & H2 & _).
  destruct (concat_runs s ps (next_id e2) lv rv pa pb a b Hledger Hroom Hfresh
              Stl Str Hpa Hpb Ha Hb Oa Ob Hsmall)
    as (s' & R1 & R2 & R3 & R4 & R5 & R6 & R7 & R8).
  exists e', s'. rewrite Heq.
  split; [exact H1|]. split; [exact H2|]. split; [exact R1|]. split; [exact R2|].
  split; [exact R3|]. split; [exact R4|]. split; [exact R5|]. split; [exact R6|].
  split; [exact R7|exact R8].
Qed.
End Lowering.

(** The generator and the machine after the operands of ["a" + "b"]. *)
Definition lowered_operands : Emit.t :=
  match _generate_expression unsupported_expression (StringNode "a") None main_entry with
  | Ok (_, e1) =>
      match _generate_expression unsupported_expression (StringNode "b") None e1 with
      | Ok (_, e2) => e2
      | _ => main_entry
      end
  | _ => main_entry
  end.

Definition operands_state : state :=
  match exec (current_code lowered_operands) (initial (module_globals lowered_operands)) with
  | Done (_, s) => s
  | _ => initial []
  end.

Lemma string_concatenation_runs_witness :
  exists (e' : Emit.t) (s' : state),
    _generate_expression unsupported_expression
      (BinaryOpNode (StringNode "a") PLUS (StringNode "b")) None main_entry
    = Ok (ir.Register ir.string_type 6, e')
    /\ cstring_at s' (heap_ptr 0) = Done [97; 98]%Z.
Proof.
  destruct (string_concatenation_runs unsupported_expression (StringNode "a")
              (StringNode "b") main_entry _ lowered_operands _ _ operands_state []
              (VPtr (BGlobal "str_2") 0) (VPtr (BGlobal "str_3") 0) [97%Z] [98%Z]
              eq_refl eq_refl eq_refl eq_refl)
    as (e' & s' & H1 & _ & _ & _ & H2 & _).
  - split; [reflexivity|split; [reflexivity|by eexists]].
  - simpl. lia.
  - simpl. lia.
  - split.
    + vm_compute. reflexivity.
    + vm_compute. reflexivity.
    + simpl. lia.
    + intros j p Hj. by rewrite lookup_nil in Hj.
  - simpl. lia.
  - vm_compute. reflexivity.
  - vm_compute. reflexivity.
  - vm_compute. reflexivity.
  - vm_compute. reflexivity.
  - vm_compute. reflexivity.
  - split; discriminate.
  - split; discriminate.
  - simpl. lia.
  - exists e', s'. split; [exact H1|exact H2].
Defined.
End ConcatenationFacts.

Module SemanticFacts.
Import Ast Semantic.

(** A return statement agrees with the declared return type: it has
    a value exactly when the type is not [void]. *)
Definition agrees (return_type : Ty) (value : option node) : Prop :=
  is_Some value <-> return_type <> VoidType.

Lemma suggestion_never_returns (name : string) (return_value : node) :
  (suggestion ← _suggest_return_type return_value;
   Raise (NoxySemanticError (void_return_message name suggestion)))
  <> Ok tt.
Proof. by destruct (_suggest_return_type return_value). Qed.

Lemma void_or_not (return_type : Ty) :
  return_type = VoidType \/ return_type <> VoidType.
Proof. destruct return_type; (by left) || (by right). Qed.

Lemma agrees_void (value : option node) : agrees VoidType value <-> value = None.
Proof.
  unfold agrees. destruct value as [v|].
  - split; [|discriminate]. intros [H _]. destruct H; [by eexists|done].
  - split; [done|]. intros _. split; [by intros [? ?]|done].
Qed.

Lemma agrees_value (return_type : Ty) (value : option node) :
  return_type <> VoidType -> agrees return_type value <-> is_Some value.
Proof. intros Hne. unfold agrees. split; [intros H; by apply H|done]. Qed.

Lemma validate_returns_cons (name : string) (return_type : Ty) (value : option node)
    (rest : list (option node)) :
  agrees return_type value ->
  validate_returns name return_type (value :: rest)
  = validate_returns name return_type rest.
Proof.
  intros Hv. destruct (void_or_not return_type) as [->|Hne].
  - apply agrees_void in Hv as ->. done.
  - apply agrees_value in Hv as [v ->]; [|done]. by destruct return_type.
Qed.

Lemma validate_returns_disagrees (name : string) (return_type : Ty)
    (value : option node) (rest : list (option node)) :
  ~ agrees return_type value ->
  validate_returns name return_type (value :: rest) <> Ok tt.
Proof.
  intros Hv. destruct (void_or_not return_type) as [->|Hne].
  - rewrite agrees_void in Hv. destruct value as [v|]; [|done]. simpl.
    apply suggestion_never_returns.
  - rewrite agrees_value in Hv by done. destruct value as [v|].
    + destruct Hv. by eexists.
    + by destruct return_type.
Qed.

Lemma agrees_dec (return_type : Ty) (value : option node) :
  agrees return_type value \/ ~ agrees return_type value.
Proof.
  destruct (void_or_not return_type) as [->|Hne].
  - rewrite agrees_void. destruct value; [by right|by left].
  - rewrite agrees_value by done. destruct value; [left; by eexists|right].
    by intros [? ?].
Qed.

Lemma validate_returns_ok (name : string) (return_type : Ty)
    (return_statements : list (option node)) :
  validate_returns name return_type return_statements = Ok tt
  <-> Forall (agrees return_type) return_statements.
Proof.
  induction return_statements as [|value rest IH].
  { split; [constructor|done]. }
  rewrite Forall_cons.
  destruct (agrees_dec return_type value) as [Hv|Hv].
  - rewrite validate_returns_cons by done. rewrite IH. tauto.
  - split; [|tauto]. intros H. by apply validate_returns_disagrees in H.
Qed.

(** The return check accepts a program exactly when, in every
    function defined at top level, each return statement found in
    the body (directly or nested in [if], [else] and [while]
    branches) has a value if and only if the declared return type is
    not [void].  Nothing else is checked: neither the type of the
    value returned nor that a function which is not [void] returns
    at all. *)
Theorem return_check_accepts_iff (statements : list node) :
  _check_function_return_types statements = Ok tt
  <-> forall name params return_type body,
        FunctionNode name params return_type body ∈ statements ->
        Forall (agrees return_type) (_find_return_statements body).
Proof.
  induction statements as [|stmt statements IH].
  { split; [|done]. intros _ ? ? ? ? H. by apply elem_of_nil in H. }
  assert (Hskip : (forall name params return_type body,
                     stmt <> FunctionNode name params return_type body) ->
            (_check_function_return_types statements = Ok tt
             <-> forall name params return_type body,
                   FunctionNode name params return_type body ∈ stmt :: statements ->
                   Forall (agrees return_type) (_find_return_statements body))).
  { intros Hne. rewrite IH. split.
    - intros H name params return_type body Hin.
      apply elem_of_cons in Hin as [Heq|Hin]; [by destruct (Hne _ _ _ _ (eq_sym Heq))|].
      by eapply H.
    - intros H name params return_type body Hin. eapply H. by right. }
  destruct stmt; try (apply Hskip; discriminate).
  cbn [_check_function_return_types]. unfold _validate_function_returns.
  destruct (validate_returns name return_type (_find_return_statements body))
    as [[]| |] eqn:Hv; cbn [mbind result_bind rbind].
  - apply validate_returns_ok in Hv. rewrite IH. split.
    + intros H name' params' return_type' body' Hin.
      apply elem_of_cons in Hin as [[= -> -> -> ->]|Hin]; [done|by eapply H].
    + intros H name' params' return_type' body' Hin. eapply H. by right.
  - split; [discriminate|]. intros H.
    assert (Hok : validate_returns name return_type (_find_return_statements body) = Ok tt).
    { apply validate_returns_ok. eapply H. by left. }
    congruence.
  - split; [discriminate|]. intros H.
    assert (Hok : validate_returns name return_type (_find_return_statements body) = Ok tt).
    { apply validate_returns_ok. eapply H. by left. }
    congruence.
Qed.

Lemma validate_returns_skip (name : string) (return_type : Ty)
    (pre rest : list (option node)) :
  Forall (agrees return_type) pre ->
  validate_returns name return_type (pre ++ rest)
  = validate_returns name return_type rest.
Proof.
  induction 1 as [|value pre Hv _ IH]; [done|].
  rewrite <- app_comm_cons, validate_returns_cons by done. exact IH.
Qed.

(** A [void] function whose first return statement with a value
    returns a binary operation is not rejected with the semantic
    error of the check: building the message asks for a suggested
    type, and the suggestion for a binary operation raises
    [AttributeError] ([TokenType] has no member [MOD]). *)
Theorem void_return_of_operation_raises_attribute_error (name : string)
    (body : list node) (pre post : list (option node)) (lhs rhs : node)
    (operator : TokenType) :
  _find_return_statements body
  = pre ++ Some (BinaryOpNode lhs operator rhs) :: post ->
  Forall (fun value => value = None) pre ->
  exists message,
    _validate_function_returns name VoidType body = Raise (AttributeError message).
Proof.
  intros Hfind Hpre. unfold _validate_function_returns. rewrite Hfind.
  rewrite validate_returns_skip.
  - eexists. reflexivity.
  - eapply Forall_impl; [exact Hpre|]. intros value ->. by apply agrees_void.
Qed.

(** [func f() -> void] whose body is [if c then return a + b end]. *)
Definition returns_sum : list node :=
  [ IfNode (IdentifierNode "c")
      [ ReturnNode (Some (BinaryOpNode (IdentifierNode "a") PLUS (IdentifierNode "b"))) ]
      None ].

Lemma void_return_of_operation_raises_attribute_error_witness :
  exists message,
    _validate_function_returns "f" VoidType returns_sum = Raise (AttributeError message).
Proof.
  apply (void_return_of_operation_raises_attribute_error "f" returns_sum [] []
           (IdentifierNode "a") (IdentifierNode "b") PLUS).
  - reflexivity.
  - constructor.
Defined.
End SemanticFacts.

Module ZerosFacts.
Import Ast Emit Lower Machine EmitFacts MachineFacts LogicalFacts.

Definition int_ptr : ir.type := ir.as_pointer ir.int_type.

(** The instructions of the loop that writes the zeros: for each
    element a [gep] numbered from [k] on and a [store]. *)
Fixpoint zero_stores (k : nat) (typed_ptr : ir.value) (i : Z) (count : nat)
  : list ir.instruction :=
  match count with
  | O => []
  | S count' =>
      ir.gep k typed_ptr [ir.Constant ir.int_type (ir.CInt i)] true
      :: ir.store zero64 (ir.Register int_ptr k)
      :: zero_stores (S k) typed_ptr (i + 1) count'
  end.

(** The instructions of [zeros(n)] for integers, numbered from [k];
    the result is the register [k + 4]. *)
Definition zeros_code (k n : nat) : list ir.instruction :=
  ir.call k ir.malloc [ir.Constant ir.int_type (ir.CInt (Z.of_nat n * 8))]
  :: track_code (k + 1) (ir.Register ir.string_type k)
  ++ ir.bitcast (k + 4) (ir.Register ir.string_type k) int_ptr
  :: zero_stores (k + 5) (ir.Register int_ptr (k + 4)) 0 n.

Lemma store_zeros_emits (count : nat) :
  forall (e : t) (typed_ptr : ir.value) (i : Z),
    ir.type_of typed_ptr = int_ptr ->
    exists e',
      store_zeros e typed_ptr zero64 i count = Ok e'
      /\ current_code e' = current_code e ++ zero_stores (next_id e) typed_ptr i count
      /\ Emit.block e' = Emit.block e
      /\ allocation_array e' = allocation_array e
      /\ allocation_count e' = allocation_count e
      /\ current_function e' = current_function e.
Proof.
  induction count as [|count IH]; intros e typed_ptr i Hty.
  { exists e. simpl. by rewrite app_nil_r. }
  cbn [store_zeros]. unfold builder_gep. rewrite Hty.
  cbn [int_ptr ir.as_pointer gep_type gep_step].
  cbn [mbind result_bind rbind emit_value].
  unfold builder_store. cbn [ir.type_of ir.as_pointer].
  change (ir.type_eqb ir.int_type (ir.type_of zero64)) with true.
  cbn [mbind result_bind rbind].
  match goal with
  | |- context [store_zeros ?e1 _ _ _ _] =>
      destruct (IH e1 typed_ptr (i + 1)%Z Hty) as (e' & H1 & H2 & H3 & H4 & H5 & H6)
  end.
  exists e'. split; [exact H1|]. rewrite H2, H3, H4, H5, H6.
  split; [|done].
  rewrite current_code_emit. unfold current_code at 1.
  cbn [blocks Emit.block with_next_id emit with_blocks next_id].
  rewrite block_code_append_to. rewrite <- !app_assoc. reflexivity.
Qed.

Lemma zeros_emits (e : t) (n : nat) :
  tracking e ->
  exists e',
    zeros e (Z.of_nat n) IntType = Ok (ir.Register int_ptr (next_id e + 4), e')
    /\ current_code e' = current_code e ++ zeros_code (next_id e) n
    /\ tracking e'.
Proof.
  intros Htr. unfold zeros.
  set (e0 := with_next_id
               (emit e (ir.call (next_id e) ir.malloc
                          [ir.Constant ir.int_type (ir.CInt (Z.of_nat n * 8))]))
               (S (next_id e))).
  assert (Hcall : builder_call e ir.malloc
                    [ir.Constant ir.int_type (ir.CInt (Z.of_nat n * 8))]
                  = Ok (ir.Register ir.string_type (next_id e), e0)) by done.
  rewrite Hcall. cbn [mbind result_bind rbind].
  assert (Htr0 : tracking e0).
  { destruct Htr as (? & ? & ?). by repeat split. }
  destruct (track_allocation_emits e0 (ir.Register ir.string_type (next_id e)) Htr0)
    as (e1 & Htrack & Hcode & Hid & Hblock & _ & Htr1 & _); [done|].
  rewrite Htrack. cbn [mbind result_bind rbind].
  unfold builder_bitcast, builder_cast.
  change (ir.type_eqb (ir.type_of (ir.Register ir.string_type (next_id e)))
            (ir.as_pointer ir.int_type)) with false.
  cbn [emit_value]. rewrite Nat2Z.id.
  assert (Hnext : next_id e1 = next_id e + 4).
  { rewrite Hid. unfold e0. simpl. lia. }
  rewrite Hnext.
  match goal with
  | |- context [store_zeros ?e2 ?p _ _ _] =>
      destruct (store_zeros_emits n e2 p 0%Z eq_refl)
        as (e' & H1 & H2 & H3 & H4 & H5 & H6)
  end.
  rewrite H1. cbn [mbind result_bind rbind].
  exists e'. split; [reflexivity|]. split.
  - rewrite H2.
    match goal with
    | |- current_code (with_next_id (emit e1 ?i) ?m) ++ _ = _ =>
        change (current_code (with_next_id (emit e1 i) m))
          with (current_code (emit e1 i))
    end.
    rewrite current_code_emit, Hcode.
    change (current_code e0)
      with (current_code
              (emit e (ir.call (next_id e) ir.malloc
                         [ir.Constant ir.int_type (ir.CInt (Z.of_nat n * 8))]))).
    rewrite current_code_emit.
    change (next_id e0) with (S (next_id e)).
    cbn [next_id with_next_id].
    unfold zeros_code. rewrite <- !app_assoc. cbn [app].
    replace (S (next_id e)) with (next_id e + 1) by lia.
    replace (S (next_id e + 4)) with (next_id e + 5) by lia.
    reflexivity.
  - destruct Htr1 as (A1 & A2 & A3). unfold tracking.
    rewrite H4, H5, H6. done.
Qed.

(** The loop of zeros at run time: the cells of the elements from
    [i] on hold 0 afterwards, and nothing else changes. *)
Lemma zero_stores_run (count : nat) :
  forall (k : nat) (typed_ptr : ir.value) (i : Z) (s : state) (blk : block)
         (obj : object),
    ir.type_of typed_ptr = int_ptr ->
    stable k typed_ptr ->
    eval s typed_ptr = Done (VPtr blk 0) ->
    mem s !! blk = Some obj ->
    (0 <= i)%Z ->
    ((i + Z.of_nat count) * 8 <= size obj)%Z ->
    (i + Z.of_nat count < 2 ^ 64)%Z ->
    exists s' obj',
      exec (zero_stores k typed_ptr i count) s = Done (Next, s')
      /\ mem s' = <[blk := obj']> (mem s)
      /\ size obj' = size obj
      /\ (forall j, (i <= j < i + Z.of_nat count)%Z ->
            cells obj' !! (j * 8)%Z = Some (VInt 0))
      /\ (forall o, (forall j, (i <= j < i + Z.of_nat count)%Z -> o <> (j * 8)%Z) ->
            cells obj' !! o = cells obj !! o)
      /\ (forall r, r < k -> regs s' !! r = regs s !! r)
      /\ trace s' = trace s /\ next_heap s' = next_heap s.
Proof.
  induction count as [|count IH];
    intros k typed_ptr i s blk obj Hty Hst Hev Hm Hi Hsize Hsmall.
  { exists s, obj. simpl. split; [done|]. split; [by rewrite insert_id|].
    split; [done|]. split; [intros j Hj; lia|]. done. }
  cbn [zero_stores].
  erewrite exec_next; cycle 1.
  { eapply (step_gep s _ _ _ _ blk 0 (i * 8 + 0) [VInt i] [i] Hev).
    - simpl. rewrite wrap_small by lia. done.
    - reflexivity.
    - rewrite Hty. reflexivity. }
  set (s1 := set_reg s k (VPtr blk (0 + (i * 8 + 0)))).
  erewrite exec_next; cycle 1.
  { eapply (step_store s1 _ _ (VInt 0) blk (0 + (i * 8 + 0)) 8 obj).
    - reflexivity.
    - apply eval_register. unfold s1. simpl. by rewrite lookup_insert_eq.
    - reflexivity.
    - exact Hm.
    - lia. }
  set (obj1 := mkobj (size obj) (<[(0 + (i * 8 + 0))%Z := VInt 0]> (cells obj))).
  set (s2 := set_mem s1 (<[blk := obj1]> (mem s1))).
  destruct (IH (S k) typed_ptr (i + 1)%Z s2 blk obj1)
    as (s' & obj' & H1 & H2 & H3 & H4 & H5 & H6 & H7 & H8).
  { exact Hty. }
  { destruct typed_ptr; simpl in *; lia. }
  { unfold s2, s1. change (eval (set_mem (set_reg s k ?x) ?m) typed_ptr)
      with (eval (set_reg s k x) typed_ptr).
    rewrite (eval_set_reg _ k) by (done || lia). exact Hev. }
  { unfold s2. simpl. by rewrite lookup_insert_eq. }
  { lia. }
  { simpl. lia. }
  { lia. }
  exists s', obj'. split; [exact H1|].
  split; [rewrite H2; unfold s2; simpl; by rewrite insert_insert_eq|].
  split; [by rewrite H3|]. split; [|split; [|split; [|by rewrite H7, H8]]].
  - intros j Hj. destruct (decide (j = i)) as [->|Hne].
    + rewrite H5; [|intros j' Hj'; lia]. unfold obj1. simpl.
      replace (0 + (i * 8 + 0))%Z with (i * 8)%Z by lia. by rewrite lookup_insert_eq.
    + apply H4. lia.
  - intros o Ho. rewrite H5; [|intros j Hj; apply Ho; lia]. unfold obj1. simpl.
    rewrite lookup_insert_ne; [done|]. specialize (Ho i). lia.
  - intros r Hr. rewrite H6 by lia. unfold s2, s1. simpl.
    by rewrite lookup_insert_ne by lia.
Qed.

Lemma zero_stores_length (count : nat) :
  forall (k : nat) (typed_ptr : ir.value) (i : Z),
    length (zero_stores k typed_ptr i count) = 2 * count.
Proof.
  induction count as [|count IH]; intros k typed_ptr i; [done|].
  cbn [zero_stores length]. rewrite IH. lia.
Qed.

Lemma zeros_runs (s : state) (ps : list val) (k n : nat) :
  ledger s ps ->
  length ps < 100 ->
  (Z.of_nat n * 8 < 2 ^ 64)%Z ->
  exists s' obj,
    exec (zeros_code k n) s = Done (Next, s')
    /\ regs s' !! (k + 4) = Some (heap_ptr (next_heap s))
    /\ mem s' !! BHeap (next_heap s) = Some obj
    /\ size obj = (Z.of_nat n * 8)%Z
    /\ (forall j, (0 <= j < Z.of_nat n)%Z -> cells obj !! (j * 8)%Z = Some (VInt 0))
    /\ ledger s' (ps ++ [heap_ptr (next_heap s)])
    /\ trace s' = trace s ++ [Malloc (Z.of_nat n * 8) (next_heap s)].
Proof.
  intros Hledger Hroom Hsmall.
  set (nh := next_heap s). unfold zeros_code.
  (* array_ptr = malloc(size * 8) *)
  erewrite exec_next; cycle 1.
  { eapply (step_malloc s _ _ (Z.of_nat n * 8)).
    simpl. rewrite wrap_small by lia. done. }
  fold nh. set (s1 := set_reg _ k (heap_ptr nh)).
  (* the tracking of the pointer *)
  destruct (track_runs s1 ps (k + 1) (ir.Register ir.string_type k) (heap_ptr nh))
    as (s2 & Htrack & Hledger2 & Htrace2 & Hnext2 & Hmem2 & Hregs2).
  { eapply ledger_frame; [| |exact Hledger].
    - unfold s1. simpl. by rewrite lookup_insert_ne.
    - unfold s1. simpl. by rewrite lookup_insert_ne. }
  { exact Hroom. }
  { reflexivity. }
  { simpl. lia. }
  { apply eval_register. unfold s1. simpl. by rewrite lookup_insert_eq. }
  rewrite (exec_app _ _ _ _ Htrack).
  (* typed_ptr = bitcast array_ptr *)
  erewrite exec_next; cycle 1.
  { unfold step.
    rewrite (eval_register s2 ir.string_type k (heap_ptr nh)); [reflexivity|].
    rewrite Hregs2 by lia. unfold s1. simpl. by rewrite lookup_insert_eq. }
  set (s3 := set_reg s2 (k + 4) (heap_ptr nh)).
  assert (Hnew : mem s3 !! BHeap nh = Some (mkobj (Z.of_nat n * 8) ∅)).
  { unfold s3. simpl. rewrite Hmem2 by done. unfold s1. simpl.
    by rewrite lookup_insert_eq. }
  destruct (zero_stores_run n (k + 5) (ir.Register int_ptr (k + 4)) 0 s3 (BHeap nh)
              (mkobj (Z.of_nat n * 8) ∅))
    as (s' & obj' & H1 & H2 & H3 & H4 & _ & H6 & H7 & H8).
  { reflexivity. }
  { simpl. lia. }
  { apply eval_register. unfold s3. simpl. by rewrite lookup_insert_eq. }
  { exact Hnew. }
  { lia. }
  { simpl. lia. }
  { lia. }
  exists s', obj'. split; [exact H1|].
  split.
  { rewrite H6 by lia. unfold s3. simpl. by rewrite lookup_insert_eq. }
  split; [rewrite H2; by rewrite lookup_insert_eq|].
  split; [by rewrite H3|].
  split; [intros j Hj; apply H4; lia|].
  split.
  { eapply ledger_frame; [| |exact Hledger2].
    - rewrite H2. by rewrite lookup_insert_ne.
    - rewrite H2. by rewrite lookup_insert_ne. }
  rewrite H7. unfold s3. simpl. rewrite Htrace2. reflexivity.
Qed.

Section Lowering.
Variable lower_other : node -> option ir.type -> Emit.t -> result (ir.value * Emit.t).

(** [zeros(n)] of integers, with the ledger active.  The loop that
    writes the zeros is unrolled when the code is generated: one
    [gep] and one [store] per element.  At run time, with room in
    the ledger, the code allocates one block of [8 n] bytes,
    records it in the ledger, leaves a pointer to it in the result
    register, and each of the [n] elements of the block holds 0. *)
Theorem zeros_allocates_zeroed_array (n : nat) (expected_type : option ir.type)
    (e : Emit.t) (s : state) (ps : list val) :
  tracking e ->
  ledger s ps ->
  length ps < 100 ->
  (Z.of_nat n * 8 < 2 ^ 64)%Z ->
  exists (e' : Emit.t) (s' : state) (obj : object),
    _generate_expression lower_other (ZerosNode (Z.of_nat n) IntType) expected_type e
    = Ok (ir.Register int_ptr (next_id e + 4), e')
    /\ current_code e' = current_code e ++ zeros_code (next_id e) n
    /\ length (zeros_code (next_id e) n) = 7 + 2 * n
    /\ exec (zeros_code (next_id e) n) s = Done (Next, s')
    /\ regs s' !! (next_id e + 4) = Some (heap_ptr (next_heap s))
    /\ mem s' !! BHeap (next_heap s) = Some obj
    /\ size obj = (Z.of_nat n * 8)%Z
    /\ (forall j, (0 <= j < Z.of_nat n)%Z -> cells obj !! (j * 8)%Z = Some (VInt 0))
    /\ ledger s' (ps ++ [heap_ptr (next_heap s)])
    /\ trace s' = trace s ++ [Malloc (Z.of_nat n * 8) (next_heap s)].
Proof.
  intros Htr Hledger Hroom Hsmall.
  destruct (zeros_emits e n Htr) as (e' & E1 & E2 & _).
  destruct (zeros_runs s ps (next_id e) n Hledger Hroom Hsmall)
    as (s' & obj & R1 & R2 & R3 & R4 & R5 & R6 & R7).
  exists e', s', obj.
  split; [exact E1|]. split; [exact E2|]. split.
  { unfold zeros_code. cbn [length]. rewrite length_app. cbn [length].
    rewrite zero_stores_length. unfold track_code. cbn [length]. lia. }
  split; [exact R1|]. split; [exact R2|]. split; [exact R3|]. split; [exact R4|].
  split; [exact R5|]. split; [exact R6|exact R7].
Qed.
End Lowering.

Lemma zeros_allocates_zeroed_array_witness :
  exists (e' : Emit.t) (s' : state) (obj : object),
    _generate_expression unsupported_expression (ZerosNode 3 IntType) None main_entry
    = Ok (ir.Register int_ptr 4, e')
    /\ mem s' !! BHeap 0 = Some obj
    /\ size obj = 24%Z
    /\ cells obj !! 16%Z = Some (VInt 0).
Proof.
  destruct (zeros_allocates_zeroed_array unsupported_expression 3 None main_entry
              (initial ledger_globals) [])
    as (e' & s' & obj & H1 & _ & _ & _ & _ & H2 & H3 & H4 & _).
  - split; [reflexivity|split; [reflexivity|by eexists]].
  - split.
    + vm_compute. reflexivity.
    + vm_compute. reflexivity.
    + simpl. lia.
    + intros j p Hj. by rewrite lookup_nil in Hj.
  - simpl. lia.
  - simpl. lia.
  - exists e', s', obj. split; [exact H1|]. split; [exact H2|]. split; [exact H3|].
    apply (H4 2%Z). lia.
Defined.
End ZerosFacts.

Module CleanupFacts.
Import Emit EmitFacts.

Ltac invert_binds H :=
  repeat first
    [ match type of H with
      | mbind _ ?m = Ok _ =>
          let E := fresh "E" in
          destruct m as [[? ?]| |] eqn:E;
          [cbn [mbind result_bind rbind] in H|discriminate H|discriminate H]
      end
    | match type of H with
      | mbind _ ?m = Ok _ =>
          let E := fresh "E" in
          destruct m as [?| |] eqn:E;
          [cbn [mbind result_bind rbind] in H|discriminate H|discriminate H]
      end
    | match type of H with
      | (let '(_, _) := ?p in _) = Ok _ =>
          let E := fresh "E" in destruct p eqn:E
      end ].

(** The cleanup of the ledger ends the use of the ledger. *)
Lemma cleanup_clears_ledger (e e' : t) :
  is_Some (allocation_array e) ->
  _add_memory_cleanup e = Ok e' ->
  allocation_array e' = None /\ allocation_count e' = None.
Proof.
  intros [array Ha] H. unfold _add_memory_cleanup in H. rewrite Ha in H.
  destruct (allocation_count e) as [count|]; [|discriminate].
  invert_binds H. injection H as <-. done.
Qed.

(** After the cleanup of the ledger, the generator does not record a
    later allocation in the ledger: tracking it emits no instruction
    and only appends the pointer to the list [allocated_ptrs] of the
    generator. *)
Theorem tracking_after_cleanup_emits_nothing (e e' : t) (ptr_value : ir.value) :
  is_Some (allocation_array e) ->
  _add_memory_cleanup e = Ok e' ->
  ptr_value <> ir.PyNone ->
  exists e'',
    _track_allocation e' ptr_value = Ok e''
    /\ blocks e'' = blocks e'
    /\ next_id e'' = next_id e'
    /\ allocated_ptrs e'' = allocated_ptrs e' ++ [ptr_value]
    /\ allocation_array e'' = None.
Proof.
  intros Ha Hc Hp. destruct (cleanup_clears_ledger e e' Ha Hc) as [H1 H2].
  unfold _track_allocation. rewrite H1.
  exists (with_tracking e' None (allocation_count e') (allocated_ptrs e' ++ [ptr_value])).
  split; [|done].
  destruct ptr_value; try done; by destruct (current_function e').
Qed.

Lemma tracking_after_cleanup_emits_nothing_witness :
  exists e' e'',
    _add_memory_cleanup MachineFacts.main_entry = Ok e'
    /\ _track_allocation e' (ir.Register ir.string_type 0) = Ok e''
    /\ blocks e'' = blocks e'
    /\ allocated_ptrs e'' = allocated_ptrs e' ++ [ir.Register ir.string_type 0].
Proof.
  destruct (_add_memory_cleanup MachineFacts.main_entry) as [e'| |] eqn:Hc.
  - destruct (tracking_after_cleanup_emits_nothing MachineFacts.main_entry e'
                (ir.Register ir.string_type 0)) as (e'' & H1 & H2 & _ & H3 & _).
    + by eexists.
    + exact Hc.
    + discriminate.
    + exists e', e''. split; [reflexivity|]. split; [exact H1|].
      split; [exact H2|exact H3].
  - exfalso. vm_compute in Hc. discriminate Hc.
  - exfalso. vm_compute in Hc. discriminate Hc.
Defined.
End CleanupFacts.
